(** * A resizable array over raw storage: [RawMemory<T>] and [Vector<T>]

    Shallow embedding of [advanced-vector/vector.h].

    Modelling conventions.
    - A slot of raw storage is an [option T]: [None] is uninitialised memory,
      [Some x] is a live object whose value is [x].  A buffer is a list of
      slots; the null buffer of capacity 0 is the empty list.
    - A [T*] into a buffer is the offset from the start of that buffer, so the
      iterators [begin() + i] of a vector are the numbers [i].
    - The element type is a parameter.  What the container needs from it (its
      type traits, which of its special members throw, what a move leaves
      behind) is the class [Element].
    - Operations end in one of three ways, see [outcome]: a normal return, a
      propagated exception, or undefined behaviour (a failed [assert], or an
      access to a slot that holds no live object or lies outside its buffer).
    - Every [RawMemory] whose destructor runs during a call is logged, with
      the slots it had at that moment, next to the outcome of the call: a live
      object in a released buffer is an object that was never destroyed.
    - [operator new] is taken to succeed: allocation failure is not modelled.
      [Allocate(n)] is taken to obtain room for [n] objects; the source
      computes the byte count [n * sizeof(T)] in [size_t], so this holds for
      the requests that [fits] accepts (see [Allocate_size_t_fits]), and the
      properties of operations that take the number of slots from the caller
      carry that condition. *)

From Stdlib Require Import Lia Arith PeanoNat Bool.
From stdpp Require Import base option list numbers.

(** ** The element type *)

(** The capabilities of the template parameter [T].  A copy or a move that
    succeeds yields an object of the same value; a move leaves [moved_from x]
    in its source.  Whether a special member throws depends on the value it
    reads. *)
Class Element (T : Type) := {
  is_nothrow_move_constructible : bool;
  is_copy_constructible : bool;
  (** [T()] for the object that a call value-initialises after [k] others:
      the object, [None] when that constructor throws *)
  value_init : nat -> option T;
  (** [T(const T&)] throws on this source *)
  copy_throws : T -> bool;
  (** [T(T&&)] throws on this source *)
  move_throws : T -> bool;
  (** [operator=(const T&)] throws on this source *)
  copy_assign_throws : T -> bool;
  (** [operator=(T&&)] throws on this source *)
  move_assign_throws : T -> bool;
  (** the valid state a move leaves in its source *)
  moved_from : T -> T;
  (** a [noexcept] move constructor does not throw *)
  nothrow_move_sound :
    is_nothrow_move_constructible = true -> forall x, move_throws x = false
}.

(** A plain value type ([int]-like): nothing throws, a move is a copy. *)
#[export] Instance nat_Element : Element nat := {|
  is_nothrow_move_constructible := true;
  is_copy_constructible := true;
  value_init := fun _ => Some 0;
  copy_throws := fun _ => false;
  move_throws := fun _ => false;
  copy_assign_throws := fun _ => false;
  move_assign_throws := fun _ => false;
  moved_from := fun x => x;
  nothrow_move_sound := fun _ _ => eq_refl
|}.

(** A move-only type whose move constructor may throw: a handle that carries
    an identifier, is emptied (identifier 0) when moved from, and whose move
    constructor throws on the identifier 13. *)
Inductive Handle : Type := handle (id : nat).

Definition Handle_id (h : Handle) : nat := match h with handle n => n end.

Lemma Handle_nothrow_move_sound :
  false = true -> forall x : Handle, (Handle_id x =? 13) = false.
Proof. discriminate. Qed.

#[export] Instance Handle_Element : Element Handle := {|
  is_nothrow_move_constructible := false;
  is_copy_constructible := false;
  value_init := fun _ => Some (handle 0);
  copy_throws := fun _ => false;
  move_throws := fun h => Handle_id h =? 13;
  copy_assign_throws := fun _ => false;
  move_assign_throws := fun _ => false;
  moved_from := fun _ => handle 0;
  nothrow_move_sound := Handle_nothrow_move_sound
|}.

(** A type that is copied and moved freely when constructed but whose
    assignment operators may throw: assigning from the value 13 throws. *)
Inductive Pinned : Type := pinned (n : nat).

Definition Pinned_n (p : Pinned) : nat := match p with pinned n => n end.

#[export] Instance Pinned_Element : Element Pinned := {|
  is_nothrow_move_constructible := true;
  is_copy_constructible := true;
  value_init := fun _ => Some (pinned 0);
  copy_throws := fun _ => false;
  move_throws := fun _ => false;
  copy_assign_throws := fun p => Pinned_n p =? 13;
  move_assign_throws := fun p => Pinned_n p =? 13;
  moved_from := fun x => x;
  nothrow_move_sound := fun _ _ => eq_refl
|}.

(** A type of which a call can value-initialise two objects: the value
    initialisation of a third one throws. *)
Inductive Rationed : Type := rationed (n : nat).

#[export] Instance Rationed_Element : Element Rationed := {|
  is_nothrow_move_constructible := true;
  is_copy_constructible := true;
  value_init := fun k => if k <? 2 then Some (rationed 0) else None;
  copy_throws := fun _ => false;
  move_throws := fun _ => false;
  copy_assign_throws := fun _ => false;
  move_assign_throws := fun _ => false;
  moved_from := fun x => x;
  nothrow_move_sound := fun _ _ => eq_refl
|}.

(** A copyable type whose copy constructor may throw and whose move
    constructor is not [noexcept]: copying the value 13 throws. *)
Inductive Fragile : Type := fragile (n : nat).

Definition Fragile_n (f : Fragile) : nat := match f with fragile n => n end.

Lemma Fragile_nothrow_move_sound :
  false = true -> forall x : Fragile, (Fragile_n x =? 13) = false.
Proof. discriminate. Qed.

#[export] Instance Fragile_Element : Element Fragile := {|
  is_nothrow_move_constructible := false;
  is_copy_constructible := true;
  value_init := fun _ => Some (fragile 0);
  copy_throws := fun f => Fragile_n f =? 13;
  move_throws := fun f => Fragile_n f =? 13;
  copy_assign_throws := fun _ => false;
  move_assign_throws := fun _ => false;
  moved_from := fun x => x;
  nothrow_move_sound := Fragile_nothrow_move_sound
|}.

(** The size of an object of the element type in bytes, [sizeof(T)]. *)
Class Sized (T : Type) := {
  sizeof : N;
  sizeof_pos : (0 < sizeof)%N
}.

(** The sample types are four bytes wide, as an [int] is. *)
#[export] Instance nat_Sized : Sized nat := {| sizeof := 4; sizeof_pos := eq_refl |}.
#[export] Instance Rationed_Sized : Sized Rationed :=
  {| sizeof := 4; sizeof_pos := eq_refl |}.
#[export] Instance Fragile_Sized : Sized Fragile :=
  {| sizeof := 4; sizeof_pos := eq_refl |}.

(** ** Outcomes *)

(** How a call ends: [Ok s r] returns [r] and leaves the state [s];
    [Throw s] propagates an exception and leaves [s]; [UB] is undefined
    behaviour. *)
Inductive outcome (S R : Type) : Type :=
| Ok (s : S) (r : R)
| Throw (s : S)
| UB.

Arguments Ok {S R} s r.
Arguments Throw {S R} s.
Arguments UB {S R}.

Section Vector.

Context {T : Type} `{Element T}.

(** ** Raw slots and the standard algorithms over them *)

Abbreviation buffer := (list (option T)).

(** The live object in slot [i], if there is one. *)
Definition read (buf : buffer) (i : nat) : option T :=
  match buf !! i with
  | Some (Some x) => Some x
  | _ => None
  end.

(** [new (buf + i) T(x)]: placement construction in a slot of the buffer. *)
Definition construct_at (buf : buffer) (i : nat) (x : T) : option buffer :=
  match buf !! i with
  | Some _ => Some (<[i := Some x]> buf)
  | None => None
  end.

(** [Vector::Destroy(buf + i)], that is [(buf + i)->~T()]. *)
Definition Destroy (buf : buffer) (i : nat) : option buffer :=
  match read buf i with
  | Some _ => Some (<[i := None]> buf)
  | None => None
  end.

(** [std::destroy_n(buf + first, n)] (and [Vector::DestroyN]). *)
Fixpoint destroy_n (buf : buffer) (first n : nat) : option buffer :=
  match n with
  | 0 => Some buf
  | S n' =>
      match Destroy buf first with
      | Some buf' => destroy_n buf' (S first) n'
      | None => None
      end
  end.

(** [std::uninitialized_copy_n(src + first, n, dst + d_first)] between two
    buffers.  When a copy constructor throws, the objects constructed so far
    are destroyed and the exception propagates. *)
Fixpoint uninitialized_copy_n (src : buffer) (first n : nat)
    (dst : buffer) (d_first : nat) : outcome buffer unit :=
  match n with
  | 0 => Ok dst tt
  | S n' =>
      match read src first with
      | None => UB
      | Some x =>
          if copy_throws x then Throw dst
          else
            match construct_at dst d_first x with
            | None => UB
            | Some dst1 =>
                match uninitialized_copy_n src (S first) n' dst1 (S d_first) with
                | Ok dst2 r => Ok dst2 r
                | Throw dst2 =>
                    match Destroy dst2 d_first with
                    | Some dst3 => Throw dst3
                    | None => UB
                    end
                | UB => UB
                end
            end
      end
  end.

(** [std::uninitialized_move_n(src + first, n, dst + d_first)] between two
    buffers: as above with the move constructor, which leaves each source
    object moved-from.  The state is the pair (source, destination). *)
Fixpoint uninitialized_move_n (src : buffer) (first n : nat)
    (dst : buffer) (d_first : nat) : outcome (buffer * buffer) unit :=
  match n with
  | 0 => Ok (src, dst) tt
  | S n' =>
      match read src first with
      | None => UB
      | Some x =>
          if move_throws x then Throw (src, dst)
          else
            match construct_at dst d_first x with
            | None => UB
            | Some dst1 =>
                match uninitialized_move_n (<[first := Some (moved_from x)]> src)
                        (S first) n' dst1 (S d_first) with
                | Ok s r => Ok s r
                | Throw (src2, dst2) =>
                    match Destroy dst2 d_first with
                    | Some dst3 => Throw (src2, dst3)
                    | None => UB
                    end
                | UB => UB
                end
            end
      end
  end.

(** [std::uninitialized_value_construct_n(buf + first, n)] when the call has
    value-initialised [k] objects already.  When a constructor throws, the
    objects constructed so far are destroyed and the exception propagates. *)
Fixpoint uninitialized_value_construct_from (k : nat) (buf : buffer)
    (first n : nat) : outcome buffer unit :=
  match n with
  | 0 => Ok buf tt
  | S n' =>
      match value_init k with
      | None => Throw buf
      | Some x =>
          match construct_at buf first x with
          | None => UB
          | Some buf1 =>
              match uninitialized_value_construct_from (S k) buf1 (S first) n' with
              | Ok buf2 r => Ok buf2 r
              | Throw buf2 =>
                  match Destroy buf2 first with
                  | Some buf3 => Throw buf3
                  | None => UB
                  end
              | UB => UB
              end
          end
      end
  end.

(** [std::uninitialized_value_construct_n(buf + first, n)]. *)
Definition uninitialized_value_construct_n (buf : buffer) (first n : nat)
    : outcome buffer unit :=
  uninitialized_value_construct_from 0 buf first n.

(** [*(buf + i) = x] by copy assignment from an object of value [x]. *)
Definition copy_assign_at (buf : buffer) (i : nat) (x : T) : outcome buffer unit :=
  match read buf i with
  | None => UB
  | Some _ => if copy_assign_throws x then Throw buf else Ok (<[i := Some x]> buf) tt
  end.

(** [*(buf + i) = std::move(tmp)] for an object [tmp] of value [x] outside
    the buffer. *)
Definition move_assign_at (buf : buffer) (i : nat) (x : T) : outcome buffer unit :=
  match read buf i with
  | None => UB
  | Some _ => if move_assign_throws x then Throw buf else Ok (<[i := Some x]> buf) tt
  end.

(** [std::copy(src + first, src + first + n, dst + d_first)] between two
    buffers: element-wise copy assignment, front to back. *)
Fixpoint std_copy (src : buffer) (first n : nat) (dst : buffer) (d_first : nat)
    : outcome buffer unit :=
  match n with
  | 0 => Ok dst tt
  | S n' =>
      match read src first with
      | None => UB
      | Some x =>
          match copy_assign_at dst d_first x with
          | Ok dst1 _ => std_copy src (S first) n' dst1 (S d_first)
          | Throw dst1 => Throw dst1
          | UB => UB
          end
      end
  end.

(** [buf[d] = std::move(buf[s])] inside one buffer. *)
Definition move_assign_within (buf : buffer) (s d : nat) : outcome buffer unit :=
  match read buf s, read buf d with
  | Some x, Some _ =>
      if move_assign_throws x then Throw buf
      else Ok (<[d := Some x]> (<[s := Some (moved_from x)]> buf)) tt
  | _, _ => UB
  end.

(** [std::move(buf + first, buf + first + n, buf + d_first)] inside one
    buffer: element-wise move assignment, front to back. *)
Fixpoint std_move (buf : buffer) (first n d_first : nat) : outcome buffer unit :=
  match n with
  | 0 => Ok buf tt
  | S n' =>
      match move_assign_within buf first d_first with
      | Ok buf1 _ => std_move buf1 (S first) n' (S d_first)
      | Throw buf1 => Throw buf1
      | UB => UB
      end
  end.

(** [std::move_backward(buf + first, buf + first + n, buf + d_last)] inside
    one buffer: element-wise move assignment, back to front. *)
Fixpoint std_move_backward (buf : buffer) (first n d_last : nat)
    : outcome buffer unit :=
  match n with
  | 0 => Ok buf tt
  | S n' =>
      match d_last with
      | 0 => UB
      | S d =>
          match move_assign_within buf (first + n') d with
          | Ok buf1 _ => std_move_backward buf1 first n' d
          | Throw buf1 => Throw buf1
          | UB => UB
          end
      end
  end.

(** [Vector::CopyOrMoveNElem(buffer + first, count, new_buffer + d_first)]:
    relocation by move when the move constructor is [noexcept] or there is
    no copy constructor, by copy otherwise.  The state is the pair
    (source, destination). *)
Definition CopyOrMoveNElem (buf : buffer) (first count : nat)
    (new_buffer : buffer) (d_first : nat) : outcome (buffer * buffer) unit :=
  if is_nothrow_move_constructible || negb is_copy_constructible then
    uninitialized_move_n buf first count new_buffer d_first
  else
    match uninitialized_copy_n buf first count new_buffer d_first with
    | Ok d r => Ok (buf, d) r
    | Throw d => Throw (buf, d)
    | UB => UB
    end.

(** ** [RawMemory<T>] *)

Record RawMemory : Type := mkRawMemory {
  buffer_ : buffer;
  capacity_ : nat
}.

(** [RawMemory::Allocate(n)]: [n] uninitialised slots, the null buffer for
    [n = 0]. *)
Definition Allocate (n : nat) : buffer := replicate n None.

(** [RawMemory()] *)
Definition RawMemory_default : RawMemory :=
  {| buffer_ := []; capacity_ := 0 |}.

(** [RawMemory(capacity)] *)
Definition RawMemory_new (capacity : nat) : RawMemory :=
  {| buffer_ := Allocate capacity; capacity_ := capacity |}.

(** [RawMemory::Swap]: exchanges the two (buffer, capacity) pairs. *)
Definition RawMemory_Swap (this other : RawMemory) : RawMemory * RawMemory :=
  ({| buffer_ := buffer_ other; capacity_ := capacity_ other |},
   {| buffer_ := buffer_ this; capacity_ := capacity_ this |}).

(** The same owner with the slots of its buffer updated. *)
Definition with_buffer (m : RawMemory) (buf : buffer) : RawMemory :=
  {| buffer_ := buf; capacity_ := capacity_ m |}.

(** ** [Vector<T>] *)

Record Vector : Type := mkVector {
  data_ : RawMemory;
  size_ : nat
}.

Definition Size (this : Vector) : nat := size_ this.
Definition Capacity (this : Vector) : nat := capacity_ (data_ this).

(** The slots of the vector's storage. *)
Definition slots (this : Vector) : buffer := buffer_ (data_ this).

(** The same vector with the slots of its storage updated. *)
Definition with_slots (this : Vector) (buf : buffer) : Vector :=
  {| data_ := with_buffer (data_ this) buf; size_ := size_ this |}.

(** [begin()] and [end()], as offsets into the storage. *)
Definition Vector_begin (this : Vector) : nat := 0.
Definition Vector_end (this : Vector) : nat := size_ this.

(** [operator[]]: the element at [index]; the assertion [index < size_]. *)
Definition at_index (this : Vector) (index : nat) : option T :=
  if index <? size_ this then read (slots this) index else None.

(** The values of the slots [0 .. size_), front to back (a slot of that range
    without a live object contributes nothing). *)
Definition contents (this : Vector) : list T :=
  omap id (take (size_ this) (slots this)).

(** The result of a member function: how the call ended, with the state of
    [*this], and the [RawMemory] objects destroyed during the call. *)
Definition result (R : Type) : Type := outcome Vector R * list RawMemory.

(** [Vector()] *)
Definition Vector_default : Vector :=
  {| data_ := RawMemory_default; size_ := 0 |}.

(** [Vector(size)].  When an element constructor throws, the member [data_]
    is destroyed and no vector exists. *)
Definition Vector_sized (size : nat) : outcome unit Vector * list RawMemory :=
  let data := RawMemory_new size in
  match uninitialized_value_construct_n (buffer_ data) 0 size with
  | Ok buf _ => (Ok tt {| data_ := with_buffer data buf; size_ := size |}, [])
  | Throw buf => (Throw tt, [with_buffer data buf])
  | UB => (UB, [])
  end.

(** [Vector(const Vector& other)] *)
Definition Vector_copy (other : Vector) : outcome unit Vector * list RawMemory :=
  let data := RawMemory_new (size_ other) in
  match uninitialized_copy_n (slots other) 0 (size_ other) (buffer_ data) 0 with
  | Ok buf _ => (Ok tt {| data_ := with_buffer data buf; size_ := size_ other |}, [])
  | Throw buf => (Throw tt, [with_buffer data buf])
  | UB => (UB, [])
  end.

(** [Vector::Swap(other)] for two distinct vectors: the pair ([*this],
    [other]) afterwards. *)
Definition Swap (this other : Vector) : Vector * Vector :=
  let (d1, d2) := RawMemory_Swap (data_ this) (data_ other) in
  ({| data_ := d1; size_ := size_ other |},
   {| data_ := d2; size_ := size_ this |}).

(** [Vector(Vector&& other)]: the new vector starts from the default member
    initialisers and swaps with [other]; the pair (new vector, [other]). *)
Definition Vector_move (other : Vector) : Vector * Vector :=
  Swap Vector_default other.

(** [~Vector()]: destroys the elements, then the member [data_]. *)
Definition Vector_destroy (this : Vector) : option (list RawMemory) :=
  match destroy_n (slots this) 0 (size_ this) with
  | Some buf => Some [with_buffer (data_ this) buf]
  | None => None
  end.

(** The right-hand side of an assignment: the vector itself
    ([this == &other]) or another vector. *)
Inductive rhs : Type :=
| Self
| Other (other : Vector).

(** [Vector::Reserve(new_capacity)] *)
Definition Reserve (this : Vector) (new_capacity : nat) : result unit :=
  if Capacity this <? new_capacity then
    let new_data := RawMemory_new new_capacity in
    match CopyOrMoveNElem (slots this) 0 (size_ this) (buffer_ new_data) 0 with
    | Ok (old, new) _ =>
        match destroy_n old 0 (size_ this) with
        | Some old' =>
            let (d, nd) :=
              RawMemory_Swap (with_buffer (data_ this) old') (with_buffer new_data new) in
            (Ok {| data_ := d; size_ := size_ this |} tt, [nd])
        | None => (UB, [])
        end
    | Throw (old, new) => (Throw (with_slots this old), [with_buffer new_data new])
    | UB => (UB, [])
    end
  else (Ok this tt, []).

(** [Vector::operator=(const Vector& other)] *)
Definition copy_assign (this : Vector) (r : rhs) : result unit :=
  match r with
  | Self => (Ok this tt, [])
  | Other other =>
      if Capacity this <? size_ other then
        match Vector_copy other with
        | (Ok _ copy, rel) =>
            let (this', copy') := Swap this copy in
            match Vector_destroy copy' with
            | Some rel' => (Ok this' tt, rel ++ rel')
            | None => (UB, [])
            end
        | (Throw _, rel) => (Throw this, rel)
        | (UB, _) => (UB, [])
        end
      else
        match std_copy (slots other) 0 (Nat.min (size_ this) (size_ other))
                (slots this) 0 with
        | Ok buf _ =>
            if size_ this <? size_ other then
              match uninitialized_copy_n (slots other) (size_ this)
                      (size_ other - size_ this) buf (size_ this) with
              | Ok buf' _ =>
                  (Ok {| data_ := with_buffer (data_ this) buf';
                         size_ := size_ other |} tt, [])
              | Throw buf' => (Throw (with_slots this buf'), [])
              | UB => (UB, [])
              end
            else
              match destroy_n buf (size_ other) (size_ this - size_ other) with
              | Some buf' =>
                  (Ok {| data_ := with_buffer (data_ this) buf';
                         size_ := size_ other |} tt, [])
              | None => (UB, [])
              end
        | Throw buf => (Throw (with_slots this buf), [])
        | UB => (UB, [])
        end
  end.

(** [Vector::operator=(Vector&& other)]: the pair ([*this], [other])
    afterwards. *)
Definition move_assign (this : Vector) (r : rhs) : Vector * rhs :=
  match r with
  | Self => (this, Self)
  | Other other => let (this', other') := Swap this other in (this', Other other')
  end.

(** [Vector::Resize(new_size)] *)
Definition Resize (this : Vector) (new_size : nat) : result unit :=
  if new_size =? size_ this then (Ok this tt, [])
  else if new_size <? size_ this then
    match destroy_n (slots this) new_size (size_ this - new_size) with
    | Some buf =>
        (Ok {| data_ := with_buffer (data_ this) buf; size_ := new_size |} tt, [])
    | None => (UB, [])
    end
  else
    match Reserve this new_size with
    | (Ok this1 _, rel) =>
        match uninitialized_value_construct_n (slots this1) (size_ this1)
                (new_size - size_ this1) with
        | Ok buf _ =>
            (Ok {| data_ := with_buffer (data_ this1) buf; size_ := new_size |} tt, rel)
        | Throw buf => (Throw (with_slots this1 buf), rel)
        | UB => (UB, [])
        end
    | (Throw this1, rel) => (Throw this1, rel)
    | (UB, _) => (UB, [])
    end.

(** [Vector::PopBack()] *)
Definition PopBack (this : Vector) : result unit :=
  if 0 <? size_ this then
    match Destroy (slots this) (size_ this - 1) with
    | Some buf =>
        (Ok {| data_ := with_buffer (data_ this) buf; size_ := size_ this - 1 |} tt, [])
    | None => (UB, [])
    end
  else (Ok this tt, []).

(** The constructor arguments of [Emplace], [Insert] and [PushBack].  A
    reference to constant may refer to an element of the vector itself; an
    rvalue reference is the only reference to its object, as the library
    convention for such parameters has it, so it refers outside the vector. *)
Inductive arg : Type :=
| ByArgs (made : option T)
    (** [T(args...)] from arguments that refer to nothing inside the vector:
        the value constructed, [None] when the constructor throws *)
| ByCopy (x : T)
    (** [const T&] to an object outside the vector *)
| ByCopyOwn (j : nat)
    (** [const T&] to the element at index [j] of this vector *)
| ByMove (x : T).
    (** [T&&] to an object outside the vector *)

(** [T(std::forward<Args>(args)...)] evaluated against the vector's slots. *)
Definition construct (a : arg) (buf : buffer) : outcome unit T :=
  match a with
  | ByArgs (Some x) => Ok tt x
  | ByArgs None => Throw tt
  | ByCopy x => if copy_throws x then Throw tt else Ok tt x
  | ByCopyOwn j =>
      match read buf j with
      | Some x => if copy_throws x then Throw tt else Ok tt x
      | None => UB
      end
  | ByMove x => if move_throws x then Throw tt else Ok tt x
  end.

(** [Vector::Emplace(begin() + index, args...)]; returns the offset of the
    returned iterator.  In the in-place insertion before [end()], the call
    [CopyOrMoveNElem(data_ + size_ - 1, 1, data_ + size_)] has its source in
    the slots [0 .. size_) and its destination in the slots [size_ ..
    capacity) of the same storage: the two ranges are passed as two buffers
    and joined again afterwards. *)
Definition Emplace (this : Vector) (index : nat) (a : arg) : result nat :=
  let size := size_ this in
  if negb (index <=? size) then (UB, [])
  else if size + 1 <=? Capacity this then
    if index =? size then
      match construct a (slots this) with
      | Ok _ x =>
          match construct_at (slots this) size x with
          | Some buf =>
              (Ok {| data_ := with_buffer (data_ this) buf; size_ := size + 1 |}
                  (size + 1 - 1), [])
          | None => (UB, [])
          end
      | Throw _ => (Throw this, [])
      | UB => (UB, [])
      end
    else
      match construct a (slots this) with
      | Ok _ value =>
          match CopyOrMoveNElem (take size (slots this)) (size - 1) 1
                  (drop size (slots this)) 0 with
          | Ok (lo, hi) _ =>
              match std_move_backward (lo ++ hi) index (size - 1 - index) size with
              | Ok buf _ =>
                  match move_assign_at buf index value with
                  | Ok buf' _ =>
                      (Ok {| data_ := with_buffer (data_ this) buf';
                             size_ := size + 1 |} index, [])
                  | Throw buf' => (Throw (with_slots this buf'), [])
                  | UB => (UB, [])
                  end
              | Throw buf => (Throw (with_slots this buf), [])
              | UB => (UB, [])
              end
          | Throw (lo, hi) => (Throw (with_slots this (lo ++ hi)), [])
          | UB => (UB, [])
          end
      | Throw _ => (Throw this, [])
      | UB => (UB, [])
      end
  else
    let new_data_ := RawMemory_new (if size =? 0 then 1 else size * 2) in
    match construct a (slots this) with
    | Ok _ x =>
        match construct_at (buffer_ new_data_) index x with
        | Some nb =>
            match CopyOrMoveNElem (slots this) 0 index nb 0 with
            | Ok (old1, nb1) _ =>
                match CopyOrMoveNElem old1 index (size - index) nb1 (index + 1) with
                | Ok (old2, nb2) _ =>
                    match destroy_n old2 0 size with
                    | Some old3 =>
                        let (d, nd) :=
                          RawMemory_Swap (with_buffer (data_ this) old3)
                            (with_buffer new_data_ nb2) in
                        (Ok {| data_ := d; size_ := size + 1 |} index, [nd])
                    | None => (UB, [])
                    end
                | Throw (old2, nb2) =>
                    match destroy_n nb2 0 (index + 1) with
                    | Some nb3 =>
                        (Throw (with_slots this old2), [with_buffer new_data_ nb3])
                    | None => (UB, [])
                    end
                | UB => (UB, [])
                end
            | Throw (old1, nb1) =>
                match Destroy nb1 index with
                | Some nb2 =>
                    (Throw (with_slots this old1), [with_buffer new_data_ nb2])
                | None => (UB, [])
                end
            | UB => (UB, [])
            end
        | None => (UB, [])
        end
    | Throw _ => (Throw this, [new_data_])
    | UB => (UB, [])
    end.

(** [Vector::EmplaceBack(args...)]: [*Emplace(cend(), args...)]. *)
Definition EmplaceBack (this : Vector) (a : arg) : result nat :=
  Emplace this (size_ this) a.

(** The result of a call without its return value. *)
Definition discard {R : Type} (r : result R) : result unit :=
  match r with
  | (Ok this' _, rel) => (Ok this' tt, rel)
  | (Throw this', rel) => (Throw this', rel)
  | (UB, rel) => (UB, rel)
  end.

(** [Vector::PushBack(const T&)] and [Vector::PushBack(T&&)], by the kind of
    argument. *)
Definition PushBack (this : Vector) (a : arg) : result unit :=
  discard (EmplaceBack this a).

(** [Vector::Insert(pos, const T&)] and [Vector::Insert(pos, T&&)], by the
    kind of argument. *)
Definition Insert (this : Vector) (index : nat) (a : arg) : result nat :=
  Emplace this index a.

(** [Vector::Erase(begin() + index)]; returns the offset of the returned
    iterator. *)
Definition Erase (this : Vector) (index : nat) : result nat :=
  if negb (index <? size_ this) then (UB, [])
  else
    match std_move (slots this) (index + 1) (size_ this - (index + 1)) index with
    | Ok buf _ =>
        match Destroy buf (size_ this - 1) with
        | Some buf' =>
            (Ok {| data_ := with_buffer (data_ this) buf'; size_ := size_ this - 1 |}
                index, [])
        | None => (UB, [])
        end
    | Throw buf => (Throw (with_slots this buf), [])
    | UB => (UB, [])
    end.

(** ** Abstract states *)

(** The vector whose storage holds the live objects [xs] followed by the
    slots [rest]. *)
Definition wvec (xs : list T) (rest : buffer) : Vector :=
  {| data_ := {| buffer_ := (Some <$> xs) ++ rest;
                 capacity_ := length xs + length rest |};
     size_ := length xs |}.

(** The vector that holds the elements [xs] in storage of capacity [cap]:
    [length xs] live objects followed by raw slots. *)
Definition vec (xs : list T) (cap : nat) : Vector :=
  {| data_ := {| buffer_ := (Some <$> xs) ++ replicate (cap - length xs) None;
                 capacity_ := cap |};
     size_ := length xs |}.

(** The invariant of the class: the storage has [capacity] slots, [size_] is
    at most the capacity, and every slot in [0 .. size_) holds a live object
    (the live objects among these slots are [size_] many). *)
Definition wf (this : Vector) : Prop :=
  length (slots this) = Capacity this
  /\ size_ this <= Capacity this
  /\ length (contents this) = size_ this.

(** The part of the invariant that relates the two counters. *)
Definition size_le_capacity (this : Vector) : Prop :=
  size_ this <= Capacity this.

(** The storage of a vector as it is released once its elements have been
    destroyed: the slots [0 .. size_) are raw, the others are as they were. *)
Definition emptied (this : Vector) : RawMemory :=
  {| buffer_ := replicate (size_ this) None ++ drop (size_ this) (slots this);
     capacity_ := Capacity this |}.

(** No object lives in the slots [size_ .. capacity). *)
Definition clean (this : Vector) : Prop :=
  drop (size_ this) (slots this) = replicate (Capacity this - size_ this) None.

(** The objects that [n] value initialisations yield when the call has
    value-initialised [k] objects already; [None] when one of them throws. *)
Fixpoint value_inits (k n : nat) : option (list T) :=
  match n with
  | 0 => Some []
  | S n' =>
      match value_init k, value_inits (S k) n' with
      | Some x, Some xs => Some (x :: xs)
      | _, _ => None
      end
  end.

(** How many of these [n] value initialisations succeed before the first
    one that throws. *)
Fixpoint value_inits_done (k n : nat) : nat :=
  match n with
  | 0 => 0
  | S n' =>
      match value_init k with
      | Some _ => S (value_inits_done (S k) n')
      | None => 0
      end
  end.

(** What an attempted move of a run of objects leaves in the source: the
    objects before the first one whose move throws are moved-from. *)
Fixpoint move_residue (xs : list T) : list T :=
  match xs with
  | [] => []
  | x :: xs' => if move_throws x then x :: xs' else moved_from x :: move_residue xs'
  end.

(** Relocation is by move exactly when this holds. *)
Definition relocates_by_move : bool :=
  is_nothrow_move_constructible || negb is_copy_constructible.

(** The constructor that relocation uses throws on this source. *)
Definition reloc_throws : T -> bool :=
  if relocates_by_move then move_throws else copy_throws.

(** What an attempted relocation of a run of objects leaves in the source. *)
Definition reloc_residue (xs : list T) : list T :=
  if relocates_by_move then move_residue xs else xs.

(** The ways [Emplace] can throw: the constructor of the new element throws,
    a constructor that relocates an element throws, a move assignment that
    shifts an element throws, or the move assignment that places the new
    element throws. *)
Definition emplace_throws (a : arg) (this : Vector) : Prop :=
  construct a (slots this) = Throw tt
  \/ existsb reloc_throws (contents this) = true
  \/ existsb move_assign_throws (contents this) = true
  \/ exists x, construct a (slots this) = Ok tt x /\ move_assign_throws x = true.

(** ** Calls on a vector *)

(** The argument refers to a live element when it refers into the vector. *)
Definition arg_ok (a : arg) (this : Vector) : Prop :=
  match a with
  | ByCopyOwn j => j < size_ this
  | _ => True
  end.

(** The right-hand side of an assignment is a vector that satisfies the
    invariant of the class. *)
Definition rhs_ok (r : rhs) : Prop :=
  match r with
  | Self => True
  | Other other => wf other
  end.

(** The ways to construct a vector. *)
Inductive ctor : Type :=
| New_default
| New_sized (size : nat)
| New_copy (other : Vector)
| New_move (other : Vector).

(** The constructed vector, when construction succeeds. *)
Definition build (k : ctor) : outcome unit Vector :=
  match k with
  | New_default => Ok tt Vector_default
  | New_sized size => fst (Vector_sized size)
  | New_copy other => fst (Vector_copy other)
  | New_move other => Ok tt (fst (Vector_move other))
  end.

(** The source of a copy or move construction satisfies the invariant. *)
Definition ctor_ok (k : ctor) : Prop :=
  match k with
  | New_copy other | New_move other => wf other
  | _ => True
  end.

(** The public member functions that modify a vector, with their arguments. *)
Inductive call : Type :=
| Call_copy_assign (r : rhs)
| Call_move_assign (r : rhs)
| Call_Resize (new_size : nat)
| Call_EmplaceBack (a : arg)
| Call_PushBack (a : arg)
| Call_PopBack
| Call_Emplace (index : nat) (a : arg)
| Call_Insert (index : nat) (a : arg)
| Call_Erase (index : nat)
| Call_Swap (other : Vector)
| Call_Reserve (new_capacity : nat).

(** The outcome of a call for [*this]. *)
Definition run (c : call) (this : Vector) : outcome Vector unit :=
  match c with
  | Call_copy_assign r => fst (copy_assign this r)
  | Call_move_assign r => Ok (fst (move_assign this r)) tt
  | Call_Resize new_size => fst (Resize this new_size)
  | Call_EmplaceBack a => fst (discard (EmplaceBack this a))
  | Call_PushBack a => fst (PushBack this a)
  | Call_PopBack => fst (PopBack this)
  | Call_Emplace index a => fst (discard (Emplace this index a))
  | Call_Insert index a => fst (discard (Insert this index a))
  | Call_Erase index => fst (discard (Erase this index))
  | Call_Swap other => Ok (fst (Swap this other)) tt
  | Call_Reserve new_capacity => fst (Reserve this new_capacity)
  end.

(** The preconditions of a call: positions are in range, references point to
    live elements, and the other vector of the call satisfies the invariant. *)
Definition admissible (c : call) (this : Vector) : Prop :=
  match c with
  | Call_copy_assign r | Call_move_assign r => rhs_ok r
  | Call_EmplaceBack a | Call_PushBack a => arg_ok a this
  | Call_Emplace index a | Call_Insert index a => index <= size_ this /\ arg_ok a this
  | Call_Erase index => index < size_ this
  | Call_Swap other => wf other
  | Call_Resize _ | Call_PopBack | Call_Reserve _ => True
  end.

(** One step of a sequence of [PushBack] and [PopBack] calls. *)
Inductive step : Type :=
| Push (a : arg)
| Pop.

(** A sequence of [PushBack] and [PopBack] calls, stopped by the first call
    that does not return. *)
Fixpoint run_steps (this : Vector) (steps : list step) : outcome Vector unit :=
  match steps with
  | [] => Ok this tt
  | s :: rest =>
      match (match s with
             | Push a => fst (PushBack this a)
             | Pop => fst (PopBack this)
             end) with
      | Ok this' _ => run_steps this' rest
      | Throw this' => Throw this'
      | UB => UB
      end
  end.

(** The number of [PushBack] calls and of [PopBack] calls in a sequence. *)
Fixpoint pushes (steps : list step) : nat :=
  match steps with
  | [] => 0
  | Push _ :: rest => S (pushes rest)
  | Pop :: rest => pushes rest
  end.

Fixpoint pops (steps : list step) : nat :=
  match steps with
  | [] => 0
  | Push _ :: rest => pops rest
  | Pop :: rest => S (pops rest)
  end.

(** The count that goes up by one at each [PushBack] and down by one at each
    [PopBack] unless it is 0, starting from [n]. *)
Fixpoint running_size (n : nat) (steps : list step) : nat :=
  match steps with
  | [] => n
  | Push _ :: rest => running_size (n + 1) rest
  | Pop :: rest => running_size (n - 1) rest
  end.

(** The capacity that repeated doubling from 0 reaches for [n] elements: 0
    for no element, else the least power of two that is at least [n]. *)
Definition doubled_capacity (n : nat) : nat :=
  if n =? 0 then 0 else 2 ^ Nat.log2_up n.

(** ** Addresses and element access *)

(** [RawMemory::operator+(offset)]: the address of the slot at [offset], as
    an offset; the address one past the last slot may be taken (the assertion
    [offset <= capacity_]). *)
Definition RawMemory_plus (m : RawMemory) (offset : nat) : option nat :=
  if offset <=? capacity_ m then Some offset else None.

(** [RawMemory::operator[](index)]: the object in the slot at [index] (the
    assertion [index < capacity_]). *)
Definition RawMemory_at (m : RawMemory) (index : nat) : option T :=
  if index <? capacity_ m then read (buffer_ m) index else None.

(** [Vector::operator[](index)] with both assertions: [index < size_], then
    [data_[index]]. *)
Definition Vector_at (this : Vector) (index : nat) : option T :=
  if index <? size_ this then RawMemory_at (data_ this) index else None.

(** ** Released storage *)

(** The [RawMemory] objects destroyed during a call. *)
Definition released (c : call) (this : Vector) : list RawMemory :=
  match c with
  | Call_copy_assign r => snd (copy_assign this r)
  | Call_move_assign _ => []
  | Call_Resize new_size => snd (Resize this new_size)
  | Call_EmplaceBack a => snd (EmplaceBack this a)
  | Call_PushBack a => snd (PushBack this a)
  | Call_PopBack => snd (PopBack this)
  | Call_Emplace index a => snd (Emplace this index a)
  | Call_Insert index a => snd (Insert this index a)
  | Call_Erase index => snd (Erase this index)
  | Call_Swap _ => []
  | Call_Reserve new_capacity => snd (Reserve this new_capacity)
  end.

(** The [RawMemory] objects destroyed during a sequence of [PushBack] and
    [PopBack] calls. *)
Fixpoint steps_released (this : Vector) (steps : list step) : list RawMemory :=
  match steps with
  | [] => []
  | s :: rest =>
      let r := match s with
               | Push a => PushBack this a
               | Pop => PopBack this
               end in
      snd r ++ match fst r with
               | Ok this' _ => steps_released this' rest
               | _ => []
               end
  end.

(** No object lives in the storage. *)
Definition raw (m : RawMemory) : Prop :=
  buffer_ m = replicate (capacity_ m) None.

(** The other vector of a swap or a move assignment has no object beyond its
    size. *)
Definition partner_clean (c : call) : Prop :=
  match c with
  | Call_Swap other | Call_move_assign (Other other) => clean other
  | _ => True
  end.

(** The slots [first .. first + n) of a buffer made raw. *)
Definition raw_range (buf : buffer) (first n : nat) : buffer :=
  take first buf ++ replicate n None ++ drop (first + n) buf.

End Vector.

Arguments RawMemory T : clear implicits.
Arguments Vector T : clear implicits.
Arguments rhs T : clear implicits.
Arguments arg T : clear implicits.
Arguments result T R : clear implicits.
Arguments ctor T : clear implicits.
Arguments call T : clear implicits.
Arguments step T : clear implicits.

(** ** Allocation requests *)

(** The largest value of [size_t], taken to be 64 bits wide. *)
Definition SIZE_MAX : N := 2 ^ 64 - 1.

Section Requests.

Context {T : Type} `{Sized T}.

(** The argument of [operator new] in [RawMemory::Allocate(n)]: the product
    [n * sizeof(T)] as [size_t] arithmetic computes it. *)
Definition requested_bytes (n : nat) : N :=
  ((N.of_nat n * sizeof) mod (SIZE_MAX + 1))%N.

(** [RawMemory::Allocate(n)] with that byte count: the slots the block has
    room for. *)
Definition Allocate_size_t (n : nat) : list (option T) :=
  replicate (N.to_nat (requested_bytes n / sizeof)) None.

(** The request is for [n] objects: the product does not wrap around. *)
Definition fits (n : nat) : bool := (N.of_nat n * sizeof <=? SIZE_MAX)%N.

(** The storage that a constructor requests is for the number of objects
    it is given. *)
Definition ctor_fits (k : ctor T) : bool :=
  match k with
  | New_sized size => fits size
  | _ => true
  end.

(** The storage that a call requests for a number of slots taken from its
    caller is for that number of slots. *)
Definition call_fits (c : call T) : bool :=
  match c with
  | Call_Resize new_size => fits new_size
  | Call_Reserve new_capacity => fits new_capacity
  | _ => true
  end.

End Requests.

Arguments requested_bytes T {_} n.
Arguments fits T {_} n.

(** ** Sample vectors *)

(** A vector of numbers that holds 1, 2, 3 in storage of capacity 4. *)
Definition nats_123 : Vector nat := vec [1; 2; 3] 4.

(** A full vector of numbers that holds 1, 2, 3, 4. *)
Definition nats_1234 : Vector nat := vec [1; 2; 3; 4] 4.


(** A full vector of two fragile values, the second of which cannot be
    copied. *)
Definition fragiles : Vector Fragile := vec [fragile 1; fragile 13] 2.

(** Five [PushBack(const T&)] calls followed by nothing else. *)
Definition five_pushes : list (step nat) :=
  Push <$> [ByCopy 1; ByCopy 2; ByCopy 3; ByCopy 4; ByCopy 5].

(** A [PopBack] on the empty vector followed by one [PushBack]. *)
Definition pop_then_push : list (step nat) := [Pop; Push (ByCopy 5)].

(** A vector of three pinned values with room for one more; the second
    cannot be assigned from. *)
Definition pinneds : Vector Pinned := vec [pinned 1; pinned 13; pinned 2] 4.

(** Arguments of three [PushBack(const T&)] calls, the last one a reference
    to the first element of the vector itself. *)
Definition three_more : list (arg nat) := [ByCopy 4; ByCopy 5; ByCopyOwn 0].

(** A vector of one fragile value in storage of one slot. *)
Definition one_fragile : Vector Fragile := vec [fragile 1] 1.

(** A vector of one rationed value in storage of two slots. *)
Definition one_rationed : Vector Rationed := vec [rationed 5] 2.

(** * Verification *)

(** Normal form of list expressions built from [++], [<$>] and [length]. *)
Ltac list_norm :=
  repeat progress
    (rewrite ?fmap_app, ?fmap_cons, <- ?app_assoc, ?length_app, ?length_fmap,
       ?length_replicate, ?length_take, ?length_drop; simpl).

(** Splits an equation between results, vectors or storage owners into
    equations between their fields, and closes the numeric ones. *)
Ltac fields :=
  lazymatch goal with
  | |- (_, _) = (_, _) => f_equal; fields
  | |- Ok _ _ = Ok _ _ => f_equal; fields
  | |- Throw _ = Throw _ => f_equal; fields
  | |- {| data_ := _; size_ := _ |} = {| data_ := _; size_ := _ |} =>
      f_equal; fields
  | |- {| buffer_ := _; capacity_ := _ |} = {| buffer_ := _; capacity_ := _ |} =>
      f_equal; fields
  | |- @eq (list (RawMemory _)) [_] [_] => f_equal; fields
  | |- @eq nat _ _ => lia
  | |- _ => try done
  end.

(** ** Slots *)

Section SlotFacts.

Context {T : Type} `{Element T}.

Abbreviation buffer := (list (option T)).

Implicit Types (buf pre post : buffer) (xs ys zs : list T) (x y z : T).

Lemma insert_middle {A : Type} (l1 : list A) (s y : A) (l2 : list A) (i : nat) :
  i = length l1 -> <[i := y]> (l1 ++ s :: l2) = l1 ++ y :: l2.
Proof.
  intros ->. rewrite insert_app_r_alt by lia. by rewrite Nat.sub_diag.
Qed.

Lemma app_cons_assoc {A : Type} (l1 : list A) (s : A) (l2 : list A) :
  l1 ++ s :: l2 = (l1 ++ [s]) ++ l2.
Proof. by rewrite <- app_assoc. Qed.

Lemma length_snoc {A : Type} (l : list A) (s : A) : length (l ++ [s]) = S (length l).
Proof. rewrite length_app. simpl. lia. Qed.

Lemma read_middle pre x post i :
  i = length pre -> read (pre ++ Some x :: post) i = Some x.
Proof. intros ->. unfold read. by rewrite list_lookup_middle. Qed.

Lemma read_raw pre post i :
  i = length pre -> read (pre ++ None :: post) i = None.
Proof. intros ->. unfold read. by rewrite list_lookup_middle. Qed.

Lemma read_Some_lookup buf i x : read buf i = Some x <-> buf !! i = Some (Some x).
Proof.
  unfold read. destruct (buf !! i) as [[?|]|]; split; congruence.
Qed.

Lemma construct_at_middle pre s post i x :
  i = length pre -> construct_at (pre ++ s :: post) i x = Some (pre ++ Some x :: post).
Proof.
  intros ->. unfold construct_at. rewrite list_lookup_middle by done.
  by rewrite insert_middle.
Qed.

Lemma Destroy_middle pre x post i :
  i = length pre -> Destroy (pre ++ Some x :: post) i = Some (pre ++ None :: post).
Proof.
  intros ->. unfold Destroy. rewrite read_middle by done. by rewrite insert_middle.
Qed.

(** Destroying a run of live objects leaves raw slots. *)
Lemma destroy_n_live xs : forall pre post first,
  first = length pre ->
  destroy_n (pre ++ (Some <$> xs) ++ post) first (length xs)
  = Some (pre ++ replicate (length xs) None ++ post).
Proof.
  induction xs as [|x xs IH]; intros pre post first ->; simpl; [done|].
  rewrite Destroy_middle by done.
  rewrite app_cons_assoc, (IH (pre ++ [None])) by (by rewrite length_snoc).
  by rewrite <- app_assoc.
Qed.

Lemma destroy_n_front xs post :
  destroy_n ((Some <$> xs) ++ post) 0 (length xs)
  = Some (replicate (length xs) None ++ post).
Proof. exact (destroy_n_live xs [] post 0 eq_refl). Qed.

(** *** Construction in raw storage *)

(** Copying a run of live objects into raw slots either constructs them all
    or, when a copy constructor throws, leaves the destination as it was. *)
Lemma uninitialized_copy_n_raw xs : forall spre spost dpre dpost first d_first,
  first = length spre -> d_first = length dpre ->
  uninitialized_copy_n (spre ++ (Some <$> xs) ++ spost) first (length xs)
    (dpre ++ replicate (length xs) None ++ dpost) d_first
  = if existsb copy_throws xs
    then Throw (dpre ++ replicate (length xs) None ++ dpost)
    else Ok (dpre ++ (Some <$> xs) ++ dpost) tt.
Proof.
  induction xs as [|x xs IH]; intros spre spost dpre dpost first d_first -> ->;
    simpl; [done|].
  rewrite read_middle by done.
  destruct (copy_throws x); simpl; [done|].
  rewrite construct_at_middle by done.
  rewrite (app_cons_assoc spre), (app_cons_assoc dpre).
  rewrite (IH (spre ++ [Some x]) spost (dpre ++ [Some x]) dpost)
    by (by rewrite length_snoc).
  destruct (existsb copy_throws xs).
  - rewrite <- (app_assoc dpre). simpl. by rewrite Destroy_middle.
  - by rewrite <- (app_assoc dpre).
Qed.

Lemma length_move_residue xs : length (move_residue xs) = length xs.
Proof.
  induction xs as [|x xs IH]; simpl; [done|].
  destruct (move_throws x); simpl; congruence.
Qed.

Lemma move_residue_nothrow xs :
  existsb move_throws xs = false -> move_residue xs = moved_from <$> xs.
Proof.
  induction xs as [|x xs IH]; simpl; [done|].
  destruct (move_throws x); simpl; [done|]. intros Hx. by rewrite IH.
Qed.

Lemma uninitialized_move_n_raw xs : forall spre spost dpre dpost first d_first,
  first = length spre -> d_first = length dpre ->
  uninitialized_move_n (spre ++ (Some <$> xs) ++ spost) first (length xs)
    (dpre ++ replicate (length xs) None ++ dpost) d_first
  = if existsb move_throws xs
    then Throw (spre ++ (Some <$> move_residue xs) ++ spost,
                dpre ++ replicate (length xs) None ++ dpost)
    else Ok (spre ++ (Some <$> move_residue xs) ++ spost,
             dpre ++ (Some <$> xs) ++ dpost) tt.
Proof.
  induction xs as [|x xs IH]; intros spre spost dpre dpost first d_first -> ->;
    simpl; [done|].
  rewrite read_middle by done.
  destruct (move_throws x); simpl; [done|].
  rewrite construct_at_middle, insert_middle by done.
  rewrite (app_cons_assoc spre), (app_cons_assoc dpre).
  rewrite (IH (spre ++ [Some (moved_from x)]) spost (dpre ++ [Some x]) dpost)
    by (by rewrite length_snoc).
  destruct (existsb move_throws xs).
  - rewrite <- (app_assoc dpre), <- (app_assoc spre). simpl.
    by rewrite Destroy_middle.
  - by rewrite <- (app_assoc dpre), <- (app_assoc spre).
Qed.

Lemma length_reloc_residue xs : length (reloc_residue xs) = length xs.
Proof.
  unfold reloc_residue. destruct relocates_by_move; [apply length_move_residue|done].
Qed.

Lemma CopyOrMoveNElem_raw xs spre spost dpre dpost first d_first :
  first = length spre -> d_first = length dpre ->
  CopyOrMoveNElem (spre ++ (Some <$> xs) ++ spost) first (length xs)
    (dpre ++ replicate (length xs) None ++ dpost) d_first
  = if existsb reloc_throws xs
    then Throw (spre ++ (Some <$> reloc_residue xs) ++ spost,
                dpre ++ replicate (length xs) None ++ dpost)
    else Ok (spre ++ (Some <$> reloc_residue xs) ++ spost,
             dpre ++ (Some <$> xs) ++ dpost) tt.
Proof.
  intros Hf Hd. unfold CopyOrMoveNElem, reloc_throws, reloc_residue, relocates_by_move.
  destruct (is_nothrow_move_constructible || negb is_copy_constructible).
  - by apply uninitialized_move_n_raw.
  - rewrite uninitialized_copy_n_raw by done.
    by destruct (existsb copy_throws xs).
Qed.

(** A relocation that can throw is a relocation by copy, or by the move
    constructor of a type that has no copy constructor. *)
Lemma reloc_throws_cases xs :
  existsb reloc_throws xs = true ->
  (relocates_by_move = false /\ reloc_residue xs = xs)
  \/ (is_copy_constructible = false /\ is_nothrow_move_constructible = false).
Proof.
  unfold reloc_throws, reloc_residue, relocates_by_move.
  destruct is_nothrow_move_constructible eqn:Hn; simpl.
  - intros Hex. exfalso.
    assert (Hno : existsb move_throws xs = false).
    { clear Hex. induction xs as [|x xs IH]; simpl; [done|].
      by rewrite nothrow_move_sound. }
    congruence.
  - destruct is_copy_constructible; simpl; auto.
Qed.

(** Value construction over any run of slots. *)
Lemma length_value_inits n : forall k ds,
  value_inits k n = Some ds -> length ds = n.
Proof.
  induction n as [|n IH]; intros k ds; simpl.
  - by intros [= <-].
  - destruct (value_init k) as [x|]; [|done].
    destruct (value_inits (S k) n) as [xs|] eqn:Hxs; [|done].
    intros [= <-]. simpl. f_equal. by apply (IH (S k)).
Qed.

Lemma value_inits_done_le n : forall k, value_inits_done k n <= n.
Proof.
  induction n as [|n IH]; intros k; simpl; [done|].
  destruct (value_init k); [|lia]. specialize (IH (S k)). lia.
Qed.

(** Value initialisation of a run of slots either constructs them all or,
    when a constructor throws, leaves raw the slots it had reached and the
    others as they were. *)
Lemma uninitialized_value_construct_from_any (mid : buffer) :
  forall k pre post first,
  first = length pre ->
  uninitialized_value_construct_from k (pre ++ mid ++ post) first (length mid)
  = match value_inits k (length mid) with
    | Some ds => Ok (pre ++ (Some <$> ds) ++ post) tt
    | None =>
        Throw (pre ++ replicate (value_inits_done k (length mid)) None
                 ++ drop (value_inits_done k (length mid)) mid ++ post)
    end.
Proof.
  induction mid as [|s mid IH]; intros k pre post first ->; simpl; [done|].
  destruct (value_init k) as [x|] eqn:Hv; [|done].
  rewrite construct_at_middle by done.
  rewrite (app_cons_assoc pre), (IH (S k) (pre ++ [Some x]))
    by (by rewrite length_snoc).
  destruct (value_inits (S k) (length mid)) as [ds|].
  - by rewrite <- (app_assoc pre).
  - rewrite <- (app_assoc pre). simpl. by rewrite Destroy_middle.
Qed.

Lemma uninitialized_value_construct_n_any (mid : buffer) pre post first :
  first = length pre ->
  uninitialized_value_construct_n (pre ++ mid ++ post) first (length mid)
  = match value_inits 0 (length mid) with
    | Some ds => Ok (pre ++ (Some <$> ds) ++ post) tt
    | None =>
        Throw (pre ++ replicate (value_inits_done 0 (length mid)) None
                 ++ drop (value_inits_done 0 (length mid)) mid ++ post)
    end.
Proof. apply uninitialized_value_construct_from_any. Qed.

(** Copying a run of live objects over any run of slots: on success the
    destination run holds the copies; when a copy constructor throws, the
    destination keeps its length. *)
Lemma uninitialized_copy_n_any xs : forall (mid : buffer) spre spost dpre dpost
    first d_first,
  length mid = length xs -> first = length spre -> d_first = length dpre ->
  match uninitialized_copy_n (spre ++ (Some <$> xs) ++ spost) first (length xs)
          (dpre ++ mid ++ dpost) d_first with
  | Ok d _ => existsb copy_throws xs = false /\ d = dpre ++ (Some <$> xs) ++ dpost
  | Throw d =>
      existsb copy_throws xs = true
      /\ exists mid' : buffer, length mid' = length xs /\ d = dpre ++ mid' ++ dpost
  | UB => False
  end.
Proof.
  induction xs as [|x xs IH]; intros [|s mid] spre spost dpre dpost first d_first
    Hlen -> ->; simpl in *; try done.
  rewrite read_middle by done.
  destruct (copy_throws x); simpl.
  { split; [done|]. exists (s :: mid). split; [simpl; lia|done]. }
  rewrite construct_at_middle by done.
  rewrite (app_cons_assoc spre), (app_cons_assoc dpre).
  specialize (IH mid (spre ++ [Some x]) spost (dpre ++ [Some x]) dpost
                (S (length spre)) (S (length dpre))).
  destruct (uninitialized_copy_n _ _ _ _ _) as [d []|d|].
  - destruct IH as [Hno ->]; [rewrite ?length_snoc; lia..|].
    split; [done|]. by rewrite <- app_assoc.
  - destruct IH as [Hex [mid' [Hmid' ->]]]; [rewrite ?length_snoc; lia..|].
    rewrite <- app_assoc. simpl. rewrite Destroy_middle by done.
    split; [done|]. exists (None :: mid'). split; [simpl; lia|done].
  - apply IH; rewrite ?length_snoc; lia.
Qed.

(** Relocation of one live object into any slot. *)
Lemma CopyOrMoveNElem_one (spre : buffer) l (spost dpre : buffer) (s : option T)
    (dpost : buffer) first d_first :
  first = length spre -> d_first = length dpre ->
  CopyOrMoveNElem (spre ++ Some l :: spost) first 1 (dpre ++ s :: dpost) d_first
  = if reloc_throws l then Throw (spre ++ Some l :: spost, dpre ++ s :: dpost)
    else Ok (spre ++ (Some <$> reloc_residue [l]) ++ spost, dpre ++ Some l :: dpost) tt.
Proof.
  intros -> ->. unfold CopyOrMoveNElem, reloc_throws, reloc_residue, relocates_by_move.
  destruct (is_nothrow_move_constructible || negb is_copy_constructible); simpl.
  - rewrite read_middle by done. destruct (move_throws l); [done|].
    by rewrite construct_at_middle, insert_middle.
  - rewrite read_middle by done. destruct (copy_throws l); [done|].
    by rewrite construct_at_middle.
Qed.

(** *** Assignment over live objects *)

Lemma copy_assign_at_middle pre y post i x :
  i = length pre ->
  copy_assign_at (pre ++ Some y :: post) i x
  = if copy_assign_throws x then Throw (pre ++ Some y :: post)
    else Ok (pre ++ Some x :: post) tt.
Proof.
  intros Hi. unfold copy_assign_at. rewrite read_middle by done.
  by rewrite insert_middle.
Qed.

Lemma move_assign_at_middle pre y post i x :
  i = length pre ->
  move_assign_at (pre ++ Some y :: post) i x
  = if move_assign_throws x then Throw (pre ++ Some y :: post)
    else Ok (pre ++ Some x :: post) tt.
Proof.
  intros Hi. unfold move_assign_at. rewrite read_middle by done.
  by rewrite insert_middle.
Qed.

(** Move assignment from a slot to the slot before it. *)
Lemma move_assign_within_down pre y x post s d :
  d = length pre -> s = S (length pre) ->
  move_assign_within (pre ++ Some y :: Some x :: post) s d
  = if move_assign_throws x then Throw (pre ++ Some y :: Some x :: post)
    else Ok (pre ++ Some x :: Some (moved_from x) :: post) tt.
Proof.
  intros -> ->. unfold move_assign_within.
  rewrite (app_cons_assoc pre (Some y)), read_middle by (by rewrite length_snoc).
  rewrite <- app_assoc. simpl. rewrite read_middle by done.
  destruct (move_assign_throws x); [done|].
  rewrite (app_cons_assoc pre (Some y)), insert_middle by (by rewrite length_snoc).
  rewrite <- app_assoc. simpl. by rewrite insert_middle.
Qed.

(** Move assignment from a slot to the slot after it. *)
Lemma move_assign_within_up pre x y post s d :
  s = length pre -> d = S (length pre) ->
  move_assign_within (pre ++ Some x :: Some y :: post) s d
  = if move_assign_throws x then Throw (pre ++ Some x :: Some y :: post)
    else Ok (pre ++ Some (moved_from x) :: Some x :: post) tt.
Proof.
  intros -> ->. unfold move_assign_within.
  rewrite read_middle by done.
  rewrite (app_cons_assoc pre (Some x)), read_middle by (by rewrite length_snoc).
  destruct (move_assign_throws x); [done|].
  rewrite <- app_assoc. simpl. rewrite insert_middle by done.
  rewrite (app_cons_assoc pre), insert_middle by (by rewrite length_snoc).
  by rewrite <- app_assoc.
Qed.

(** Copy assignment over a run of live objects: on success the destination
    run has the source's values; when an assignment throws, the run still
    consists of live objects. *)
Lemma std_copy_live xs : forall ys spre spost dpre dpost first d_first,
  length ys = length xs -> first = length spre -> d_first = length dpre ->
  match std_copy (spre ++ (Some <$> xs) ++ spost) first (length xs)
          (dpre ++ (Some <$> ys) ++ dpost) d_first with
  | Ok d _ => d = dpre ++ (Some <$> xs) ++ dpost
  | Throw d =>
      existsb copy_assign_throws xs = true
      /\ exists zs, length zs = length xs /\ d = dpre ++ (Some <$> zs) ++ dpost
  | UB => False
  end.
Proof.
  induction xs as [|x xs IH]; intros [|y ys] spre spost dpre dpost first d_first
    Hlen -> ->; simpl in *; try done.
  rewrite read_middle, copy_assign_at_middle by done.
  destruct (copy_assign_throws x); simpl.
  - split; [done|]. exists (y :: ys). split; [simpl; lia|done].
  - rewrite (app_cons_assoc spre), (app_cons_assoc dpre).
    specialize (IH ys (spre ++ [Some x]) spost (dpre ++ [Some x]) dpost
                  (S (length spre)) (S (length dpre))).
    destruct (std_copy _ _ _ _ _) as [d []|d|].
    + rewrite IH by (rewrite ?length_snoc; lia). by rewrite <- app_assoc.
    + destruct IH as [Hex [zs [Hzs ->]]]; [rewrite ?length_snoc; lia..|].
      split; [done|]. exists (x :: zs). split; [simpl; lia|].
      by rewrite <- app_assoc.
    + apply IH; rewrite ?length_snoc; lia.
Qed.

(** Shifting a run of live objects one slot toward the front, over the live
    object before it: the run moves down and its last slot keeps some live
    (moved-from) object. *)
Lemma std_move_shift_left xs : forall pre y post first d_first,
  d_first = length pre -> first = S (length pre) ->
  match std_move (pre ++ Some y :: (Some <$> xs) ++ post) first (length xs) d_first with
  | Ok d _ => exists z, d = pre ++ (Some <$> xs) ++ Some z :: post
  | Throw d =>
      existsb move_assign_throws xs = true
      /\ exists zs, length zs = S (length xs) /\ d = pre ++ (Some <$> zs) ++ post
  | UB => False
  end.
Proof.
  induction xs as [|x xs IH]; intros pre y post first d_first -> ->; simpl.
  - by exists y.
  - rewrite move_assign_within_down by done.
    destruct (move_assign_throws x); simpl.
    + split; [done|]. by exists (y :: x :: xs).
    + rewrite (app_cons_assoc pre).
      specialize (IH (pre ++ [Some x]) (moved_from x) post
                    (S (S (length pre))) (S (length pre))).
      destruct (std_move _ _ _ _) as [d []|d|].
      * destruct IH as [z ->]; [by rewrite length_snoc..|].
        exists z. by rewrite <- app_assoc.
      * destruct IH as [Hex [zs [Hzs ->]]]; [by rewrite length_snoc..|].
        split; [done|]. exists (x :: zs). split; [simpl; lia|].
        by rewrite <- app_assoc.
      * apply IH; by rewrite length_snoc.
Qed.

(** Shifting a run of live objects one slot toward the back, over the live
    object after it: the run moves up and its first slot keeps some live
    (moved-from) object. *)
Lemma std_move_backward_shift_right xs : forall pre y post first d_last,
  first = length pre -> d_last = S (length pre + length xs) ->
  match std_move_backward (pre ++ (Some <$> xs) ++ Some y :: post) first
          (length xs) d_last with
  | Ok d _ => exists z, d = pre ++ Some z :: (Some <$> xs) ++ post
  | Throw d =>
      existsb move_assign_throws xs = true
      /\ exists zs, length zs = S (length xs) /\ d = pre ++ (Some <$> zs) ++ post
  | UB => False
  end.
Proof.
  induction xs as [|x xs IH] using rev_ind; intros pre y post first d_last -> ->.
  - simpl. by exists y.
  - rewrite length_snoc. simpl.
    rewrite fmap_app. simpl. rewrite <- (app_assoc (Some <$> xs)). simpl.
    rewrite (app_assoc pre).
    rewrite move_assign_within_up
      by (rewrite length_app, length_fmap; lia).
    rewrite existsb_app. simpl. rewrite orb_false_r.
    destruct (move_assign_throws x); simpl.
    + split; [apply orb_true_r|]. exists (xs ++ [x; y]).
      split; [rewrite length_app; simpl; lia|].
      rewrite fmap_app, <- !app_assoc. done.
    + rewrite <- (app_assoc pre).
      specialize (IH pre (moved_from x) (Some x :: post) (length pre)
                    (length pre + S (length xs))).
      destruct (std_move_backward _ _ _ _) as [d []|d|].
      * destruct IH as [z ->]; [done|lia|]. exists z.
        by rewrite <- !app_assoc.
      * destruct IH as [Hex [zs [Hzs ->]]]; [done|lia|].
        split; [by rewrite Hex|]. exists (zs ++ [x]).
        split; [rewrite length_snoc; lia|].
        rewrite fmap_app, <- !app_assoc. done.
      * apply IH; [done|lia].
Qed.

Lemma existsb_take_drop (f : T -> bool) xs n :
  existsb f (take n xs) = true \/ existsb f (drop n xs) = true ->
  existsb f xs = true.
Proof.
  rewrite <- (take_drop n xs) at 3. rewrite existsb_app.
  intros [->| ->]; [done|apply orb_true_r].
Qed.

End SlotFacts.

(** ** Vectors *)

Section VectorFacts.

Context {T : Type} `{Element T}.

Abbreviation buffer := (list (option T)).

Implicit Types (this other : Vector T) (xs ys zs pre post : list T) (x y z : T).
Implicit Types (rest : buffer).

Lemma omap_id_Some xs : omap id (Some <$> xs) = xs.
Proof. induction xs as [|x xs IH]; csimpl; [done|]. by rewrite IH. Qed.

Lemma length_omap_id_le (l : buffer) : length (omap id l) <= length l.
Proof. induction l as [|[x|] l IH]; csimpl; lia. Qed.

Lemma omap_id_full (l : buffer) :
  length (omap id l) = length l -> l = Some <$> omap id l.
Proof.
  induction l as [|[x|] l IH]; csimpl; [done| |].
  - intros Hlen. rewrite <- IH by lia. done.
  - pose proof (length_omap_id_le l). lia.
Qed.

Lemma contents_wvec xs rest : contents (wvec xs rest) = xs.
Proof.
  unfold contents, wvec, slots. simpl.
  rewrite take_app_length' by (by rewrite length_fmap). apply omap_id_Some.
Qed.

Lemma wf_wvec xs rest : wf (wvec xs rest).
Proof.
  unfold wf. rewrite contents_wvec. unfold slots, Capacity. simpl.
  rewrite length_app, length_fmap. split_and!; [done|lia|done].
Qed.

Lemma wf_inv this : wf this -> exists xs rest, this = wvec xs rest.
Proof.
  destruct this as [[b c] n]. unfold wf, contents, slots, Capacity. simpl.
  intros (Hlen & Hle & Hlive).
  exists (omap id (take n b)), (drop n b).
  assert (Htake : take n b = Some <$> omap id (take n b)).
  { apply omap_id_full. rewrite Hlive, length_take. lia. }
  unfold wvec. rewrite <- Htake, take_drop, Hlive, length_drop.
  do 2 f_equal. lia.
Qed.

Lemma vec_wvec xs cap :
  length xs <= cap -> vec xs cap = wvec xs (replicate (cap - length xs) None).
Proof.
  intros Hle. unfold vec, wvec. rewrite length_replicate. do 2 f_equal. lia.
Qed.

Lemma wvec_nil xs : wvec xs [] = vec xs (length xs).
Proof. rewrite vec_wvec, Nat.sub_diag by done. done. Qed.

Lemma wf_vec xs cap : length xs <= cap -> wf (vec xs cap).
Proof. intros Hle. rewrite vec_wvec by done. apply wf_wvec. Qed.

Lemma contents_vec xs cap : contents (vec xs cap) = xs.
Proof.
  unfold contents, vec, slots. simpl.
  rewrite take_app_length' by (by rewrite length_fmap). apply omap_id_Some.
Qed.

Lemma clean_vec xs cap : clean (vec xs cap).
Proof.
  unfold clean, vec, slots, Capacity. simpl.
  by rewrite drop_app_length' by (by rewrite length_fmap).
Qed.

Lemma clean_wvec xs rest :
  clean (wvec xs rest) <-> rest = replicate (length rest) None.
Proof.
  unfold clean, wvec, slots, Capacity. simpl.
  rewrite drop_app_length' by (by rewrite length_fmap).
  by replace (length xs + length rest - length xs) with (length rest) by lia.
Qed.

Lemma read_wvec xs rest j :
  j < length xs -> read (slots (wvec xs rest)) j = xs !! j.
Proof.
  intros Hj. unfold slots, wvec, read. simpl.
  rewrite lookup_app_l by (by rewrite length_fmap).
  rewrite list_lookup_fmap. by destruct (xs !! j).
Qed.

Lemma at_index_wvec xs rest k : at_index (wvec xs rest) k = xs !! k.
Proof.
  unfold at_index. change (size_ (wvec xs rest)) with (length xs).
  destruct (Nat.ltb_spec k (length xs)) as [Hlt|Hge].
  - by apply read_wvec.
  - symmetry. by apply lookup_ge_None_2.
Qed.

Lemma slots_wvec_raw_lookup xs rest :
  slots (wvec xs (None :: rest)) !! length xs = Some None.
Proof.
  unfold slots, wvec. simpl. apply list_lookup_middle. by rewrite length_fmap.
Qed.

(** A reference to a live element of the vector yields that element. *)
Lemma construct_own xs rest j :
  j < length xs ->
  exists x, xs !! j = Some x
    /\ construct (ByCopyOwn j) (slots (wvec xs rest))
       = if copy_throws x then Throw tt else Ok tt x.
Proof.
  intros Hj. destruct (lookup_lt_is_Some_2 xs j Hj) as [x Hx]. exists x.
  split; [done|]. simpl. by rewrite read_wvec, Hx.
Qed.

Lemma construct_defined a xs rest :
  arg_ok a (wvec xs rest) -> construct a (slots (wvec xs rest)) <> UB.
Proof.
  destruct a as [[x|]|x|j|x]; try done.
  - simpl. by destruct (copy_throws x).
  - intros Hj. destruct (construct_own xs rest j Hj) as (x & _ & ->).
    by destruct (copy_throws x).
  - simpl. by destruct (move_throws x).
Qed.

(** *** [PopBack] *)

Lemma PopBack_empty this : size_ this = 0 -> PopBack this = (Ok this tt, []).
Proof. intros Hs. unfold PopBack. by rewrite Hs. Qed.

Lemma PopBack_wvec xs x rest :
  PopBack (wvec (xs ++ [x]) rest) = (Ok (wvec xs (None :: rest)) tt, []).
Proof.
  unfold PopBack, wvec, slots. simpl. rewrite length_snoc. simpl.
  rewrite Nat.sub_0_r, fmap_app, <- app_assoc. simpl.
  rewrite Destroy_middle by (by rewrite length_fmap). unfold with_buffer. simpl.
  fields.
Qed.

(** *** [Emplace] *)

(** Insertion at the end when the capacity suffices. *)
Lemma Emplace_end_in_place xs (s : option T) rest a :
  Emplace (wvec xs (s :: rest)) (length xs) a
  = match construct a (slots (wvec xs (s :: rest))) with
    | Ok _ x => (Ok (wvec (xs ++ [x]) rest) (length xs), [])
    | Throw _ => (Throw (wvec xs (s :: rest)), [])
    | UB => (UB, [])
    end.
Proof.
  unfold Emplace.
  change (size_ (wvec xs (s :: rest))) with (length xs).
  change (Capacity (wvec xs (s :: rest))) with (length xs + S (length rest)).
  rewrite (leb_correct (length xs) (length xs)) by done.
  rewrite (leb_correct (length xs + 1) _) by lia.
  rewrite Nat.eqb_refl. simpl negb. cbv iota.
  destruct (construct a _) as [[] x| |]; [|done..].
  unfold slots, wvec. simpl.
  rewrite construct_at_middle by (by rewrite length_fmap).
  unfold with_buffer. simpl. rewrite length_snoc, fmap_app, <- app_assoc. simpl.
  fields.
Qed.

(** Insertion before the end when the capacity suffices. *)
Lemma Emplace_middle_in_place pre mid l (s : option T) rest a :
  match Emplace (wvec (pre ++ mid ++ [l]) (s :: rest)) (length pre) a with
  | (Ok this' it, rel) =>
      exists x,
        construct a (slots (wvec (pre ++ mid ++ [l]) (s :: rest))) = Ok tt x
        /\ this' = wvec (pre ++ x :: mid ++ [l]) rest /\ it = length pre /\ rel = []
  | (Throw this', rel) =>
      rel = []
      /\ (exists zs rest', this' = wvec zs rest'
            /\ length zs = length (pre ++ mid ++ [l])
            /\ length rest' = S (length rest))
      /\ emplace_throws a (wvec (pre ++ mid ++ [l]) (s :: rest))
  | (UB, _) => construct a (slots (wvec (pre ++ mid ++ [l]) (s :: rest))) = UB
  end.
Proof.
  unfold emplace_throws. rewrite contents_wvec.
  set (xs := pre ++ mid ++ [l]) in *. set (this := wvec xs (s :: rest)).
  assert (Hlen : length xs = S (length pre + length mid)).
  { unfold xs. rewrite !length_app. simpl. lia. }
  assert (Hthis : exists zs rest', this = wvec zs rest'
                    /\ length zs = length xs /\ length rest' = S (length rest)).
  { by exists xs, (s :: rest). }
  unfold Emplace.
  change (size_ this) with (length xs).
  change (Capacity this) with (length xs + S (length rest)).
  rewrite (leb_correct (length pre) (length xs)) by lia.
  rewrite (leb_correct (length xs + 1) _) by lia.
  rewrite (proj2 (Nat.eqb_neq (length pre) (length xs))) by lia.
  simpl negb. cbv iota.
  destruct (construct a (slots this)) as [[] x|[]|]; [|by split_and!; auto|done].
  change (slots this) with ((Some <$> xs) ++ s :: rest).
  rewrite take_app_length', drop_app_length' by (by rewrite length_fmap).
  unfold xs at 1.
  rewrite (app_assoc pre mid [l]), (fmap_app Some (pre ++ mid) [l]).
  change (Some <$> [l]) with [Some l].
  pose proof (CopyOrMoveNElem_one (Some <$> (pre ++ mid)) l [] [] s rest
                (length xs - 1) 0) as Hreloc.
  simpl in Hreloc. rewrite Hreloc by (rewrite ?length_fmap, ?length_app; simpl; lia).
  clear Hreloc.
  destruct (reloc_throws l) eqn:Hl.
  { simpl. split_and!; try done.
    - exists xs, (s :: rest). split_and!; try done.
      unfold this, with_slots, with_buffer, wvec, xs. simpl.
      by rewrite !fmap_app, <- !app_assoc.
    - right. left. unfold xs.
      rewrite !existsb_app. simpl. rewrite Hl. by rewrite !orb_true_r. }
  pose proof (length_reloc_residue [l]) as Hr.
  destruct (reloc_residue [l]) as [|r [|? ?]]; try done. clear Hr. simpl.
  rewrite fmap_app, <- !app_assoc. simpl.
  pose proof (std_move_backward_shift_right mid (Some <$> pre) r
                (Some l :: rest) (length pre) (length xs)) as Hshift.
  replace (length xs - 1 - length pre) with (length mid) by lia.
  destruct (std_move_backward _ _ _ _) as [d []|d|].
  - destruct Hshift as [z ->]; [rewrite ?length_fmap; lia..|].
    rewrite move_assign_at_middle by (by rewrite length_fmap).
    destruct (move_assign_throws x) eqn:Hx.
    { split_and!; try done; [|do 3 right; by exists x].
      exists (pre ++ z :: mid), (Some l :: rest). split_and!.
      - unfold this, with_slots, with_buffer, wvec. simpl.
        rewrite fmap_app, <- app_assoc, length_app. simpl. fields.
      - rewrite length_app. simpl. lia.
      - done. }
    exists x. split_and!; try done.
    unfold this, with_buffer, wvec. simpl. list_norm. fields.
  - destruct Hshift as [Hmid (zs & Hzs & ->)]; [rewrite ?length_fmap; lia..|].
    split_and!; try done.
    + exists (pre ++ zs), (Some l :: rest). split_and!.
      * unfold this, with_slots, with_buffer, wvec. simpl.
        rewrite fmap_app, <- app_assoc, length_app. fields.
      * rewrite length_app. lia.
      * done.
    + right. right. left. unfold xs.
      rewrite !existsb_app, Hmid. by rewrite orb_true_r.
  - exfalso. apply Hshift; rewrite ?length_fmap; lia.
Qed.

Lemma replicate_cut {A : Type} (a : A) (n i k : nat) :
  n = i + S k -> replicate n a = replicate i a ++ a :: replicate k a.
Proof. intros ->. by rewrite replicate_add. Qed.

Lemma slots_wvec_nil xs : slots (wvec xs []) = Some <$> xs.
Proof. unfold slots, wvec. simpl. apply app_nil_r. Qed.

Lemma with_slots_wvec xs rest ys rest' :
  length ys = length xs -> length rest' = length rest ->
  with_slots (wvec xs rest) ((Some <$> ys) ++ rest') = wvec ys rest'.
Proof. intros Hys Hrest. unfold with_slots, with_buffer, wvec. simpl. fields. Qed.

Lemma with_slots_wvec_nil xs ys :
  length ys = length xs -> with_slots (wvec xs []) (Some <$> ys) = wvec ys [].
Proof.
  intros Hys. rewrite <- (app_nil_r (Some <$> ys)). by apply with_slots_wvec.
Qed.

(** Insertion when the capacity is exhausted. *)
Lemma Emplace_realloc pre post a :
  Emplace (wvec (pre ++ post) []) (length pre) a
  = let n := length (pre ++ post) in
    let new_cap := if n =? 0 then 1 else n * 2 in
    match construct a (slots (wvec (pre ++ post) [])) with
    | Ok _ x =>
        if existsb reloc_throws pre then
          (Throw (wvec (reloc_residue pre ++ post) []), [RawMemory_new new_cap])
        else if existsb reloc_throws post then
          (Throw (wvec (reloc_residue pre ++ reloc_residue post) []),
           [RawMemory_new new_cap])
        else (Ok (vec (pre ++ x :: post) new_cap) (length pre), [RawMemory_new n])
    | Throw _ => (Throw (wvec (pre ++ post) []), [RawMemory_new new_cap])
    | UB => (UB, [])
    end.
Proof.
  set (xs := pre ++ post).
  assert (Hlen : length xs = length pre + length post) by apply length_app.
  unfold Emplace.
  change (size_ (wvec xs [])) with (length xs).
  change (Capacity (wvec xs [])) with (length xs + 0).
  rewrite (leb_correct (length pre) (length xs)) by lia.
  rewrite (leb_correct_conv (length xs + 0) (length xs + 1)) by lia.
  cbv zeta. simpl negb. cbv iota.
  set (new_cap := if length xs =? 0 then 1 else length xs * 2).
  assert (Hcap : new_cap = length pre + S (length post + (new_cap - S (length xs)))).
  { unfold new_cap. destruct (Nat.eqb_spec (length xs) 0); lia. }
  set (k := new_cap - S (length xs)) in Hcap.
  destruct (construct a (slots (wvec xs []))) as [[] x| |]; [|done..].
  unfold RawMemory_new at 1, Allocate. simpl buffer_.
  rewrite (replicate_cut None new_cap (length pre) (length post + k)) by done.
  rewrite construct_at_middle by (by rewrite length_replicate).
  rewrite slots_wvec_nil. unfold xs at 1. rewrite fmap_app.
  pose proof (CopyOrMoveNElem_raw pre [] (Some <$> post) []
                (Some x :: replicate (length post + k) None) 0 0 eq_refl eq_refl)
    as Hpre.
  simpl in Hpre. rewrite Hpre. clear Hpre.
  destruct (existsb reloc_throws pre).
  { rewrite Destroy_middle by (by rewrite length_replicate).
    rewrite <- fmap_app, with_slots_wvec_nil
      by (rewrite !length_app, length_reloc_residue; lia).
    do 2 f_equal.
    unfold with_buffer, RawMemory_new, Allocate. simpl.
    by rewrite <- (replicate_cut None new_cap (length pre) (length post + k)). }
  pose proof (CopyOrMoveNElem_raw post (Some <$> reloc_residue pre) []
                ((Some <$> pre) ++ [Some x]) (replicate k None)
                (length pre) (length pre + 1)) as Hpost.
  rewrite app_nil_r in Hpost.
  rewrite replicate_add, (app_cons_assoc (Some <$> pre)).
  replace (length xs - length pre) with (length post) by lia.
  rewrite Hpost
    by (rewrite ?length_app, ?length_fmap, ?length_reloc_residue; simpl; lia).
  clear Hpost.
  destruct (existsb reloc_throws post).
  { replace (length pre + 1) with (length (pre ++ [x])) by (rewrite length_snoc; lia).
    change [Some x] with (Some <$> [x]). rewrite <- fmap_app, destroy_n_front.
    rewrite app_nil_r, <- fmap_app, with_slots_wvec_nil
      by (rewrite !length_app, !length_reloc_residue; lia).
    do 2 f_equal.
    unfold with_buffer, RawMemory_new, Allocate. simpl. do 2 f_equal.
    rewrite <- !replicate_add. f_equal. rewrite length_snoc. lia. }
  pose proof (destroy_n_front (reloc_residue pre ++ reloc_residue post) []) as Hd.
  rewrite length_app, !length_reloc_residue, !app_nil_r in Hd.
  rewrite app_nil_r, <- fmap_app, Hlen, Hd. clear Hd.
  unfold RawMemory_Swap, with_buffer, RawMemory_new, Allocate, vec. simpl.
  assert (Hk : new_cap - length (pre ++ x :: post) = k)
    by (rewrite length_app; simpl; lia).
  rewrite Hk. list_norm. fields.
Qed.

(** *** Summary of [Emplace] *)

Lemma split_before_last xs index :
  index < length xs -> exists mid l, drop index xs = mid ++ [l].
Proof.
  intros Hlt.
  assert (Hne : drop index xs <> []).
  { intros Hnil. apply (f_equal length) in Hnil. rewrite length_drop in Hnil.
    simpl in Hnil. lia. }
  destruct (drop index xs) as [|y ys _] using rev_ind; [done|].
  by exists ys, y.
Qed.

Lemma Emplace_wvec xs rest index a :
  index <= length xs ->
  match Emplace (wvec xs rest) index a with
  | (Ok this' it, rel) =>
      exists x,
        construct a (slots (wvec xs rest)) = Ok tt x
        /\ this' = match rest with
                   | _ :: rest' => wvec (take index xs ++ x :: drop index xs) rest'
                   | [] => vec (take index xs ++ x :: drop index xs)
                             (Nat.max 1 (2 * length xs))
                   end
        /\ it = index
        /\ rel = match rest with
                 | _ :: _ => []
                 | [] => [RawMemory_new (length xs)]
                 end
  | (Throw this', rel) =>
      (exists zs rest', this' = wvec zs rest'
         /\ length zs = length xs /\ length rest' = length rest)
      /\ emplace_throws a (wvec xs rest)
  | (UB, _) => construct a (slots (wvec xs rest)) = UB
  end.
Proof.
  intros Hindex.
  assert (Hthis : exists zs rest', wvec xs rest = wvec zs rest'
                    /\ length zs = length xs /\ length rest' = length rest).
  { by exists xs, rest. }
  destruct rest as [|s rest].
  - pose proof (Emplace_realloc (take index xs) (drop index xs) a) as Hr.
    rewrite take_drop, length_take, Nat.min_l in Hr by lia. rewrite Hr. clear Hr.
    cbv zeta. unfold emplace_throws. rewrite contents_wvec.
    destruct (construct a _) as [[] x|[]|]; try done; [|by split_and!; auto].
    destruct (existsb reloc_throws (take index xs)) eqn:Hpre.
    { split.
      - eexists _, []. split_and!; [done| |done].
        rewrite length_app, length_reloc_residue, length_drop, length_take. lia.
      - right. left. apply (existsb_take_drop _ _ index). by left. }
    destruct (existsb reloc_throws (drop index xs)) eqn:Hpost.
    { split.
      - eexists _, []. split_and!; [done| |done].
        rewrite length_app, !length_reloc_residue, length_drop, length_take. lia.
      - right. left. apply (existsb_take_drop _ _ index). by right. }
    exists x. split_and!; try done. f_equal.
    destruct (Nat.eqb_spec (length xs) 0); lia.
  - destruct (decide (index = length xs)) as [->|Hne].
    + rewrite Emplace_end_in_place. unfold emplace_throws.
      destruct (construct a _) as [[] x|[]|]; try done; [|by split_and!; auto].
      exists x. rewrite take_ge, drop_ge by lia. done.
    + destruct (split_before_last xs index) as (mid & l & Hdrop); [lia|].
      assert (Hxs : xs = take index xs ++ mid ++ [l])
        by (by rewrite <- Hdrop, take_drop).
      pose proof (Emplace_middle_in_place (take index xs) mid l s rest a) as Hm.
      rewrite <- Hxs, length_take, Nat.min_l in Hm by lia.
      destruct (Emplace _ index a) as [[this' it|this'|] rel].
      * destruct Hm as (x & Hx & -> & -> & ->). exists x.
        split_and!; try done. by rewrite Hdrop.
      * by destruct Hm as (_ & Hshape & Hcause).
      * done.
Qed.

(** *** [Erase] *)

Lemma Erase_wvec pre x post rest :
  match Erase (wvec (pre ++ x :: post) rest) (length pre) with
  | (Ok this' it, rel) =>
      this' = wvec (pre ++ post) (None :: rest) /\ it = length pre /\ rel = []
  | (Throw this', rel) =>
      existsb move_assign_throws post = true /\ rel = []
      /\ exists zs, length zs = length (pre ++ x :: post) /\ this' = wvec zs rest
  | (UB, _) => False
  end.
Proof.
  set (xs := pre ++ x :: post) in *.
  assert (Hlen : length xs = S (length pre + length post)).
  { unfold xs. rewrite length_app. simpl. lia. }
  unfold Erase. change (size_ (wvec xs rest)) with (length xs).
  rewrite (proj2 (Nat.ltb_lt (length pre) (length xs))) by lia. simpl negb. cbv iota.
  unfold slots, wvec. simpl. unfold xs at 1.
  rewrite fmap_app, fmap_cons, <- app_assoc. simpl.
  replace (length xs - (length pre + 1)) with (length post) by lia.
  pose proof (std_move_shift_left post (Some <$> pre) x rest
                (length pre + 1) (length pre)) as Hshift.
  destruct (std_move _ _ _ _) as [d []|d|].
  - destruct Hshift as [z ->]; [rewrite ?length_fmap; lia..|].
    rewrite (app_assoc (Some <$> pre)), Destroy_middle
      by (rewrite length_app, !length_fmap; lia).
    split_and!; try done. unfold with_buffer. simpl. list_norm. fields.
  - destruct Hshift as [Hex [zs [Hzs ->]]]; [rewrite ?length_fmap; lia..|].
    split_and!; try done. exists (pre ++ zs). split.
    + rewrite length_app. lia.
    + unfold with_slots, with_buffer. simpl. list_norm. fields.
  - apply Hshift; rewrite ?length_fmap; lia.
Qed.

Lemma Erase_wvec_index xs rest index :
  index < length xs ->
  match Erase (wvec xs rest) index with
  | (Ok this' it, rel) =>
      this' = wvec (take index xs ++ drop (S index) xs) (None :: rest)
      /\ it = index /\ rel = []
  | (Throw this', rel) =>
      existsb move_assign_throws (drop (S index) xs) = true
      /\ exists zs, length zs = length xs /\ this' = wvec zs rest
  | (UB, _) => False
  end.
Proof.
  intros Hindex.
  destruct (lookup_lt_is_Some_2 xs index Hindex) as [x Hx].
  pose proof (Erase_wvec (take index xs) x (drop (S index) xs) rest) as He.
  rewrite (take_drop_middle xs index x Hx), length_take, Nat.min_l in He by lia.
  destruct (Erase (wvec xs rest) index) as [[this' it|this'|] rel].
  - done.
  - by destruct He as (Hthrows & _ & Hzs).
  - done.
Qed.

(** *** [Reserve] and [Resize] *)

Lemma emptied_wvec xs rest :
  emptied (wvec xs rest)
  = {| buffer_ := replicate (length xs) None ++ rest;
       capacity_ := length xs + length rest |}.
Proof.
  unfold emptied, slots, Capacity. simpl.
  by rewrite drop_app_length' by (by rewrite length_fmap).
Qed.

Lemma Reserve_wvec xs rest n :
  Reserve (wvec xs rest) n
  = if length xs + length rest <? n then
      if existsb reloc_throws xs
      then (Throw (wvec (reloc_residue xs) rest), [RawMemory_new n])
      else (Ok (vec xs n) tt, [emptied (wvec xs rest)])
    else (Ok (wvec xs rest) tt, []).
Proof.
  rewrite emptied_wvec.
  unfold Reserve. change (Capacity (wvec xs rest)) with (length xs + length rest).
  destruct (Nat.ltb_spec (length xs + length rest) n) as [Hlt|Hge]; [|done].
  change (size_ (wvec xs rest)) with (length xs).
  unfold RawMemory_new at 1, Allocate, slots, wvec. simpl.
  replace n with (length xs + (n - length xs)) at 1 by lia.
  rewrite replicate_add.
  pose proof (CopyOrMoveNElem_raw xs [] rest []
                (replicate (n - length xs) None) 0 0 eq_refl eq_refl) as Hreloc.
  simpl in Hreloc. rewrite Hreloc. clear Hreloc.
  destruct (existsb reloc_throws xs).
  - unfold with_slots, with_buffer, RawMemory_new, Allocate. simpl.
    rewrite length_reloc_residue, <- replicate_add. fields. f_equal. lia.
  - pose proof (destroy_n_front (reloc_residue xs) rest) as Hd.
    rewrite length_reloc_residue in Hd. rewrite Hd. clear Hd.
    unfold RawMemory_Swap, with_buffer, RawMemory_new, Allocate. simpl.
    fields.
Qed.

Lemma raw_prefix_replicate (j m : nat) :
  j <= m ->
  replicate j (@None T) ++ drop j (replicate m None) = replicate m None.
Proof.
  intros Hj. rewrite drop_replicate, <- replicate_add. f_equal. lia.
Qed.

Lemma Resize_wvec xs rest n :
  Resize (wvec xs rest) n
  = if n =? length xs then (Ok (wvec xs rest) tt, [])
    else if n <? length xs
    then (Ok (wvec (take n xs) (replicate (length xs - n) None ++ rest)) tt, [])
    else if length xs + length rest <? n then
      if existsb reloc_throws xs
      then (Throw (wvec (reloc_residue xs) rest), [RawMemory_new n])
      else
        match value_inits 0 (n - length xs) with
        | Some ds => (Ok (vec (xs ++ ds) n) tt, [emptied (wvec xs rest)])
        | None => (Throw (vec xs n), [emptied (wvec xs rest)])
        end
    else
      match value_inits 0 (n - length xs) with
      | Some ds => (Ok (wvec (xs ++ ds) (drop (n - length xs) rest)) tt, [])
      | None =>
          (Throw (wvec xs (replicate (value_inits_done 0 (n - length xs)) None
                             ++ drop (value_inits_done 0 (n - length xs)) rest)),
           [])
      end.
Proof.
  unfold Resize. change (size_ (wvec xs rest)) with (length xs).
  destruct (Nat.eqb_spec n (length xs)) as [Heq|Hne]; [done|].
  destruct (Nat.ltb_spec n (length xs)) as [Hlt|Hge].
  - unfold slots, wvec. simpl.
    rewrite <- (take_drop n xs) at 1. rewrite fmap_app, <- app_assoc.
    pose proof (destroy_n_live (drop n xs) (Some <$> take n xs) rest n) as Hd.
    rewrite length_drop in Hd. rewrite Hd
      by (rewrite length_fmap, length_take; lia).
    clear Hd. unfold with_buffer. simpl.
    rewrite length_take, Nat.min_l, length_app, length_replicate by lia.
    fields.
  - pose proof (value_inits_done_le (n - length xs) 0) as Hdone.
    rewrite Reserve_wvec.
    destruct (Nat.ltb_spec (length xs + length rest) n) as [Hlt|Hcap].
    + destruct (existsb reloc_throws xs); [done|].
      change (size_ (vec xs n)) with (length xs).
      unfold slots, vec. simpl.
      pose proof (uninitialized_value_construct_n_any
                    (replicate (n - length xs) None) (Some <$> xs) []
                    (length xs)) as Hc.
      rewrite length_replicate, !app_nil_r in Hc.
      rewrite Hc by (by rewrite length_fmap). clear Hc.
      destruct (value_inits 0 (n - length xs)) as [ds|] eqn:Hds.
      * apply length_value_inits in Hds.
        unfold with_buffer. simpl.
        rewrite fmap_app, length_app, Hds.
        replace (n - (length xs + (n - length xs))) with 0 by lia. simpl.
        rewrite !app_nil_r. fields.
      * rewrite raw_prefix_replicate by done.
        unfold with_slots, with_buffer. simpl. fields.
    + change (size_ (wvec xs rest)) with (length xs).
      unfold slots, wvec. simpl.
      rewrite <- (take_drop (n - length xs) rest) at 1.
      pose proof (uninitialized_value_construct_n_any
                    (take (n - length xs) rest) (Some <$> xs)
                    (drop (n - length xs) rest) (length xs)) as Hc.
      rewrite length_take, Nat.min_l in Hc by lia.
      rewrite Hc by (by rewrite length_fmap). clear Hc.
      destruct (value_inits 0 (n - length xs)) as [ds|] eqn:Hds.
      * apply length_value_inits in Hds.
        unfold with_buffer. simpl.
        rewrite fmap_app, <- app_assoc, length_app, Hds, length_drop.
        fields.
      * set (j := value_inits_done 0 (n - length xs)) in *.
        assert (Hrest : drop j (take (n - length xs) rest)
                          ++ drop (n - length xs) rest = drop j rest).
        { rewrite <- (take_drop (n - length xs) rest) at 3.
          rewrite drop_app_le by (rewrite length_take; lia). done. }
        unfold with_slots, with_buffer. simpl.
        rewrite Hrest, length_app, length_replicate, length_drop. fields.
Qed.

(** *** Construction, destruction and assignment *)

Lemma Vector_sized_spec n :
  Vector_sized n
  = match value_inits 0 n with
    | Some ds => (Ok tt (vec ds n), [])
    | None => (Throw tt, [RawMemory_new n])
    end.
Proof.
  unfold Vector_sized, RawMemory_new, Allocate. simpl.
  pose proof (uninitialized_value_construct_n_any (replicate n None) [] [] 0 eq_refl)
    as Hc.
  rewrite length_replicate, !app_nil_r in Hc. simpl in Hc. rewrite Hc. clear Hc.
  destruct (value_inits 0 n) as [ds|] eqn:Hds.
  - apply length_value_inits in Hds.
    do 2 f_equal. unfold vec, with_buffer. simpl.
    rewrite Hds, Nat.sub_diag. simpl. by rewrite app_nil_r.
  - by rewrite raw_prefix_replicate by apply value_inits_done_le.
Qed.

Lemma Vector_copy_wvec ys rest :
  Vector_copy (wvec ys rest)
  = if existsb copy_throws ys then (Throw tt, [RawMemory_new (length ys)])
    else (Ok tt (vec ys (length ys)), []).
Proof.
  unfold Vector_copy, RawMemory_new, Allocate, slots. simpl.
  pose proof (uninitialized_copy_n_raw ys [] rest [] [] 0 0 eq_refl eq_refl) as Hc.
  rewrite !app_nil_r in Hc. simpl in Hc. rewrite Hc. clear Hc.
  destruct (existsb copy_throws ys); [done|].
  do 2 f_equal. unfold vec, with_buffer. simpl.
  rewrite Nat.sub_diag. simpl. by rewrite app_nil_r.
Qed.

Lemma Vector_destroy_wvec xs rest :
  Vector_destroy (wvec xs rest) = Some [emptied (wvec xs rest)].
Proof.
  unfold Vector_destroy, slots. simpl. by rewrite destroy_n_front, emptied_wvec.
Qed.

Lemma Swap_wvec xs rest ys rest2 :
  Swap (wvec xs rest) (wvec ys rest2) = (wvec ys rest2, wvec xs rest).
Proof. done. Qed.

(** Copy assignment from another vector: on success the vector holds the
    source's elements, in fresh storage of exactly that many slots when the
    old capacity was too small and in its old storage otherwise. *)
Lemma copy_assign_wvec xs rest ys rest2 :
  match copy_assign (wvec xs rest) (Other (wvec ys rest2)) with
  | (Ok this' _, rel) =>
      if length xs + length rest <? length ys
      then this' = vec ys (length ys) /\ rel = [emptied (wvec xs rest)]
      else
        rel = []
        /\ this' = wvec ys (if length xs <? length ys
                            then drop (length ys - length xs) rest
                            else replicate (length xs - length ys) None ++ rest)
  | (Throw this', rel) =>
      (existsb copy_throws ys = true \/ existsb copy_assign_throws ys = true)
      /\ if length xs + length rest <? length ys
         then this' = wvec xs rest /\ rel = [RawMemory_new (length ys)]
         else rel = []
              /\ exists zs rest', this' = wvec zs rest'
                   /\ length zs = length xs /\ length rest' = length rest
  | (UB, _) => False
  end.
Proof.
  unfold copy_assign.
  change (Capacity (wvec xs rest)) with (length xs + length rest).
  change (size_ (wvec xs rest)) with (length xs).
  change (size_ (wvec ys rest2)) with (length ys).
  destruct (Nat.ltb_spec (length xs + length rest) (length ys)) as [Hlt|Hge].
  { rewrite Vector_copy_wvec.
    destruct (existsb copy_throws ys); [by split; [left|]|].
    rewrite vec_wvec, Swap_wvec, Vector_destroy_wvec by done.
    by rewrite <- vec_wvec by done. }
  remember (Nat.min (length xs) (length ys)) as m eqn:Hmin.
  pose proof (std_copy_live (take m ys) (take m xs) []
                ((Some <$> drop m ys) ++ rest2) []
                ((Some <$> drop m xs) ++ rest) 0 0)
    as Hcopy.
  rewrite !length_take, (Nat.min_l m (length ys)), (Nat.min_l m (length xs))
    in Hcopy by lia.
  simpl in Hcopy.
  rewrite !app_assoc, <- !fmap_app, !take_drop in Hcopy.
  unfold slots at 1 2. simpl.
  destruct (std_copy _ _ _ _ _) as [d []|d|].
  - rewrite Hcopy by (rewrite ?length_take; lia). clear Hcopy.
    destruct (Nat.ltb_spec (length xs) (length ys)) as [Hlt|Hge'].
    + assert (Hm : m = length xs) by lia.
      rewrite drop_ge, app_nil_r by lia.
      pose proof (uninitialized_copy_n_any (drop m ys)
                    (take (length ys - length xs) rest) (Some <$> take m ys) rest2
                    (Some <$> take m ys) (drop (length ys - length xs) rest)
                    (length xs) (length xs)) as Hc.
      rewrite length_drop, app_assoc, <- fmap_app, !take_drop, Hm in Hc.
      unfold slots. simpl. rewrite Hm.
      destruct (uninitialized_copy_n _ _ _ _ _) as [d' []|d'|].
      * destruct Hc as [_ ->];
          [rewrite ?length_fmap, ?length_take, ?length_drop; lia..|].
        split; [done|]. unfold with_buffer, wvec. simpl.
        rewrite app_assoc, <- fmap_app, take_drop, length_drop. fields.
      * destruct Hc as [Hthrows (mid' & Hmid' & ->)];
          [rewrite ?length_fmap, ?length_take, ?length_drop; lia..|].
        split; [left; apply (existsb_take_drop _ _ (length xs)); by right|].
        split; [done|].
        exists (take (length xs) ys), (mid' ++ drop (length ys - length xs) rest).
        split_and!.
        -- unfold with_slots, with_buffer, wvec. simpl. list_norm. fields.
        -- rewrite length_take. lia.
        -- rewrite length_app, length_drop. lia.
      * apply Hc; rewrite ?length_fmap, ?length_take, ?length_drop; lia.
    + assert (Hm : m = length ys) by lia.
      rewrite Hm, take_ge, fmap_app, <- app_assoc by lia.
      pose proof (destroy_n_live (drop (length ys) xs) (Some <$> ys) rest (length ys))
        as Hd.
      rewrite length_drop in Hd. rewrite Hd by (by rewrite length_fmap). clear Hd.
      split; [done|]. unfold with_buffer, wvec. simpl. list_norm. fields.
  - destruct Hcopy as [Hthrows [zs [Hzs ->]]]; [rewrite ?length_take; lia..|].
    split; [right; apply (existsb_take_drop _ _ m); by left|].
    split; [done|]. exists (zs ++ drop m xs), rest. split_and!.
    + unfold with_slots, with_buffer, wvec. simpl. list_norm. fields.
    + rewrite length_app, length_drop, Hzs. lia.
    + done.
  - apply Hcopy; rewrite ?length_take; lia.
Qed.

End VectorFacts.

(** ** Properties of the operations *)

Section Properties.

Context {T : Type} `{Element T} `{Sized T}.

Implicit Types (this other : Vector T) (xs ys zs : list T) (x y z : T).
Implicit Types (rest : list (option T)).

Lemma length_insert_at xs index x :
  index <= length xs -> length (take index xs ++ x :: drop index xs) = length xs + 1.
Proof.
  intros Hindex. rewrite length_app, length_take. simpl. rewrite length_drop. lia.
Qed.

(** C10.  [Resize(n)] with [n] equal to the current size returns at once:
    the vector, its size, its capacity and every slot of its storage are
    unchanged, and no storage is released. *)
Theorem Resize_to_current_size this :
  Resize this (size_ this) = (Ok this tt, []).
Proof. unfold Resize. by rewrite Nat.eqb_refl. Qed.

(** C9.  [PopBack] on an empty vector returns normally and changes nothing;
    on a non-empty vector it destroys the last element (its slot becomes
    raw), decrements the size, and keeps the other elements. *)
Theorem PopBack_spec this :
  (size_ this = 0 -> PopBack this = (Ok this tt, []))
  /\ (wf this -> 0 < size_ this ->
      exists this',
        PopBack this = (Ok this' tt, [])
        /\ size_ this' = size_ this - 1
        /\ Capacity this' = Capacity this
        /\ contents this' = take (size_ this - 1) (contents this)
        /\ slots this' !! (size_ this - 1) = Some None
        /\ wf this').
Proof.
  split; [apply PopBack_empty|].
  intros Hwf Hpos. destruct (wf_inv this Hwf) as (xs & rest & ->).
  change (size_ (wvec xs rest)) with (length xs) in *.
  destruct xs as [|y ys _] using rev_ind; [simpl in Hpos; lia|].
  rewrite length_snoc in *. exists (wvec ys (None :: rest)).
  rewrite PopBack_wvec, !contents_wvec.
  replace (S (length ys) - 1) with (length ys) by lia.
  split_and!; try done.
  - unfold Capacity. simpl. rewrite length_snoc. lia.
  - by rewrite take_app_length.
  - apply slots_wvec_raw_lookup.
  - apply wf_wvec.
Qed.

(** C4, as the code has it.  Move construction leaves the source equal to a
    default-constructed vector and gives the new vector the source's storage,
    size and elements.  Move assignment from another vector exchanges the
    two vectors: the destination gets the source's storage, size and
    elements, and the source gets the destination's; it is empty afterwards
    only if the destination was.  Move assignment from itself changes
    nothing.  Neither operation constructs, destroys or releases anything. *)
Theorem move_exchanges_storage this other :
  Vector_move other = (other, Vector_default)
  /\ size_ (snd (Vector_move other)) = 0
  /\ Capacity (snd (Vector_move other)) = 0
  /\ move_assign this (Other other) = (other, Other this)
  /\ move_assign this Self = (this, Self).
Proof.
  destruct this as [[b1 c1] s1], other as [[b2 c2] s2]. by repeat split.
Qed.

(** C6.  [Erase] at a valid position removes exactly that element: the
    elements before it stay, the elements after it move one slot toward the
    front in order, the vacated last slot is raw, the size drops by one, and
    the returned position is the erased one, which now holds the next
    element or is [end()].  The call fails only when a move assignment of an
    element behind the position throws. *)
Theorem Erase_removes_element this index :
  wf this -> index < size_ this ->
  match Erase this index with
  | (Ok this' it, rel) =>
      contents this' = take index (contents this) ++ drop (S index) (contents this)
      /\ size_ this' = size_ this - 1
      /\ Capacity this' = Capacity this
      /\ slots this' !! (size_ this - 1) = Some None
      /\ it = index
      /\ at_index this' it = at_index this (index + 1)
      /\ (index + 1 = size_ this -> it = Vector_end this')
      /\ wf this'
  | (Throw this', rel) =>
      existsb move_assign_throws (drop (S index) (contents this)) = true
  | (UB, _) => False
  end.
Proof.
  intros Hwf Hindex. destruct (wf_inv this Hwf) as (xs & rest & ->).
  change (size_ (wvec xs rest)) with (length xs) in *.
  pose proof (Erase_wvec_index xs rest index Hindex) as He.
  rewrite contents_wvec.
  destruct (Erase _ _) as [[this' it|this'|] rel]; [|by destruct He|done].
  destruct He as (-> & -> & ->).
  assert (Hlen : length (take index xs ++ drop (S index) xs) = length xs - 1).
  { rewrite length_app, length_take, length_drop. lia. }
  rewrite !contents_wvec, !at_index_wvec.
  unfold Vector_end. change (size_ (wvec ?l ?r)) with (length l).
  split_and!; try done.
  - unfold Capacity. simpl. lia.
  - rewrite <- Hlen. apply slots_wvec_raw_lookup.
  - rewrite lookup_app_r by (rewrite length_take; lia).
    rewrite length_take, Nat.min_l, Nat.sub_diag, lookup_drop by lia.
    f_equal. lia.
  - lia.
  - apply wf_wvec.
Qed.

(** C3.  A successful [Emplace] and a successful [Insert] at a position
    [index] in [0 .. size] yield a vector one longer whose element at
    [index] is the newly constructed value, whose elements before [index]
    are unchanged and whose elements from [index] on are the old ones one
    slot further back; the returned iterator is the position [index].  The
    call is not successful only when a constructor or an assignment of the
    element type throws, or when the argument refers to no live element. *)
Theorem Emplace_inserts_at_position this index a :
  wf this -> index <= size_ this ->
  match Emplace this index a with
  | (Ok this' it, rel) =>
      exists x,
        construct a (slots this) = Ok tt x
        /\ size_ this' = size_ this + 1
        /\ at_index this' index = Some x
        /\ (forall k, k < index -> at_index this' k = at_index this k)
        /\ (forall k, index <= k < size_ this ->
              at_index this' (k + 1) = at_index this k)
        /\ contents this' = take index (contents this) ++ x :: drop index (contents this)
        /\ it = index
        /\ wf this'
  | (Throw this', rel) => emplace_throws a this
  | (UB, _) => construct a (slots this) = UB
  end
  /\ match Insert this index a with
     | (Ok this' it, rel) =>
         exists x,
           construct a (slots this) = Ok tt x
           /\ size_ this' = size_ this + 1
           /\ at_index this' index = Some x
           /\ (forall k, k < index -> at_index this' k = at_index this k)
           /\ (forall k, index <= k < size_ this ->
                 at_index this' (k + 1) = at_index this k)
           /\ contents this'
              = take index (contents this) ++ x :: drop index (contents this)
           /\ it = index
           /\ wf this'
     | (Throw this', rel) => emplace_throws a this
     | (UB, _) => construct a (slots this) = UB
     end.
Proof.
  intros Hwf Hindex. unfold Insert.
  match goal with |- ?P /\ _ => enough (Hm : P) by (by split) end.
  destruct (wf_inv this Hwf) as (xs & rest & ->).
  change (size_ (wvec xs rest)) with (length xs) in *.
  pose proof (Emplace_wvec xs rest index a Hindex) as He.
  rewrite contents_wvec.
  destruct (Emplace _ _ _) as [[this' it|this'|] rel]; [|by destruct He|done].
  destruct He as (x & Hx & Hthis' & -> & _). exists x.
  pose proof (length_insert_at xs index x Hindex) as Hlen.
  set (xs' := take index xs ++ x :: drop index xs) in *.
  assert (Hshape : exists rest', this' = wvec xs' rest').
  { destruct rest as [|s rest]; [|by eexists].
    rewrite Hthis', vec_wvec by lia. by eexists. }
  destruct Hshape as [rest' ->].
  rewrite contents_wvec. change (size_ (wvec xs' rest')) with (length xs').
  split_and!; try done.
  - rewrite at_index_wvec. apply list_lookup_middle. rewrite length_take. lia.
  - intros k Hk. rewrite !at_index_wvec. unfold xs'.
    rewrite lookup_app_l by (rewrite length_take; lia).
    by rewrite lookup_take_lt.
  - intros k [Hk1 Hk2]. rewrite !at_index_wvec. unfold xs'.
    rewrite lookup_app_r by (rewrite length_take; lia).
    rewrite length_take, Nat.min_l by lia.
    replace (k + 1 - index) with (S (k - index)) by lia. simpl.
    rewrite lookup_drop. f_equal. lia.
  - apply wf_wvec.
Qed.

(** C2.  On the in-place path (the capacity suffices), [Insert] of a
    reference to one of the vector's own elements inserts the value that
    element had before the call, whatever the position: the other elements
    keep their values and order.  From [a,b,c], inserting [container[0]]
    before position 1 gives [a,a,b,c].  The call fails only when a
    constructor or an assignment of the element type throws. *)
Theorem Insert_own_element_in_place this index j :
  wf this -> size_ this + 1 <= Capacity this -> index <= size_ this ->
  j < size_ this ->
  match Insert this index (ByCopyOwn j) with
  | (Ok this' it, rel) =>
      exists x,
        at_index this j = Some x
        /\ contents this' = take index (contents this) ++ x :: drop index (contents this)
        /\ at_index this' index = Some x
        /\ Capacity this' = Capacity this
        /\ rel = []
  | (Throw this', rel) => emplace_throws (ByCopyOwn j) this
  | (UB, _) => False
  end.
Proof.
  intros Hwf Hfit Hindex Hj. destruct (wf_inv this Hwf) as (xs & rest & ->).
  change (size_ (wvec xs rest)) with (length xs) in *.
  change (Capacity (wvec xs rest)) with (length xs + length rest) in *.
  destruct rest as [|s rest]; [simpl in Hfit; lia|].
  pose proof (Emplace_wvec xs (s :: rest) index (ByCopyOwn j) Hindex) as He.
  unfold Insert. rewrite contents_wvec.
  destruct (construct_own xs (s :: rest) j Hj) as (y & Hy & Hcons).
  destruct (Emplace _ _ _) as [[this' it|this'|] rel].
  - destruct He as (x & Hx & -> & -> & ->). exists x.
    rewrite Hcons in Hx. destruct (copy_throws y); [done|]. injection Hx as ->.
    rewrite contents_wvec, !at_index_wvec.
    split_and!; try done.
    + apply list_lookup_middle. rewrite length_take. lia.
    + unfold Capacity. simpl. rewrite length_insert_at by done. lia.
  - by destruct He.
  - rewrite Hcons in He. by destruct (copy_throws y).
Qed.

(** C7.  After copy assignment from another vector the destination has
    the source's size and the source's elements in order; its storage is a
    fresh one of exactly that many slots when its capacity was too small (the
    old storage is released with every element destroyed), and its old one
    otherwise, in which the slots of excess elements are raw.  The
    assignment fails only when a copy constructor or a copy assignment of a
    source element throws.  Copy assignment from itself changes nothing. *)
Theorem copy_assign_copies_source this r :
  wf this -> rhs_ok r ->
  match r with
  | Self => copy_assign this r = (Ok this tt, [])
  | Other other =>
      match copy_assign this r with
      | (Ok this' _, rel) =>
          size_ this' = size_ other
          /\ contents this' = contents other
          /\ Capacity this'
             = (if Capacity this <? size_ other then size_ other else Capacity this)
          /\ rel = (if Capacity this <? size_ other then [emptied this] else [])
          /\ (forall k, size_ other <= k < size_ this ->
                slots this' !! k = Some None)
          /\ wf this'
      | (Throw this', rel) =>
          existsb copy_throws (contents other) = true
          \/ existsb copy_assign_throws (contents other) = true
      | (UB, _) => False
      end
  end.
Proof.
  intros Hwf Hr. destruct r as [|other]; [done|].
  destruct (wf_inv this Hwf) as (xs & rest & ->).
  destruct (wf_inv other Hr) as (ys & rest2 & ->).
  pose proof (copy_assign_wvec xs rest ys rest2) as Hc.
  change (size_ (wvec ys rest2)) with (length ys).
  change (size_ (wvec xs rest)) with (length xs).
  change (Capacity (wvec xs rest)) with (length xs + length rest).
  rewrite contents_wvec.
  destruct (copy_assign _ _) as [[this' []|this'|] rel]; [|by destruct Hc|done].
  destruct (Nat.ltb_spec (length xs + length rest) (length ys)) as [Hlt|Hge].
  - destruct Hc as [-> ->]. rewrite contents_vec.
    split_and!; try done; [lia|by apply wf_vec].
  - destruct Hc as [-> ->]. rewrite contents_wvec.
    change (size_ (wvec ys ?r)) with (length ys).
    split_and!; try done.
    + unfold Capacity. simpl. destruct (Nat.ltb_spec (length xs) (length ys)).
      * rewrite length_drop. lia.
      * rewrite length_app, length_replicate. lia.
    + intros k [Hk1 Hk2].
      rewrite (proj2 (Nat.ltb_ge (length xs) (length ys))) by lia.
      unfold slots. simpl.
      rewrite lookup_app_r by (rewrite length_fmap; lia).
      rewrite lookup_app_l by (rewrite length_replicate, length_fmap; lia).
      apply lookup_replicate_2. rewrite length_fmap. lia.
    + apply wf_wvec.
Qed.

(** *** Failure of an insertion that reallocates *)

Lemma Forall2_or_same xs :
  Forall2 (fun x' x => x' = x \/ x' = moved_from x) xs xs.
Proof.
  apply Forall2_same_length_lookup_2; [done|]. intros i a b Ha Hb. left. congruence.
Qed.

Lemma move_residue_rel xs :
  Forall2 (fun x' x => x' = x \/ x' = moved_from x) (move_residue xs) xs.
Proof.
  induction xs as [|x xs IH]; simpl; [constructor|].
  destruct (move_throws x); [apply Forall2_or_same|].
  constructor; [by right|done].
Qed.

Lemma reloc_residue_rel xs :
  Forall2 (fun x' x => x' = x \/ x' = moved_from x) (reloc_residue xs) xs.
Proof.
  unfold reloc_residue.
  destruct relocates_by_move; [apply move_residue_rel|apply Forall2_or_same].
Qed.

Lemma reloc_residue_by_copy xs : relocates_by_move = false -> reloc_residue xs = xs.
Proof. unfold reloc_residue. by intros ->. Qed.


(** *** Growth *)

(** The capacities reached by the first nine pushes. *)
Lemma doubled_capacity_values :
  doubled_capacity <$> [0; 1; 2; 3; 4; 5; 6; 7; 8; 9]
  = [0; 1; 2; 4; 4; 8; 8; 8; 8; 16].
Proof. reflexivity. Qed.

Lemma doubled_capacity_ge n : n <= doubled_capacity n.
Proof.
  unfold doubled_capacity. destruct (Nat.eqb_spec n 0) as [->|Hn]; [done|].
  apply Nat.log2_up_le_pow2; [lia|done].
Qed.

Lemma doubled_capacity_step n :
  doubled_capacity (n + 1)
  = if n + 1 <=? doubled_capacity n then doubled_capacity n
    else Nat.max 1 (2 * doubled_capacity n).
Proof.
  destruct (decide (n = 0)) as [->|Hn]; [done|].
  pose proof (doubled_capacity_ge n) as Hge. unfold doubled_capacity in *.
  rewrite (proj2 (Nat.eqb_neq (n + 1) 0)) by lia.
  rewrite (proj2 (Nat.eqb_neq n 0)) in * by lia.
  destruct (Nat.leb_spec (n + 1) (2 ^ Nat.log2_up n)) as [Hfit|Hfull].
  - f_equal. apply Nat.le_antisymm.
    + apply Nat.log2_up_le_pow2; lia.
    + apply Nat.log2_up_le_mono. lia.
  - assert (Hn2 : n = 2 ^ Nat.log2_up n) by lia.
    rewrite Nat.add_1_r. rewrite Hn2 at 1.
    rewrite Nat.log2_up_succ_pow2 by lia. rewrite Nat.pow_succ_r'. lia.
Qed.

(** The capacity after a successful [Emplace]. *)
Lemma Emplace_capacity xs rest index a this' it rel :
  index <= length xs ->
  Emplace (wvec xs rest) index a = (Ok this' it, rel) ->
  size_ this' = length xs + 1
  /\ Capacity this'
     = (if length xs + 1 <=? length xs + length rest then length xs + length rest
        else Nat.max 1 (2 * (length xs + length rest)))
  /\ rel = (if length xs + 1 <=? length xs + length rest then []
            else [RawMemory_new (length xs + length rest)])
  /\ wf this'
  /\ (clean (wvec xs rest) -> clean this').
Proof.
  intros Hindex Hrun. pose proof (Emplace_wvec xs rest index a Hindex) as He.
  rewrite Hrun in He. destruct He as (x & _ & -> & _ & ->).
  pose proof (length_insert_at xs index x Hindex) as Hlen.
  destruct rest as [|s rest].
  - rewrite (leb_correct_conv (length xs + length []) (length xs + 1))
      by (simpl; lia).
    simpl length. rewrite Nat.add_0_r.
    split_and!; try done; [by apply wf_vec; lia|]. intros _. apply clean_vec.
  - rewrite (leb_correct (length xs + 1) (length xs + length (s :: rest)))
      by (simpl; lia).
    split_and!; try done.
    + unfold Capacity. simpl. lia.
    + apply wf_wvec.
    + rewrite !clean_wvec. simpl. by intros [= _ <-].
Qed.

Lemma run_pushes_doubled (args : list (arg T)) : forall xs this',
  run_steps (vec xs (doubled_capacity (length xs))) (Push <$> args) = Ok this' tt ->
  exists ys,
    this' = vec ys (doubled_capacity (length ys))
    /\ length ys = length xs + length args.
Proof.
  induction args as [|a args IH]; intros xs this'; simpl.
  - intros [= <-]. exists xs. split; [done|lia].
  - pose proof (doubled_capacity_ge (length xs)) as Hge.
    unfold PushBack, EmplaceBack.
    change (size_ (vec xs ?c)) with (length xs).
    rewrite vec_wvec by done.
    remember (replicate (doubled_capacity (length xs) - length xs) None) as rest
      eqn:Hdef.
    assert (Hrest : length xs + length rest = doubled_capacity (length xs)).
    { rewrite Hdef, length_replicate. lia. }
    assert (Hraw : rest = replicate (length rest) None).
    { by rewrite Hdef, length_replicate. }
    clear Hdef.
    pose proof (Emplace_wvec xs rest (length xs) a (le_n _)) as He.
    destruct (Emplace _ _ _) as [[this1 it|this1|] rel]; simpl; [|done..].
    destruct He as (x & _ & Hthis1 & _).
    rewrite take_ge, drop_ge in Hthis1 by lia.
    assert (this1 = vec (xs ++ [x]) (doubled_capacity (length (xs ++ [x])))) as ->.
    { rewrite length_snoc, <- Nat.add_1_r, doubled_capacity_step, <- Hrest.
      rewrite Hthis1. destruct rest as [|s rest].
      - rewrite (leb_correct_conv _ _) by (simpl; lia). simpl length.
        by rewrite Nat.add_0_r.
      - rewrite (leb_correct _ _) by (simpl; lia).
        rewrite vec_wvec by (rewrite length_snoc; simpl; lia).
        f_equal. rewrite length_snoc. simpl length.
        replace (length xs + S (length rest) - S (length xs)) with (length rest)
          by lia.
        simpl in Hraw. by injection Hraw as _ <-. }
    intros Hrun. destruct (IH _ _ Hrun) as (ys & -> & Hlen).
    exists ys. split; [done|]. rewrite Hlen, length_snoc. lia.
Qed.

(** C5.  A successful [Emplace] (so also [EmplaceBack] and [PushBack]) that
    fits the capacity keeps the storage and releases nothing; one that does
    not fit moves to storage of capacity [max(1, 2 * capacity)] and releases
    the old storage.  Starting from the empty vector, after [n] successful
    [PushBack] calls the capacity is the least power of two that is at least
    [n]: 1, 2, 4, 4, 8, ... *)
Theorem growth_doubles_capacity :
  (forall this index a this' it rel,
     wf this -> index <= size_ this ->
     Emplace this index a = (Ok this' it, rel) ->
     Capacity this'
     = (if size_ this + 1 <=? Capacity this then Capacity this
        else Nat.max 1 (2 * Capacity this))
     /\ rel = (if size_ this + 1 <=? Capacity this then []
               else [RawMemory_new (Capacity this)]))
  /\ (forall (args : list (arg T)) this',
        run_steps Vector_default (Push <$> args) = Ok this' tt ->
        size_ this' = length args
        /\ Capacity this' = doubled_capacity (length args)).
Proof.
  split.
  - intros this index a this' it rel Hwf Hindex Hrun.
    destruct (wf_inv this Hwf) as (xs & rest & ->).
    by destruct (Emplace_capacity xs rest index a this' it rel Hindex Hrun)
      as (_ & ? & ? & _).
  - intros args this' Hrun.
    destruct (run_pushes_doubled args [] this' Hrun) as (ys & -> & Hlen).
    simpl in Hlen. change (size_ (vec ys ?c)) with (length ys).
    change (Capacity (vec ys ?c)) with c. by rewrite Hlen.
Qed.

(** *** The invariant *)

Lemma wf_size_le_capacity this : wf this -> size_le_capacity this.
Proof. by intros (_ & Hle & _). Qed.

Lemma Emplace_preserves xs rest index a :
  index <= length xs -> arg_ok a (wvec xs rest) ->
  match fst (discard (Emplace (wvec xs rest) index a)) with
  | Ok this' _ => wf this' /\ size_ this' = length xs + 1
  | Throw this' => wf this'
  | UB => False
  end.
Proof.
  intros Hindex Harg. pose proof (Emplace_wvec xs rest index a Hindex) as He.
  destruct (Emplace _ _ _) as [[this' it|this'|] rel] eqn:Hrun; simpl.
  - by destruct (Emplace_capacity xs rest index a this' it rel Hindex Hrun)
      as (? & _ & _ & ? & _).
  - destruct He as [(zs & rest' & -> & _) _]. apply wf_wvec.
  - by apply (construct_defined a xs rest).
Qed.

Lemma PopBack_preserves xs rest :
  match fst (PopBack (wvec xs rest)) with
  | Ok this' _ => wf this' /\ size_ this' = length xs - 1
  | Throw this' => wf this'
  | UB => False
  end.
Proof.
  destruct xs as [|y ys _] using rev_ind.
  - rewrite PopBack_empty by done. simpl. split; [apply wf_wvec|done].
  - rewrite PopBack_wvec. simpl. rewrite length_snoc.
    split; [apply wf_wvec|lia].
Qed.

Lemma build_preserves (k : ctor T) :
  ctor_ok k ->
  match build k with
  | Ok _ v => wf v
  | Throw _ => True
  | UB => False
  end.
Proof.
  destruct k as [|n|other|other]; simpl.
  - intros _. apply (wf_wvec [] []).
  - intros _. rewrite Vector_sized_spec.
    destruct (value_inits 0 n) as [ds|] eqn:Hds; simpl; [|done].
    apply wf_vec. by rewrite (length_value_inits _ _ _ Hds).
  - intros Hwf. destruct (wf_inv other Hwf) as (ys & rest & ->).
    rewrite Vector_copy_wvec. destruct (existsb copy_throws ys); simpl; [done|].
    by apply wf_vec.
  - intros Hwf. destruct (wf_inv other Hwf) as (ys & rest & ->).
    change (wf (wvec ys rest)). apply wf_wvec.
Qed.

Lemma run_preserves (c : call T) this :
  wf this -> admissible c this ->
  match run c this with
  | Ok this' _ => wf this'
  | Throw this' => wf this'
  | UB => False
  end.
Proof.
  intros Hwf Hadm. destruct (wf_inv this Hwf) as (xs & rest & ->).
  destruct c as [r|r|n|a|a| |index a|index a|index|other|n]; simpl in Hadm |- *.
  - destruct r as [|other]; [done|].
    destruct (wf_inv other Hadm) as (ys & rest2 & ->).
    pose proof (copy_assign_wvec xs rest ys rest2) as Hc.
    destruct (copy_assign _ _) as [[this' []|this'|] rel]; simpl; [| |done].
    + destruct (Nat.ltb_spec (length xs + length rest) (length ys)).
      * destruct Hc as [-> _]. by apply wf_vec.
      * destruct Hc as [_ ->]. apply wf_wvec.
    + destruct Hc as [_ Hc].
      destruct (Nat.ltb_spec (length xs + length rest) (length ys)).
      * by destruct Hc as [-> _].
      * destruct Hc as (_ & zs & rest' & -> & _). apply wf_wvec.
  - destruct r as [|other]; [done|].
    destruct (wf_inv other Hadm) as (ys & rest2 & ->).
    change (wf (wvec ys rest2)). apply wf_wvec.
  - rewrite Resize_wvec.
    destruct (Nat.eqb_spec n (length xs)); [done|].
    destruct (Nat.ltb_spec n (length xs)); [apply wf_wvec|].
    destruct (Nat.ltb_spec (length xs + length rest) n).
    + destruct (existsb reloc_throws xs); simpl; [apply wf_wvec|].
      destruct (value_inits 0 (n - length xs)) as [ds|] eqn:Hds; simpl;
        apply wf_vec; [|lia].
      rewrite length_app, (length_value_inits _ _ _ Hds). lia.
    + destruct (value_inits 0 (n - length xs)) as [ds|]; simpl; apply wf_wvec.
  - pose proof (Emplace_preserves xs rest (length xs) a (le_n _) Hadm) as He.
    unfold EmplaceBack. change (size_ (wvec xs rest)) with (length xs).
    destruct (fst _) as [this' []|this'|]; [by destruct He|done..].
  - pose proof (Emplace_preserves xs rest (length xs) a (le_n _) Hadm) as He.
    unfold PushBack, EmplaceBack. change (size_ (wvec xs rest)) with (length xs).
    destruct (fst _) as [this' []|this'|]; [by destruct He|done..].
  - pose proof (PopBack_preserves xs rest) as Hp.
    destruct (fst _) as [this' []|this'|]; [by destruct Hp|done..].
  - destruct Hadm as [Hindex Harg].
    pose proof (Emplace_preserves xs rest index a Hindex Harg) as He.
    destruct (fst _) as [this' []|this'|]; [by destruct He|done..].
  - destruct Hadm as [Hindex Harg].
    pose proof (Emplace_preserves xs rest index a Hindex Harg) as He. unfold Insert.
    destruct (fst _) as [this' []|this'|]; [by destruct He|done..].
  - pose proof (Erase_wvec_index xs rest index Hadm) as He.
    destruct (Erase _ _) as [[this' it|this'|] rel]; simpl; [| |done].
    + destruct He as (-> & _). apply wf_wvec.
    + destruct He as (_ & zs & Hzs & ->). apply wf_wvec.
  - destruct (wf_inv other Hadm) as (ys & rest2 & ->).
    change (wf (wvec ys rest2)). apply wf_wvec.
  - rewrite Reserve_wvec.
    destruct (Nat.ltb_spec (length xs + length rest) n); [|apply wf_wvec].
    destruct (existsb reloc_throws xs); simpl; [apply wf_wvec|].
    apply wf_vec. lia.
Qed.

Lemma run_steps_app (steps1 steps2 : list (step T)) : forall this this',
  run_steps this (steps1 ++ steps2) = Ok this' tt ->
  exists mid, run_steps this steps1 = Ok mid tt /\ run_steps mid steps2 = Ok this' tt.
Proof.
  induction steps1 as [|s steps1 IH]; intros this this'; simpl.
  - intros Hrun. by exists this.
  - destruct (match s with Push a => _ | Pop => _ end) as [this1 []|this1|];
      [apply IH|done..].
Qed.

Lemma run_steps_size (steps : list (step T)) : forall this this',
  wf this -> run_steps this steps = Ok this' tt ->
  wf this' /\ size_ this' = running_size (size_ this) steps.
Proof.
  induction steps as [|s steps IH]; intros this this' Hwf; simpl.
  - intros [= <-]. done.
  - destruct (wf_inv this Hwf) as (xs & rest & ->).
    change (size_ (wvec xs rest)) with (length xs).
    destruct s as [a|].
    + unfold PushBack, EmplaceBack. change (size_ (wvec xs rest)) with (length xs).
      destruct (Emplace _ _ _) as [[this1 it|this1|] rel] eqn:Hrun; simpl; [|done..].
      destruct (Emplace_capacity xs rest _ a this1 it rel (le_n _) Hrun)
        as (Hsize & _ & _ & Hwf1 & _).
      intros Hsteps. apply IH in Hsteps; [|done]. by rewrite Hsize in Hsteps.
    + pose proof (PopBack_preserves xs rest) as Hp.
      destruct (fst _) as [this1 []|this1|]; [|done..].
      destruct Hp as [Hwf1 Hsize]. intros Hrun. apply IH in Hrun; [|done].
      by rewrite Hsize in Hrun.
Qed.

Lemma running_size_lower (steps : list (step T)) : forall n,
  n + pushes steps - pops steps <= running_size n steps.
Proof.
  induction steps as [|[a|] steps IH]; intros n; simpl.
  - lia.
  - specialize (IH (n + 1)). lia.
  - specialize (IH (n - 1)). lia.
Qed.

(** C8, as the code has it.  Every constructor establishes and every public
    member function preserves the invariant of the class, of which
    [0 <= size <= capacity] is a part, whether the call returns or throws,
    provided the number of slots that [Vector(n)], [Reserve(n)] or
    [Resize(n)] takes from its caller is one whose byte count
    [n * sizeof(T)] does not wrap around in [size_t] (else the storage is
    smaller than the capacity says); the other vector of a swap or a move
    keeps the invariant too.  After any
    part of a sequence of [PushBack] and [PopBack] calls on an empty vector,
    the size is the count that goes up by one at each [PushBack] and down by
    one at each [PopBack] that finds an element (the floor at 0 applies at
    every call, not once at the end), it is at least the number of pushes
    minus the number of pops, and it is at most the capacity. *)
Theorem invariant_preserved :
  (forall k : ctor T,
     ctor_ok k -> ctor_fits k = true ->
     match build k with
     | Ok _ v => wf v /\ size_le_capacity v
     | Throw _ => True
     | UB => False
     end)
  /\ (forall (c : call T) this,
        wf this -> admissible c this -> call_fits c = true ->
        match run c this with
        | Ok this' _ => wf this' /\ size_le_capacity this'
        | Throw this' => wf this' /\ size_le_capacity this'
        | UB => False
        end)
  /\ (forall this other,
        wf this -> wf other ->
        wf (snd (Swap this other)) /\ wf (snd (Vector_move other)))
  /\ (forall (steps rest : list (step T)) this',
        run_steps Vector_default (steps ++ rest) = Ok this' tt ->
        exists mid,
          run_steps Vector_default steps = Ok mid tt
          /\ Size mid = running_size 0 steps
          /\ pushes steps - pops steps <= Size mid
          /\ Size mid <= Capacity mid).
Proof.
  split_and!.
  - intros k Hk _. pose proof (build_preserves k Hk) as Hb.
    destruct (build k) as [[] v|[]|]; auto using wf_size_le_capacity.
  - intros c this Hwf Hadm _. pose proof (run_preserves c this Hwf Hadm) as Hr.
    destruct (run c this) as [this' []|this'|]; auto using wf_size_le_capacity.
  - intros this other Hwf Hwf'.
    destruct this as [[b1 c1] s1], other as [[b2 c2] s2]. simpl.
    split; [done|]. apply (wf_wvec [] []).
  - intros steps rest this' Hrun.
    destruct (run_steps_app steps rest _ _ Hrun) as (mid & Hmid & _).
    exists mid. split; [done|].
    destruct (run_steps_size steps Vector_default mid) as [Hwf Hsize];
      [apply (wf_wvec [] [])|done|].
    unfold Size. split_and!; [done| |by apply wf_size_le_capacity].
    rewrite Hsize. pose proof (running_size_lower steps 0). simpl in *. lia.
Qed.

End Properties.

(** ** Instances of the properties *)

(** Checks the invariant of a concrete vector by evaluation. *)
Ltac wf_compute := unfold wf; repeat split; try reflexivity; vm_compute; lia.

Lemma PopBack_spec_witness :
  PopBack (Vector_default (T := nat)) = (Ok Vector_default tt, [])
  /\ exists this',
       PopBack nats_123 = (Ok this' tt, [])
       /\ size_ this' = size_ nats_123 - 1
       /\ Capacity this' = Capacity nats_123
       /\ contents this' = take (size_ nats_123 - 1) (contents nats_123)
       /\ slots this' !! (size_ nats_123 - 1) = Some None
       /\ wf this'.
Proof.
  split.
  - apply (proj1 (PopBack_spec Vector_default)). reflexivity.
  - apply (proj2 (PopBack_spec nats_123)); [wf_compute | vm_compute; lia].
Defined.

Lemma move_assign_source_not_emptied :
  move_assign (vec [1; 2] 2) (Other (vec [3] 1)) = (vec [3] 1, Other (vec [1; 2] 2))
  /\ size_ (vec (T := nat) [1; 2] 2) = 2
  /\ Capacity (vec (T := nat) [1; 2] 2) = 2.
Proof. by vm_compute. Qed.

Lemma Erase_removes_element_witness :
  wf nats_1234 /\ 1 < size_ nats_1234
  /\ Erase nats_1234 1 = (Ok (vec [1; 3; 4] 4) 1, [])
  /\ (contents (vec [1; 3; 4] 4)
      = take 1 (contents nats_1234) ++ drop 2 (contents nats_1234)
      /\ size_ (vec [1; 3; 4] 4) = size_ nats_1234 - 1
      /\ Capacity (vec [1; 3; 4] 4) = Capacity nats_1234
      /\ slots (vec [1; 3; 4] 4) !! (size_ nats_1234 - 1) = Some None
      /\ 1 = 1
      /\ at_index (vec [1; 3; 4] 4) 1 = at_index nats_1234 (1 + 1)
      /\ (1 + 1 = size_ nats_1234 -> 1 = Vector_end (vec [1; 3; 4] 4))
      /\ wf (vec [1; 3; 4] 4)).
Proof.
  assert (Hwf : wf nats_1234) by wf_compute.
  assert (Hlt : 1 < size_ nats_1234) by (vm_compute; lia).
  refine (conj Hwf (conj Hlt (conj eq_refl _))).
  exact (Erase_removes_element nats_1234 1 Hwf Hlt).
Defined.

Lemma Emplace_inserts_at_position_witness :
  wf nats_123 /\ 1 <= size_ nats_123
  /\ (Emplace nats_123 1 (ByCopy 7) = (Ok (vec [1; 7; 2; 3] 4) 1, [])
      /\ exists x,
           construct (ByCopy 7) (slots nats_123) = Ok tt x
           /\ size_ (vec [1; 7; 2; 3] 4) = size_ nats_123 + 1
           /\ at_index (vec [1; 7; 2; 3] 4) 1 = Some x
           /\ (forall k, k < 1 -> at_index (vec [1; 7; 2; 3] 4) k = at_index nats_123 k)
           /\ (forall k, 1 <= k < size_ nats_123 ->
                 at_index (vec [1; 7; 2; 3] 4) (k + 1) = at_index nats_123 k)
           /\ contents (vec [1; 7; 2; 3] 4)
              = take 1 (contents nats_123) ++ x :: drop 1 (contents nats_123)
           /\ 1 = 1
           /\ wf (vec [1; 7; 2; 3] 4))
  /\ (Insert nats_123 1 (ByCopy 7) = (Ok (vec [1; 7; 2; 3] 4) 1, [])
      /\ exists x,
           construct (ByCopy 7) (slots nats_123) = Ok tt x
           /\ size_ (vec [1; 7; 2; 3] 4) = size_ nats_123 + 1
           /\ at_index (vec [1; 7; 2; 3] 4) 1 = Some x
           /\ (forall k, k < 1 -> at_index (vec [1; 7; 2; 3] 4) k = at_index nats_123 k)
           /\ (forall k, 1 <= k < size_ nats_123 ->
                 at_index (vec [1; 7; 2; 3] 4) (k + 1) = at_index nats_123 k)
           /\ contents (vec [1; 7; 2; 3] 4)
              = take 1 (contents nats_123) ++ x :: drop 1 (contents nats_123)
           /\ 1 = 1
           /\ wf (vec [1; 7; 2; 3] 4)).
Proof.
  assert (Hwf : wf nats_123) by wf_compute.
  assert (Hle : 1 <= size_ nats_123) by (vm_compute; lia).
  refine (conj Hwf (conj Hle _)).
  refine (match Emplace_inserts_at_position nats_123 1 (ByCopy 7) Hwf Hle with
          | conj He Hi => conj (conj eq_refl He) (conj eq_refl Hi)
          end).
Defined.

Lemma Insert_own_element_in_place_witness :
  wf nats_123 /\ size_ nats_123 + 1 <= Capacity nats_123 /\ 1 <= size_ nats_123
  /\ 0 < size_ nats_123
  /\ Insert nats_123 1 (ByCopyOwn 0) = (Ok (vec [1; 1; 2; 3] 4) 1, [])
  /\ exists x,
       at_index nats_123 0 = Some x
       /\ contents (vec [1; 1; 2; 3] 4)
          = take 1 (contents nats_123) ++ x :: drop 1 (contents nats_123)
       /\ at_index (vec [1; 1; 2; 3] 4) 1 = Some x
       /\ Capacity (vec [1; 1; 2; 3] 4) = Capacity nats_123
       /\ @nil (RawMemory nat) = [].
Proof.
  assert (Hwf : wf nats_123) by wf_compute.
  assert (Hfit : size_ nats_123 + 1 <= Capacity nats_123) by (vm_compute; lia).
  assert (Hle : 1 <= size_ nats_123) by (vm_compute; lia).
  assert (Hj : 0 < size_ nats_123) by (vm_compute; lia).
  refine (conj Hwf (conj Hfit (conj Hle (conj Hj (conj eq_refl _))))).
  exact (Insert_own_element_in_place nats_123 1 0 Hwf Hfit Hle Hj).
Defined.

Lemma copy_assign_copies_source_witness :
  wf nats_123 /\ rhs_ok (Other (vec [7; 8] 5))
  /\ copy_assign nats_123 (Other (vec [7; 8] 5)) = (Ok (vec [7; 8] 4) tt, [])
  /\ (size_ (vec [7; 8] 4) = size_ (vec (T := nat) [7; 8] 5)
      /\ contents (vec [7; 8] 4) = contents (vec [7; 8] 5)
      /\ Capacity (vec [7; 8] 4)
         = (if Capacity nats_123 <? size_ (vec (T := nat) [7; 8] 5)
            then size_ (vec (T := nat) [7; 8] 5) else Capacity nats_123)
      /\ @nil (RawMemory nat)
         = (if Capacity nats_123 <? size_ (vec (T := nat) [7; 8] 5)
            then [emptied nats_123] else [])
      /\ (forall k, size_ (vec (T := nat) [7; 8] 5) <= k < size_ nats_123 ->
            slots (vec [7; 8] 4) !! k = Some None)
      /\ wf (vec [7; 8] 4)).
Proof.
  assert (Hwf : wf nats_123) by wf_compute.
  assert (Hr : rhs_ok (Other (vec [7; 8] 5))) by (simpl; wf_compute).
  refine (conj Hwf (conj Hr (conj eq_refl _))).
  exact (copy_assign_copies_source nats_123 (Other (vec [7; 8] 5)) Hwf Hr).
Defined.



Lemma growth_doubles_capacity_witness :
  (wf nats_1234 /\ 4 <= size_ nats_1234
   /\ Emplace nats_1234 4 (ByCopy 5) = (Ok (vec [1; 2; 3; 4; 5] 8) 4, [RawMemory_new 4])
   /\ Capacity (vec (T := nat) [1; 2; 3; 4; 5] 8)
      = (if size_ nats_1234 + 1 <=? Capacity nats_1234 then Capacity nats_1234
         else Nat.max 1 (2 * Capacity nats_1234))
   /\ [RawMemory_new (T := nat) 4]
      = (if size_ nats_1234 + 1 <=? Capacity nats_1234 then []
         else [RawMemory_new (Capacity nats_1234)]))
  /\ (run_steps Vector_default five_pushes = Ok (vec [1; 2; 3; 4; 5] 8) tt
      /\ size_ (vec (T := nat) [1; 2; 3; 4; 5] 8) = 5
      /\ Capacity (vec (T := nat) [1; 2; 3; 4; 5] 8) = doubled_capacity 5).
Proof.
  assert (Hwf : wf nats_1234) by wf_compute.
  assert (Hle : 4 <= size_ nats_1234) by (vm_compute; lia).
  assert (Hrun : Emplace nats_1234 4 (ByCopy 5)
                 = (Ok (vec [1; 2; 3; 4; 5] 8) 4, [RawMemory_new 4])) by reflexivity.
  assert (Hpush : run_steps Vector_default five_pushes = Ok (vec [1; 2; 3; 4; 5] 8) tt)
    by reflexivity.
  destruct (growth_doubles_capacity (T := nat)) as [Hgrow Hseq].
  split; split_and!; try assumption.
  - apply (Hgrow nats_1234 4 (ByCopy 5) _ 4 _ Hwf Hle Hrun).
  - apply (Hgrow nats_1234 4 (ByCopy 5) _ 4 _ Hwf Hle Hrun).
  - apply (Hseq [ByCopy 1; ByCopy 2; ByCopy 3; ByCopy 4; ByCopy 5] _ Hpush).
  - apply (Hseq [ByCopy 1; ByCopy 2; ByCopy 3; ByCopy 4; ByCopy 5] _ Hpush).
Defined.

Lemma size_is_not_pushes_minus_pops :
  run_steps Vector_default pop_then_push = Ok (vec [5] 1) tt
  /\ Size (vec (T := nat) [5] 1) = 1
  /\ Nat.max 0 (pushes pop_then_push - pops pop_then_push) = 0.
Proof. by vm_compute. Qed.

Lemma invariant_preserved_witness :
  (wf (vec (T := nat) [1; 2; 3] 3) /\ size_le_capacity (vec (T := nat) [1; 2; 3] 3))
  /\ (wf (vec (T := nat) [0; 0; 0] 3) /\ size_le_capacity (vec (T := nat) [0; 0; 0] 3))
  /\ (wf (vec (T := nat) [1; 3; 4] 4) /\ size_le_capacity (vec (T := nat) [1; 3; 4] 4))
  /\ (wf (vec (T := nat) [1; 2; 3] 10)
      /\ size_le_capacity (vec (T := nat) [1; 2; 3] 10))
  /\ (wf (vec [fragile 1; fragile 13] 2)
      /\ size_le_capacity (vec [fragile 1; fragile 13] 2))
  /\ (wf (snd (Swap nats_123 nats_1234)) /\ wf (snd (Vector_move nats_1234)))
  /\ exists mid,
       run_steps Vector_default pop_then_push = Ok mid tt
       /\ Size mid = running_size 0 pop_then_push
       /\ pushes pop_then_push - pops pop_then_push <= Size mid
       /\ Size mid <= Capacity mid.
Proof.
  assert (Hwf3 : wf nats_123) by wf_compute.
  assert (Hwf4 : wf nats_1234) by wf_compute.
  assert (Hwff : wf fragiles) by wf_compute.
  assert (Hadm : admissible (Call_Erase 1) nats_1234) by (vm_compute; lia).
  assert (Hadmr : admissible (Call_Reserve 10) nats_123) by exact I.
  assert (Hadmf : admissible (Call_PushBack (ByCopy (fragile 7))) fragiles)
    by exact I.
  assert (Hfit3 : ctor_fits (New_sized (T := nat) 3) = true) by reflexivity.
  assert (Hfit10 : call_fits (Call_Reserve (T := nat) 10) = true) by reflexivity.
  destruct (invariant_preserved (T := nat)) as (Hbuild & Hrun & Hswap & Hseq).
  destruct (invariant_preserved (T := Fragile)) as (_ & Hrunf & _).
  split_and!.
  - apply (Hbuild (New_copy nats_123) Hwf3 eq_refl).
  - apply (Hbuild (New_copy nats_123) Hwf3 eq_refl).
  - apply (Hbuild (New_sized 3) I Hfit3).
  - apply (Hbuild (New_sized 3) I Hfit3).
  - apply (Hrun (Call_Erase 1) nats_1234 Hwf4 Hadm eq_refl).
  - apply (Hrun (Call_Erase 1) nats_1234 Hwf4 Hadm eq_refl).
  - apply (Hrun (Call_Reserve 10) nats_123 Hwf3 Hadmr Hfit10).
  - apply (Hrun (Call_Reserve 10) nats_123 Hwf3 Hadmr Hfit10).
  - apply (Hrunf (Call_PushBack (ByCopy (fragile 7))) fragiles Hwff Hadmf eq_refl).
  - apply (Hrunf (Call_PushBack (ByCopy (fragile 7))) fragiles Hwff Hadmf eq_refl).
  - apply (Hswap nats_123 nats_1234 Hwf3 Hwf4).
  - apply (Hswap nats_123 nats_1234 Hwf3 Hwf4).
  - apply (Hseq pop_then_push [] (vec [5] 1)). reflexivity.
Defined.

(** ** Further properties of the operations *)

Section FurtherProperties.

Context {T : Type} `{Element T} `{Sized T}.

(** On the requests that [fits] accepts, [Allocate] is what the source
    computes with the byte count taken in [size_t]. *)
Lemma Allocate_size_t_fits n : fits T n = true -> Allocate_size_t n = Allocate n.
Proof.
  unfold fits, Allocate_size_t, Allocate, requested_bytes. intros Hfits.
  apply N.leb_le in Hfits. pose proof sizeof_pos as Hpos.
  rewrite N.mod_small by lia.
  rewrite N.div_mul by lia. by rewrite Nat2N.id.
Qed.

Implicit Types (this other : Vector T) (xs ys zs : list T) (x y z : T).
Implicit Types (rest : list (option T)).

(** *** Storage without objects *)

Lemma raw_emptied xs rest :
  rest = replicate (length rest) None -> raw (emptied (wvec xs rest)).
Proof.
  intros ->. rewrite emptied_wvec. unfold raw. simpl.
  by rewrite length_replicate, <- replicate_add.
Qed.

Lemma Forall_raw_nil : Forall raw (@nil (RawMemory T)).
Proof. constructor. Qed.

Lemma Forall_raw_new n : Forall raw [RawMemory_new (T := T) n].
Proof. by repeat constructor. Qed.

Lemma Forall_raw_emptied xs rest :
  rest = replicate (length rest) None -> Forall raw [emptied (wvec xs rest)].
Proof. intros Hraw. repeat constructor. by apply raw_emptied. Qed.

(** *** [Reserve] and [Resize] *)

(** X1.  Provided [n * sizeof(T)] does not wrap around in [size_t]: a
    [Reserve(n)] that returns has kept the size and the elements; when [n]
    exceeds the capacity the elements are then in storage of exactly [n]
    slots and the old storage was released with its elements destroyed,
    otherwise nothing happened.  A [Reserve(n)] that throws leaves the size
    and the capacity, releases only storage that holds no object, leaves
    each element with its value or moved-from, and leaves the vector as it
    was for a type that is copy-constructible or has a move constructor that
    cannot throw.  With [n] at most the capacity the call returns at once;
    when a constructor that relocates an element throws, the call throws. *)
Theorem Reserve_spec this n :
  wf this -> fits T n = true ->
  match Reserve this n with
  | (Ok this' _, rel) =>
      size_ this' = size_ this
      /\ contents this' = contents this
      /\ Capacity this' = Nat.max (Capacity this) n
      /\ rel = (if Capacity this <? n then [emptied this] else [])
      /\ (n <= Capacity this -> this' = this)
      /\ wf this'
  | (Throw this', rel) =>
      Capacity this < n
      /\ size_ this' = size_ this
      /\ Capacity this' = Capacity this
      /\ Forall raw rel
      /\ Forall2 (fun x' x => x' = x \/ x' = moved_from x)
           (contents this') (contents this)
      /\ (is_copy_constructible = true \/ is_nothrow_move_constructible = true ->
          this' = this)
      /\ wf this'
  | (UB, _) => False
  end
  /\ (n <= Capacity this -> Reserve this n = (Ok this tt, []))
  /\ (Capacity this < n -> existsb reloc_throws (contents this) = true ->
      exists this' rel, Reserve this n = (Throw this', rel)).
Proof.
  intros Hwf _. destruct (wf_inv this Hwf) as (xs & rest & ->).
  rewrite Reserve_wvec, contents_wvec.
  change (Capacity (wvec xs rest)) with (length xs + length rest).
  change (size_ (wvec xs rest)) with (length xs).
  destruct (Nat.ltb_spec (length xs + length rest) n) as [Hlt|Hge].
  - destruct (existsb reloc_throws xs) eqn:Hthrows.
    + rewrite contents_wvec. unfold Capacity. simpl.
      rewrite length_reloc_residue.
      split_and!; try done; try lia.
      * by repeat constructor.
      * apply reloc_residue_rel.
      * intros Htraits. destruct (reloc_throws_cases _ Hthrows) as [[_ ->]|[Hc Hn]].
        -- done.
        -- destruct Htraits; congruence.
      * apply wf_wvec.
      * intros _ _. by eexists _, _.
    + rewrite contents_vec. unfold Capacity. simpl.
      split_and!; try done; try lia. apply wf_vec. lia.
  - rewrite contents_wvec. unfold Capacity. simpl.
    split_and!; try done; try lia.
Qed.

(** X2.  [Resize(n)] to at most the current size destroys the elements from
    index [n] on, whose slots become raw, and keeps the first [n] elements and
    the capacity; it releases nothing and cannot fail. *)
Theorem Resize_shrinks this n :
  wf this -> n <= size_ this ->
  exists this',
    Resize this n = (Ok this' tt, [])
    /\ size_ this' = n
    /\ contents this' = take n (contents this)
    /\ Capacity this' = Capacity this
    /\ (forall k, n <= k < size_ this -> slots this' !! k = Some None)
    /\ wf this'.
Proof.
  intros Hwf Hn. destruct (wf_inv this Hwf) as (xs & rest & ->).
  change (size_ (wvec xs rest)) with (length xs) in *.
  rewrite Resize_wvec, contents_wvec.
  destruct (Nat.eqb_spec n (length xs)) as [->|Hne].
  - exists (wvec xs rest). rewrite contents_wvec, take_ge by done.
    split_and!; try done. intros k; lia.
  - rewrite (proj2 (Nat.ltb_lt n (length xs))) by lia.
    eexists. split; [done|]. rewrite contents_wvec.
    change (size_ (wvec ?l ?r)) with (length l).
    split_and!; try done.
    + rewrite length_take. lia.
    + unfold Capacity. simpl.
      rewrite length_take, length_app, length_replicate. lia.
    + intros k [Hk1 Hk2]. unfold slots. simpl.
      rewrite lookup_app_r by (rewrite length_fmap, length_take; lia).
      rewrite lookup_app_l
        by (rewrite length_replicate, length_fmap, length_take; lia).
      apply lookup_replicate_2. rewrite length_fmap, length_take. lia.
    + apply wf_wvec.
Qed.

Lemma raw_prefix_raw (j : nat) rest :
  rest = replicate (length rest) None ->
  replicate j None ++ drop j rest
  = replicate (length (replicate j (@None T) ++ drop j rest)) None.
Proof.
  intros ->.
  by rewrite drop_replicate, <- replicate_add, !length_replicate.
Qed.

(** X3.  Provided [n * sizeof(T)] does not wrap around in [size_t]: a
    [Resize(n)] beyond the current size that returns has appended the
    value-initialised elements up to size [n]; the capacity is [n] when it
    was smaller and as it was otherwise.  One that throws leaves the size,
    leaves each element with its value or moved-from (with its value for a
    type that is copy-constructible or has a move constructor that cannot
    throw), and never lowers the capacity, which may have grown to [n]
    already; the elements it had value-initialised before the exception are
    destroyed again, so that from a vector with no object beyond its size
    the storage it releases holds no object and no object is left beyond
    the size.  When no relocation throws and one of the value
    initialisations throws, the call throws and the elements are as
    before. *)
Theorem Resize_grows this n :
  wf this -> size_ this < n -> fits T n = true ->
  match Resize this n with
  | (Ok this' _, rel) =>
      exists ds,
        value_inits 0 (n - size_ this) = Some ds
        /\ contents this' = contents this ++ ds
        /\ size_ this' = n
        /\ Capacity this' = Nat.max (Capacity this) n
        /\ rel = (if Capacity this <? n then [emptied this] else [])
        /\ wf this'
  | (Throw this', rel) =>
      size_ this' = size_ this
      /\ Capacity this <= Capacity this' <= Nat.max (Capacity this) n
      /\ Forall2 (fun x' x => x' = x \/ x' = moved_from x)
           (contents this') (contents this)
      /\ (is_copy_constructible = true \/ is_nothrow_move_constructible = true ->
          contents this' = contents this)
      /\ (clean this -> Forall raw rel /\ clean this')
      /\ wf this'
  | (UB, _) => False
  end
  /\ (existsb reloc_throws (contents this) = false ->
      value_inits 0 (n - size_ this) = None ->
      exists this' rel,
        Resize this n = (Throw this', rel) /\ contents this' = contents this).
Proof.
  intros Hwf Hn _. destruct (wf_inv this Hwf) as (xs & rest & ->).
  change (size_ (wvec xs rest)) with (length xs) in *.
  rewrite Resize_wvec, contents_wvec.
  change (Capacity (wvec xs rest)) with (length xs + length rest).
  rewrite (proj2 (Nat.eqb_neq n (length xs))) by lia.
  rewrite (proj2 (Nat.ltb_ge n (length xs))) by lia.
  destruct (Nat.ltb_spec (length xs + length rest) n) as [Hlt|Hge].
  - destruct (existsb reloc_throws xs) eqn:Hthrows.
    { rewrite contents_wvec. change (size_ (wvec ?l ?r)) with (length l).
      change (Capacity (wvec ?l ?r)) with (length l + length r).
      rewrite length_reloc_residue.
      split_and!; try done; try lia.
      - apply reloc_residue_rel.
      - intros Htraits. destruct (reloc_throws_cases _ Hthrows) as [[_ ->]|[Hc Hn']].
        + done.
        + destruct Htraits; congruence.
      - intros Hclean. split; [by repeat constructor|].
        apply clean_wvec. by apply clean_wvec in Hclean.
      - apply wf_wvec. }
    destruct (value_inits 0 (n - length xs)) as [ds|] eqn:Hds.
    + pose proof (length_value_inits _ _ _ Hds) as Hlen.
      split; [|done]. exists ds. rewrite contents_vec.
      change (size_ (vec ?l ?c)) with (length l).
      change (Capacity (vec ?l ?c)) with c.
      rewrite length_app, Hlen.
      split_and!; try done; try lia.
      apply wf_vec. rewrite length_app, Hlen. lia.
    + rewrite contents_vec. change (Capacity (vec ?l ?c)) with c.
      change (size_ (vec ?l ?c)) with (length l).
      split_and!; try done; try lia.
      * apply Forall2_or_same.
      * intros Hclean. split; [|apply clean_vec].
        repeat constructor. apply raw_emptied. by apply clean_wvec in Hclean.
      * apply wf_vec. lia.
      * intros _ _. eexists _, _. split; [done|]. apply contents_vec.
  - destruct (value_inits 0 (n - length xs)) as [ds|] eqn:Hds.
    + pose proof (length_value_inits _ _ _ Hds) as Hlen.
      split; [|done]. exists ds. rewrite contents_wvec.
      change (size_ (wvec ?l ?r)) with (length l).
      rewrite length_app, Hlen.
      split_and!; try done; try lia; [|apply wf_wvec].
      unfold Capacity. simpl.
      rewrite length_app, Hlen, length_drop. lia.
    + pose proof (value_inits_done_le (n - length xs) 0) as Hdone.
      rewrite contents_wvec.
      change (size_ (wvec ?l ?r)) with (length l).
      change (Capacity (wvec ?l ?r)) with (length l + length r).
      rewrite length_app, length_replicate, length_drop.
      split_and!; try done; try lia.
      * apply Forall2_or_same.
      * intros Hclean. split; [constructor|].
        apply clean_wvec, raw_prefix_raw. by apply clean_wvec in Hclean.
      * apply wf_wvec.
      * intros _ _. eexists _, _. split; [done|]. apply contents_wvec.
Qed.

(** X4.  [Resize] beyond the size and back restores the elements: the capacity
    is not given back. *)
Theorem Resize_grow_then_shrink this n this1 rel :
  wf this -> size_ this <= n ->
  Resize this n = (Ok this1 tt, rel) ->
  exists this2,
    Resize this1 (size_ this) = (Ok this2 tt, [])
    /\ contents this2 = contents this
    /\ size_ this2 = size_ this
    /\ Capacity this2 = Nat.max (Capacity this) n.
Proof.
  intros Hwf Hn. destruct (wf_inv this Hwf) as (xs & rest & ->).
  change (size_ (wvec xs rest)) with (length xs) in *.
  change (Capacity (wvec xs rest)) with (length xs + length rest).
  rewrite Resize_wvec, contents_wvec.
  destruct (Nat.eqb_spec n (length xs)) as [->|Hne].
  { intros [= <- <-]. exists (wvec xs rest).
    rewrite Resize_wvec, Nat.eqb_refl, contents_wvec.
    split_and!; try done. unfold Capacity. simpl. lia. }
  rewrite (proj2 (Nat.ltb_ge n (length xs))) by lia.
  assert (Htake : forall ds, take (length xs) (xs ++ ds) = xs).
  { intros ds. by rewrite take_app_length. }
  assert (Hlen : forall ds,
            value_inits 0 (n - length xs) = Some ds -> length (xs ++ ds) = n).
  { intros ds Hds. rewrite length_app, (length_value_inits _ _ _ Hds). lia. }
  destruct (Nat.ltb_spec (length xs + length rest) n) as [Hlt|Hge].
  - destruct (existsb reloc_throws xs); [done|].
    destruct (value_inits 0 (n - length xs)) as [ds|] eqn:Hds; [|done].
    specialize (Hlen ds eq_refl). intros [= <- <-].
    rewrite vec_wvec, Resize_wvec by (rewrite Hlen; lia).
    rewrite Hlen, (proj2 (Nat.eqb_neq (length xs) n)) by lia.
    rewrite (proj2 (Nat.ltb_lt (length xs) n)) by lia.
    eexists. split; [done|]. rewrite contents_wvec, Htake.
    change (size_ (wvec ?l ?r)) with (length l).
    split_and!; try done. unfold Capacity. simpl.
    rewrite length_app, !length_replicate. lia.
  - destruct (value_inits 0 (n - length xs)) as [ds|] eqn:Hds; [|done].
    specialize (Hlen ds eq_refl). intros [= <- <-].
    rewrite Resize_wvec.
    rewrite Hlen, (proj2 (Nat.eqb_neq (length xs) n)) by lia.
    rewrite (proj2 (Nat.ltb_lt (length xs) n)) by lia.
    eexists. split; [done|]. rewrite contents_wvec, Htake.
    change (size_ (wvec ?l ?r)) with (length l).
    split_and!; try done. unfold Capacity. simpl.
    rewrite length_app, length_replicate, length_drop. lia.
Qed.

(** *** Construction and destruction *)

(** X5.  Provided [n * sizeof(T)] does not wrap around in [size_t]: a
    [Vector(n)] that returns holds the [n] value-initialised elements in
    storage of exactly [n] slots.  When one of the value initialisations
    throws, the construction throws after destroying the elements built
    before it: no vector exists and the storage it releases holds no
    object. *)
Theorem Vector_sized_holds_defaults n :
  fits T n = true ->
  match Vector_sized n with
  | (Ok _ v, rel) =>
      size_ v = n
      /\ Capacity v = n
      /\ value_inits 0 n = Some (contents v)
      /\ rel = []
      /\ wf v
      /\ clean v
  | (Throw _, rel) => 0 < n /\ Forall raw rel
  | (UB, _) => False
  end
  /\ (value_inits 0 n = None ->
      exists rel, Vector_sized n = (Throw tt, rel) /\ Forall raw rel).
Proof.
  intros _. rewrite Vector_sized_spec.
  destruct (value_inits 0 n) as [ds|] eqn:Hds.
  - pose proof (length_value_inits _ _ _ Hds) as Hlen.
    rewrite contents_vec. change (size_ (vec ?l ?c)) with (length l).
    split_and!; try done; [by apply wf_vec; lia|apply clean_vec].
  - split_and!.
    + destruct n; [done|lia].
    + apply Forall_raw_new.
    + intros _. eexists. split; [done|]. apply Forall_raw_new.
Qed.

(** X6.  A copy construction that returns gives a vector with the source's
    elements whose capacity is the source's size, whatever the source's
    capacity.  One that throws releases only storage that holds no object:
    the elements copied before the exception are destroyed again.  When the
    copy constructor of an element throws, the construction throws. *)
Theorem Vector_copy_spec other :
  wf other ->
  match Vector_copy other with
  | (Ok _ v, rel) =>
      contents v = contents other
      /\ size_ v = size_ other
      /\ Capacity v = size_ other
      /\ rel = []
      /\ wf v
      /\ clean v
  | (Throw _, rel) => Forall raw rel
  | (UB, _) => False
  end
  /\ (existsb copy_throws (contents other) = true ->
      exists rel, Vector_copy other = (Throw tt, rel)).
Proof.
  intros Hwf. destruct (wf_inv other Hwf) as (ys & rest & ->).
  rewrite Vector_copy_wvec, contents_wvec.
  change (size_ (wvec ys rest)) with (length ys).
  destruct (existsb copy_throws ys).
  - split; [apply Forall_raw_new|]. intros _. by eexists.
  - rewrite contents_vec. split_and!; try done; try apply clean_vec.
    by apply wf_vec.
Qed.

(** X7.  The destructor destroys the elements and releases the storage: the
    slots below the size are raw in it and the others are as they were, so
    nothing is left in it when no object lived beyond the size. *)
Theorem Vector_destroy_spec this :
  wf this ->
  exists m,
    Vector_destroy this = Some [m]
    /\ capacity_ m = Capacity this
    /\ buffer_ m = raw_range (slots this) 0 (size_ this)
    /\ (clean this -> raw m).
Proof.
  intros Hwf. destruct (wf_inv this Hwf) as (xs & rest & ->).
  rewrite Vector_destroy_wvec, emptied_wvec. eexists. split; [done|].
  unfold raw, raw_range, slots. simpl.
  rewrite drop_app_length' by (by rewrite length_fmap).
  split_and!; try done.
  rewrite clean_wvec. intros ->. by rewrite length_replicate, <- replicate_add.
Qed.

(** X8.  [DestroyN(buffer + first, n)] is defined exactly when each of the [n]
    slots holds a live object; it makes these slots raw and touches no other
    slot. *)
Theorem DestroyN_spec n : forall (buf buf' : list (option T)) first,
  destroy_n buf first n = Some buf'
  <-> (forall i, first <= i < first + n -> is_Some (read buf i))
      /\ buf' = raw_range buf first n.
Proof.
  unfold raw_range.
  induction n as [|n IH]; intros buf buf' first; simpl.
  - rewrite Nat.add_0_r, take_drop. split.
    + intros [= <-]. split; [intros i; lia|done].
    + by intros [_ ->].
  - unfold Destroy. destruct (read buf first) as [x|] eqn:Hread.
    + apply read_Some_lookup in Hread.
      assert (Hlt : first < length buf) by (by eapply lookup_lt_Some).
      rewrite IH.
      assert (Hshape :
        take (S first) (<[first := None]> buf)
          ++ replicate n None ++ drop (S first + n) (<[first := None]> buf)
        = take first buf ++ (None :: replicate n None) ++ drop (first + S n) buf).
      { rewrite (take_S_r _ _ None) by (by apply list_lookup_insert_eq).
        rewrite take_insert_ge by done.
        rewrite drop_insert_lt by lia.
        rewrite <- app_assoc. simpl.
        by replace (S (first + n)) with (first + S n) by lia. }
      rewrite Hshape. split.
      * intros [Hlive ->]. split; [|done]. intros i Hi.
        destruct (decide (i = first)) as [->|Hne].
        -- exists x. by apply read_Some_lookup.
        -- destruct (Hlive i) as [y Hy]; [lia|]. exists y.
           apply read_Some_lookup in Hy. apply read_Some_lookup.
           by rewrite list_lookup_insert_ne in Hy.
      * intros [Hlive ->]. split; [|done]. intros i Hi.
        destruct (Hlive i) as [y Hy]; [lia|]. exists y.
        apply read_Some_lookup in Hy. apply read_Some_lookup.
        rewrite list_lookup_insert_ne by lia. done.
    + split; [done|]. intros [Hlive _].
      destruct (Hlive first) as [y Hy]; [lia|]. congruence.
Qed.

(** *** Element access *)

(** X9.  Under the invariant [operator[]] at an index below the size passes
    both assertions and yields the element at that index; at any other index
    its assertion fails.  [end()] is a valid address of the storage, [Size()]
    slots after [begin()]. *)
Theorem Vector_at_spec this index :
  wf this ->
  Vector_at this index = contents this !! index
  /\ (is_Some (Vector_at this index) <-> index < Size this)
  /\ RawMemory_plus (data_ this) (size_ this) = Some (Vector_end this)
  /\ Vector_end this - Vector_begin this = Size this.
Proof.
  intros Hwf. destruct (wf_inv this Hwf) as (xs & rest & ->).
  rewrite contents_wvec.
  assert (Hat : Vector_at (wvec xs rest) index = xs !! index).
  { unfold Vector_at, RawMemory_at. simpl.
    destruct (Nat.ltb_spec index (length xs)) as [Hlt|Hge].
    - rewrite (proj2 (Nat.ltb_lt index (length xs + length rest))) by lia.
      by apply (read_wvec xs rest).
    - symmetry. by apply lookup_ge_None_2. }
  rewrite Hat. unfold Size, Vector_end, Vector_begin, RawMemory_plus. simpl.
  split_and!; try done.
  - apply lookup_lt_is_Some.
  - by rewrite (leb_correct (length xs) (length xs + length rest)) by lia.
  - lia.
Qed.

(** *** Appending *)

Lemma raw_RawMemory_new n : raw (RawMemory_new (T := T) n).
Proof. done. Qed.

(** Appending to the abstract state, on both paths. *)
Lemma EmplaceBack_wvec xs rest a :
  EmplaceBack (wvec xs rest) a
  = match construct a (slots (wvec xs rest)) with
    | Ok _ x =>
        match rest with
        | _ :: rest' => (Ok (wvec (xs ++ [x]) rest') (length xs), [])
        | [] =>
            if existsb reloc_throws xs
            then (Throw (wvec (reloc_residue xs) []),
                  [RawMemory_new (Nat.max 1 (2 * length xs))])
            else (Ok (vec (xs ++ [x]) (Nat.max 1 (2 * length xs))) (length xs),
                  [RawMemory_new (length xs)])
        end
    | Throw _ =>
        (Throw (wvec xs rest),
         match rest with
         | _ :: _ => []
         | [] => [RawMemory_new (Nat.max 1 (2 * length xs))]
         end)
    | UB => (UB, [])
    end.
Proof.
  unfold EmplaceBack. change (size_ (wvec xs rest)) with (length xs).
  destruct rest as [|s rest]; [|apply Emplace_end_in_place].
  pose proof (Emplace_realloc xs [] a) as Hr. rewrite !app_nil_r in Hr.
  rewrite Hr. cbv zeta. simpl existsb.
  replace (if length xs =? 0 then 1 else length xs * 2)
    with (Nat.max 1 (2 * length xs))
    by (destruct (Nat.eqb_spec (length xs) 0); lia).
  done.
Qed.

(** X10.  [EmplaceBack] (and with it [PushBack]) appends: after a call that
    returns, the elements are the old ones followed by the new one, and the
    returned reference is to the new last element.  A call that throws
    leaves the size and the capacity and releases only storage that holds
    no object.  When the constructor of the new element throws, the call
    throws and the vector is exactly as before. *)
Theorem EmplaceBack_appends this a :
  wf this -> arg_ok a this ->
  match EmplaceBack this a with
  | (Ok this' it, rel) =>
      exists x,
        construct a (slots this) = Ok tt x
        /\ contents this' = contents this ++ [x]
        /\ size_ this' = size_ this + 1
        /\ it = size_ this
        /\ at_index this' it = Some x
        /\ PushBack this a = (Ok this' tt, rel)
        /\ wf this'
  | (Throw this', rel) =>
      size_ this' = size_ this
      /\ Capacity this' = Capacity this
      /\ Forall raw rel
      /\ PushBack this a = (Throw this', rel)
      /\ wf this'
  | (UB, _) => False
  end
  /\ (construct a (slots this) = Throw tt ->
      exists rel, EmplaceBack this a = (Throw this, rel)).
Proof.
  intros Hwf Harg. destruct (wf_inv this Hwf) as (xs & rest & ->).
  pose proof (construct_defined a xs rest Harg) as Hdef.
  unfold PushBack. rewrite EmplaceBack_wvec, contents_wvec.
  change (size_ (wvec xs rest)) with (length xs).
  change (Capacity (wvec xs rest)) with (length xs + length rest).
  destruct (construct a _) as [[] x|[]|]; [| |done].
  - split; [|done]. destruct rest as [|s rest].
    + destruct (existsb reloc_throws xs) eqn:Hthrows.
      * change (size_ (wvec ?l ?r)) with (length l).
        change (Capacity (wvec ?l ?r)) with (length l + length r).
        rewrite length_reloc_residue.
        split_and!; try done; [apply Forall_raw_new|apply wf_wvec].
      * exists x. rewrite contents_vec, vec_wvec, at_index_wvec
          by (rewrite length_snoc; lia).
        change (size_ (wvec ?l ?r)) with (length l).
        split_and!; try done.
        -- rewrite length_snoc. lia.
        -- by apply list_lookup_middle.
        -- apply wf_wvec.
    + exists x. rewrite contents_wvec, at_index_wvec.
      change (size_ (wvec ?l ?r)) with (length l).
      split_and!; try done.
      * rewrite length_snoc. lia.
      * by apply list_lookup_middle.
      * apply wf_wvec.
  - split; [|intros _; by eexists].
    split_and!; try done.
    destruct rest; [apply Forall_raw_new|apply Forall_raw_nil].
Qed.

(** X11.  A failed [PushBack] leaves the vector exactly as it was when the
    capacity suffices, and for any capacity when the element type is
    copy-constructible or has a move constructor that cannot throw; the
    storage it releases holds nothing. *)
Theorem PushBack_strong_guarantee this a :
  wf this ->
  size_ this + 1 <= Capacity this
  \/ is_copy_constructible = true \/ is_nothrow_move_constructible = true ->
  match PushBack this a with
  | (Throw this', rel) => this' = this /\ Forall raw rel
  | _ => True
  end.
Proof.
  intros Hwf Hcase. destruct (wf_inv this Hwf) as (xs & rest & ->).
  change (size_ (wvec xs rest)) with (length xs) in *.
  change (Capacity (wvec xs rest)) with (length xs + length rest) in *.
  unfold PushBack. rewrite EmplaceBack_wvec.
  destruct (construct a _) as [[] x|[]|]; [| |done].
  - destruct rest as [|s rest]; [|done].
    destruct (existsb reloc_throws xs) eqn:Hthrows; [|done]. simpl.
    split; [|by repeat constructor].
    destruct (reloc_throws_cases _ Hthrows) as [[_ ->]|[Hc Hn]]; [done|].
    simpl in Hcase. destruct Hcase as [?|[?|?]]; [lia|congruence..].
  - simpl. split; [done|]. destruct rest; by repeat constructor.
Qed.

(** X12.  [PopBack] undoes a successful [PushBack]: the elements and the size
    are those before the two calls; the capacity stays what [PushBack] made
    it, and the slot of the removed element is raw. *)
Theorem PushBack_then_PopBack this a this1 rel :
  wf this ->
  PushBack this a = (Ok this1 tt, rel) ->
  exists this2,
    PopBack this1 = (Ok this2 tt, [])
    /\ contents this2 = contents this
    /\ size_ this2 = size_ this
    /\ Capacity this2 = Capacity this1
    /\ slots this2 !! size_ this = Some None.
Proof.
  intros Hwf. destruct (wf_inv this Hwf) as (xs & rest & ->).
  unfold PushBack. rewrite EmplaceBack_wvec, contents_wvec.
  change (size_ (wvec xs rest)) with (length xs).
  assert (Hpop : forall x rest',
            exists this2,
              PopBack (wvec (xs ++ [x]) rest') = (Ok this2 tt, [])
              /\ contents this2 = xs
              /\ size_ this2 = length xs
              /\ Capacity this2 = Capacity (wvec (xs ++ [x]) rest')
              /\ slots this2 !! length xs = Some None).
  { intros x rest'. rewrite PopBack_wvec. eexists. split; [done|].
    rewrite contents_wvec. split_and!; try done.
    - unfold Capacity. simpl. rewrite length_snoc. lia.
    - apply slots_wvec_raw_lookup. }
  destruct (construct a _) as [[] x|[]|]; [|done..].
  destruct rest as [|s rest].
  - destruct (existsb reloc_throws xs); [done|]. simpl. intros [= <- <-].
    rewrite vec_wvec by (rewrite length_snoc; lia). apply Hpop.
  - simpl. intros [= <- <-]. apply Hpop.
Qed.

(** *** Insertion and removal *)

(** X13.  [Erase] at the returned position undoes a successful [Emplace]: the
    elements and the size are those before the two calls.  [Erase] fails only
    when a move assignment of an element behind the position throws. *)
Theorem Emplace_then_Erase this index a this1 it rel :
  wf this -> index <= size_ this ->
  Emplace this index a = (Ok this1 it, rel) ->
  match Erase this1 it with
  | (Ok this2 it2, rel2) =>
      contents this2 = contents this
      /\ size_ this2 = size_ this
      /\ it2 = index
      /\ Capacity this2 = Capacity this1
      /\ rel2 = []
  | (Throw this2, _) =>
      existsb move_assign_throws (drop index (contents this)) = true
  | (UB, _) => False
  end.
Proof.
  intros Hwf Hindex Hrun. destruct (wf_inv this Hwf) as (xs & rest & ->).
  change (size_ (wvec xs rest)) with (length xs) in *.
  pose proof (Emplace_wvec xs rest index a Hindex) as He.
  rewrite Hrun in He. destruct He as (x & _ & Hthis1 & -> & _).
  rewrite contents_wvec.
  pose proof (length_insert_at xs index x Hindex) as Hlen.
  assert (Hshape : exists rest1,
            this1 = wvec (take index xs ++ x :: drop index xs) rest1).
  { destruct rest as [|s rest]; [|by eexists].
    rewrite Hthis1, vec_wvec by lia. by eexists. }
  destruct Hshape as [rest1 ->]. clear Hthis1 Hrun.
  pose proof (Erase_wvec (take index xs) x (drop index xs) rest1) as Hd.
  rewrite length_take, Nat.min_l in Hd by lia.
  destruct (Erase _ index) as [[this2 it2|this2|] rel2]; [|by destruct Hd|done].
  destruct Hd as (-> & -> & ->). rewrite contents_wvec, take_drop.
  change (size_ (wvec xs ?r)) with (length xs).
  split_and!; try done. unfold Capacity. simpl. rewrite Hlen. lia.
Qed.

(** X14.  [Erase] of the last element is [PopBack]; the returned position is
    [end()]. *)
Theorem Erase_last_is_PopBack this :
  wf this -> 0 < size_ this ->
  exists this',
    Erase this (size_ this - 1) = (Ok this' (Vector_end this'), [])
    /\ PopBack this = (Ok this' tt, []).
Proof.
  intros Hwf Hpos. destruct (wf_inv this Hwf) as (xs & rest & ->).
  change (size_ (wvec xs rest)) with (length xs) in *.
  destruct xs as [|y ys _] using rev_ind; [simpl in Hpos; lia|].
  rewrite length_snoc, PopBack_wvec. eexists. split; [|done].
  pose proof (Erase_wvec ys y [] rest) as He.
  replace (S (length ys) - 1) with (length ys) by lia.
  destruct (Erase _ _) as [[this' it|this'|] rel].
  - destruct He as (-> & -> & ->). by rewrite app_nil_r.
  - by destruct He.
  - done.
Qed.

(** X15.  Also when it has to reallocate, [Insert] of a reference to one of
    the vector's own elements inserts the value that element had before the
    call: the new element is constructed in the new storage before any old
    element is relocated or destroyed.  This covers [PushBack(v[j])] on a
    full vector.  A call that throws leaves the size and the capacity,
    releases only storage that holds no object, and leaves the vector as it
    was for a type that is copy-constructible or has a move constructor that
    cannot throw.  When copying the element throws, the call throws and the
    vector is exactly as before. *)
Theorem Insert_own_element_realloc this index j :
  wf this -> Capacity this < size_ this + 1 -> index <= size_ this ->
  j < size_ this ->
  match Insert this index (ByCopyOwn j) with
  | (Ok this' it, rel) =>
      exists x,
        at_index this j = Some x
        /\ contents this' = take index (contents this) ++ x :: drop index (contents this)
        /\ at_index this' index = Some x
        /\ size_ this' = size_ this + 1
        /\ it = index
        /\ Capacity this' = Nat.max 1 (2 * Capacity this)
        /\ rel = [RawMemory_new (Capacity this)]
        /\ wf this'
  | (Throw this', rel) =>
      size_ this' = size_ this
      /\ Capacity this' = Capacity this
      /\ Forall raw rel
      /\ (is_copy_constructible = true \/ is_nothrow_move_constructible = true ->
          this' = this)
      /\ wf this'
  | (UB, _) => False
  end
  /\ (forall x, at_index this j = Some x -> copy_throws x = true ->
      exists rel, Insert this index (ByCopyOwn j) = (Throw this, rel)).
Proof.
  intros Hwf Hfull Hindex Hj. destruct (wf_inv this Hwf) as (xs & rest & ->).
  change (size_ (wvec xs rest)) with (length xs) in *.
  change (Capacity (wvec xs rest)) with (length xs + length rest) in *.
  destruct rest as [|s rest]; [|simpl in Hfull; lia].
  destruct (construct_own xs [] j Hj) as (y & Hy & Hcons).
  unfold Insert. rewrite contents_wvec, at_index_wvec.
  pose proof (Emplace_realloc (take index xs) (drop index xs) (ByCopyOwn j)) as Hr.
  rewrite take_drop, length_take, Nat.min_l in Hr by lia. rewrite Hr. clear Hr.
  cbv zeta. rewrite Hcons, Hy. simpl length. rewrite Nat.add_0_r.
  destruct (copy_throws y) eqn:Hcopy.
  { split; [|intros x _ _; by eexists].
    split_and!; try done. apply Forall_raw_new. }
  split; [|intros x [= <-]; congruence].
  destruct (existsb reloc_throws (take index xs)) eqn:Hpre.
  { change (size_ (wvec ?l ?r)) with (length l).
    change (Capacity (wvec ?l ?r)) with (length l + length r).
    rewrite length_app, length_reloc_residue, length_take, length_drop.
    split_and!; try done; try (simpl; lia).
    - apply Forall_raw_new.
    - intros Htraits. destruct (reloc_throws_cases _ Hpre) as [[_ ->]|[Hc Hn]].
      + by rewrite take_drop.
      + destruct Htraits; congruence.
    - apply wf_wvec. }
  destruct (existsb reloc_throws (drop index xs)) eqn:Hpost.
  { change (size_ (wvec ?l ?r)) with (length l).
    change (Capacity (wvec ?l ?r)) with (length l + length r).
    rewrite length_app, !length_reloc_residue, length_take, length_drop.
    split_and!; try done; try (simpl; lia).
    - apply Forall_raw_new.
    - intros Htraits. destruct (reloc_throws_cases _ Hpost) as [[Hcopy' _]|[Hc Hn]].
      + by rewrite !reloc_residue_by_copy, take_drop.
      + destruct Htraits; congruence.
    - apply wf_wvec. }
  exists y. rewrite contents_vec.
  pose proof (length_insert_at xs index y Hindex) as Hlen.
  assert (Hcap : length xs + 1 <= if length xs =? 0 then 1 else length xs * 2)
    by (destruct (Nat.eqb_spec (length xs) 0); lia).
  rewrite vec_wvec, at_index_wvec by (rewrite Hlen; lia).
  change (size_ (wvec ?l ?r)) with (length l).
  split_and!; try done.
  - apply list_lookup_middle. rewrite length_take. lia.
  - unfold Capacity. simpl. rewrite Hlen, length_replicate.
    destruct (Nat.eqb_spec (length xs) 0); lia.
  - apply wf_wvec.
Qed.

(** *** What every call keeps *)

(** The size after a throw and the capacity after any outcome, call by
    call. *)
Lemma run_outcome (c : call T) xs rest :
  admissible c (wvec xs rest) ->
  match run c (wvec xs rest) with
  | Ok this' _ =>
      match c with
      | Call_Swap _ | Call_move_assign (Other _) => True
      | _ => length xs + length rest <= Capacity this'
      end
  | Throw this' =>
      size_ this' = length xs
      /\ length (contents this') = length xs
      /\ length xs + length rest <= Capacity this'
  | UB => False
  end.
Proof.
  intros Hadm.
  assert (Hemplace : forall index a,
            index <= length xs -> arg_ok a (wvec xs rest) ->
            match fst (discard (Emplace (wvec xs rest) index a)) with
            | Ok this' _ => length xs + length rest <= Capacity this'
            | Throw this' =>
                size_ this' = length xs
                /\ length (contents this') = length xs
                /\ length xs + length rest <= Capacity this'
            | UB => False
            end).
  { intros index a Hindex Harg.
    pose proof (Emplace_wvec xs rest index a Hindex) as He.
    destruct (Emplace _ _ _) as [[this' it|this'|] rel] eqn:Hrun; simpl.
    - destruct (Emplace_capacity xs rest index a this' it rel Hindex Hrun)
        as (_ & -> & _).
      destruct (_ <=? _); lia.
    - destruct He as [(zs & rest' & -> & Hzs & Hrest') _].
      rewrite contents_wvec. unfold Capacity. simpl. lia.
    - by apply (construct_defined a xs rest). }
  destruct c as [r|r|n|a|a| |index a|index a|index|other|n]; simpl in Hadm |- *.
  - destruct r as [|other]; [unfold Capacity; simpl; lia|].
    destruct (wf_inv other Hadm) as (ys & rest2 & ->).
    pose proof (copy_assign_wvec xs rest ys rest2) as Hc.
    destruct (copy_assign _ _) as [[this' []|this'|] rel]; simpl; [| |done].
    + destruct (Nat.ltb_spec (length xs + length rest) (length ys)).
      * destruct Hc as [-> _]. unfold Capacity. simpl. lia.
      * destruct Hc as [_ ->]. unfold Capacity. simpl.
        destruct (Nat.ltb_spec (length xs) (length ys)).
        -- rewrite length_drop. lia.
        -- rewrite length_app, length_replicate. lia.
    + destruct Hc as [_ Hc].
      destruct (Nat.ltb_spec (length xs + length rest) (length ys)).
      * destruct Hc as [-> _]. rewrite contents_wvec. unfold Capacity. simpl. lia.
      * destruct Hc as (_ & zs & rest' & -> & Hzs & Hrest').
        rewrite contents_wvec. unfold Capacity. simpl. lia.
  - destruct r as [|other]; [unfold Capacity; simpl; lia|done].
  - rewrite Resize_wvec.
    destruct (Nat.eqb_spec n (length xs)); [unfold Capacity; simpl; lia|].
    destruct (Nat.ltb_spec n (length xs)).
    { unfold Capacity. simpl.
      rewrite length_take, length_app, length_replicate. lia. }
    destruct (Nat.ltb_spec (length xs + length rest) n).
    + destruct (existsb reloc_throws xs); simpl.
      { rewrite contents_wvec, length_reloc_residue. unfold Capacity. simpl.
        rewrite length_reloc_residue. lia. }
      destruct (value_inits 0 (n - length xs)) as [ds|] eqn:Hds; simpl.
      * unfold Capacity. simpl. lia.
      * rewrite contents_vec. unfold Capacity. simpl. lia.
    + pose proof (value_inits_done_le (n - length xs) 0) as Hdone.
      destruct (value_inits 0 (n - length xs)) as [ds|] eqn:Hds; simpl.
      * unfold Capacity. simpl.
        rewrite length_app, (length_value_inits _ _ _ Hds), length_drop. lia.
      * rewrite contents_wvec. unfold Capacity. simpl.
        rewrite length_app, length_replicate, length_drop. lia.
  - apply (Hemplace (length xs) a); [done|done].
  - apply (Hemplace (length xs) a); [done|done].
  - destruct xs as [|y ys _] using rev_ind.
    + rewrite PopBack_empty by done. unfold Capacity. simpl. lia.
    + rewrite PopBack_wvec. unfold Capacity. simpl. rewrite length_snoc. lia.
  - destruct Hadm. by apply Hemplace.
  - destruct Hadm. by apply Hemplace.
  - pose proof (Erase_wvec_index xs rest index Hadm) as He.
    destruct (Erase _ _) as [[this' it|this'|] rel]; simpl; [| |done].
    + destruct He as (-> & _). unfold Capacity. simpl.
      rewrite length_app, length_take, length_drop. lia.
    + destruct He as (_ & zs & Hzs & ->). rewrite contents_wvec.
      unfold Capacity. simpl. lia.
  - done.
  - rewrite Reserve_wvec.
    destruct (Nat.ltb_spec (length xs + length rest) n);
      [|unfold Capacity; simpl; lia].
    destruct (existsb reloc_throws xs); simpl.
    + rewrite contents_wvec, length_reloc_residue. unfold Capacity. simpl.
      rewrite length_reloc_residue. lia.
    + unfold Capacity. simpl. lia.
Qed.

(** X16.  No member function other than [Swap] and move assignment, which
    exchange the storage with another vector, ever lowers the capacity,
    whether it returns or throws: shrinking by [Resize], [PopBack], [Erase]
    or copy assignment keeps the storage.  ([Reserve(n)] and [Resize(n)]
    are taken with an [n] whose byte count does not wrap around in
    [size_t].) *)
Theorem capacity_never_shrinks (c : call T) this :
  wf this -> admissible c this -> call_fits c = true ->
  match c with
  | Call_Swap _ | Call_move_assign (Other _) => True
  | _ =>
      match run c this with
      | Ok this' _ => Capacity this <= Capacity this'
      | Throw this' => Capacity this <= Capacity this'
      | UB => False
      end
  end.
Proof.
  intros Hwf Hadm _. destruct (wf_inv this Hwf) as (xs & rest & ->).
  pose proof (run_outcome c xs rest Hadm) as Hr.
  change (Capacity (wvec xs rest)) with (length xs + length rest).
  destruct c as [r|[|other]|n|a|a| |index a|index a|index|other|n]; try done;
    by destruct (run _ _) as [this' []|this'|]; try done; destruct Hr as (_ & _ & ?).
Qed.

(** X17.  A member function that throws leaves [Size()] as it was, with a live
    element at every index below it. *)
Theorem failure_keeps_size (c : call T) this :
  wf this -> admissible c this ->
  match run c this with
  | Throw this' =>
      size_ this' = size_ this /\ length (contents this') = length (contents this)
  | _ => True
  end.
Proof.
  intros Hwf Hadm. destruct (wf_inv this Hwf) as (xs & rest & ->).
  pose proof (run_outcome c xs rest Hadm) as Hr. rewrite contents_wvec.
  destruct (run _ _) as [this' []|this'|]; try done. by destruct Hr as (? & ? & _).
Qed.

(** X18.  Copy assignment that fails leaves the size and the capacity as they
    were.  On the path that builds a copy first (the capacity is too small)
    the vector is exactly as before and the storage of the copy is released
    with nothing in it; on the path that reuses the storage nothing is
    released, and elements already assigned keep their new values. *)
Theorem copy_assign_failure this other :
  wf this -> wf other ->
  match copy_assign this (Other other) with
  | (Throw this', rel) =>
      size_ this' = size_ this
      /\ Capacity this' = Capacity this
      /\ (Capacity this < size_ other ->
          this' = this /\ rel = [RawMemory_new (size_ other)])
      /\ (size_ other <= Capacity this -> rel = [])
      /\ wf this'
  | _ => True
  end.
Proof.
  intros Hwf Hwf'. destruct (wf_inv this Hwf) as (xs & rest & ->).
  destruct (wf_inv other Hwf') as (ys & rest2 & ->).
  pose proof (copy_assign_wvec xs rest ys rest2) as Hc.
  change (size_ (wvec ys rest2)) with (length ys).
  change (size_ (wvec xs rest)) with (length xs).
  change (Capacity (wvec xs rest)) with (length xs + length rest).
  destruct (copy_assign _ _) as [[this' []|this'|] rel]; [done| |done].
  destruct Hc as [_ Hc].
  destruct (Nat.ltb_spec (length xs + length rest) (length ys)) as [Hlt|Hge].
  - destruct Hc as [-> ->]. split_and!; try done. intros; lia.
  - destruct Hc as (-> & zs & rest' & -> & Hzs & Hrest').
    change (size_ (wvec ?l ?r)) with (length l).
    split_and!; try done.
    + unfold Capacity. simpl. lia.
    + intros; lia.
    + apply wf_wvec.
Qed.

(** *** Released storage *)

Lemma snd_discard {R : Type} (r : result T R) : snd (discard r) = snd r.
Proof. by destruct r as [[this' it|this'|] rel]. Qed.

Lemma fst_discard_clean {R : Type} (r : result T R) :
  match fst r with Ok this' _ => clean this' | _ => True end ->
  match fst (discard r) with Ok this' _ => clean this' | _ => True end.
Proof. by destruct r as [[this' it|this'|] rel]. Qed.

(** What [Emplace] releases holds nothing, and a successful [Emplace] leaves
    no object beyond the size when there was none. *)
Lemma Emplace_released xs rest index a :
  index <= length xs -> arg_ok a (wvec xs rest) ->
  Forall raw (snd (Emplace (wvec xs rest) index a))
  /\ (rest = replicate (length rest) None ->
      match fst (Emplace (wvec xs rest) index a) with
      | Ok this' _ => clean this'
      | _ => True
      end).
Proof.
  intros Hindex Harg. pose proof (construct_defined a xs rest Harg) as Hdef.
  split.
  - destruct rest as [|s rest].
    + pose proof (Emplace_realloc (take index xs) (drop index xs) a) as Hr.
      rewrite take_drop, length_take, Nat.min_l in Hr by lia. rewrite Hr.
      cbv zeta. destruct (construct a _) as [[] x|[]|]; simpl.
      * destruct (existsb reloc_throws (take index xs)); [apply Forall_raw_new|].
        destruct (existsb reloc_throws (drop index xs)); apply Forall_raw_new.
      * apply Forall_raw_new.
      * apply Forall_raw_nil.
    + destruct (decide (index = length xs)) as [->|Hne].
      * rewrite Emplace_end_in_place.
        destruct (construct a _) as [[] x|[]|]; apply Forall_raw_nil.
      * destruct (split_before_last xs index) as (mid & l & Hdrop); [lia|].
        assert (Hxs : xs = take index xs ++ mid ++ [l])
          by (by rewrite <- Hdrop, take_drop).
        pose proof (Emplace_middle_in_place (take index xs) mid l s rest a) as Hm.
        rewrite <- Hxs, length_take, Nat.min_l in Hm by lia.
        destruct (Emplace _ index a) as [[this' it|this'|] rel]; simpl.
        -- destruct Hm as (x & _ & _ & _ & ->). apply Forall_raw_nil.
        -- destruct Hm as (-> & _). apply Forall_raw_nil.
        -- done.
  - intros Hraw. destruct (Emplace _ _ _) as [[this' it|this'|] rel] eqn:Hrun;
      simpl; try done.
    destruct (Emplace_capacity xs rest index a this' it rel Hindex Hrun)
      as (_ & _ & _ & _ & Hclean).
    apply Hclean. by apply clean_wvec.
Qed.

(** X19.  From a vector with no object beyond its size, every storage that a
    member function releases holds no object, whether the call returns or
    throws: each object it held was destroyed first.  A call that returns
    leaves again no object beyond the size. *)
Theorem released_storage_is_raw (c : call T) this :
  wf this -> clean this -> admissible c this -> partner_clean c ->
  Forall raw (released c this)
  /\ match run c this with
     | Ok this' _ => clean this'
     | _ => True
     end.
Proof.
  intros Hwf Hclean Hadm Hpartner. destruct (wf_inv this Hwf) as (xs & rest & ->).
  apply clean_wvec in Hclean.
  assert (Hdrop : forall k, drop k rest = replicate (length (drop k rest)) None).
  { intros k. rewrite Hclean at 1. by rewrite drop_replicate, length_drop. }
  assert (Hmore : forall k,
            replicate k None ++ rest
            = replicate (length (replicate k (@None T) ++ rest)) None).
  { intros k. rewrite Hclean at 1.
    by rewrite length_app, length_replicate, <- replicate_add. }
  destruct c as [r|r|n|a|a| |index a|index a|index|other|n];
    simpl in Hadm, Hpartner |- *.
  - destruct r as [|other]; [split; [apply Forall_raw_nil|by apply clean_wvec]|].
    destruct (wf_inv other Hadm) as (ys & rest2 & ->).
    pose proof (copy_assign_wvec xs rest ys rest2) as Hc.
    destruct (copy_assign _ _) as [[this' []|this'|] rel]; simpl; [| |done].
    + destruct (Nat.ltb_spec (length xs + length rest) (length ys)).
      * destruct Hc as [-> ->]. split; [by apply Forall_raw_emptied|apply clean_vec].
      * destruct Hc as [-> ->]. split; [apply Forall_raw_nil|].
        apply clean_wvec. destruct (_ <? _); [apply Hdrop|apply Hmore].
    + destruct Hc as [_ Hc]. split; [|done].
      destruct (Nat.ltb_spec (length xs + length rest) (length ys)).
      * destruct Hc as [_ ->]. apply Forall_raw_new.
      * destruct Hc as [-> _]. apply Forall_raw_nil.
  - split; [apply Forall_raw_nil|]. destruct r as [|other]; [by apply clean_wvec|].
    by destruct other as [[b2 c2] s2].
  - rewrite Resize_wvec.
    destruct (Nat.eqb_spec n (length xs));
      [split; [apply Forall_raw_nil|by apply clean_wvec]|].
    destruct (Nat.ltb_spec n (length xs)).
    { split; [apply Forall_raw_nil|]. apply clean_wvec, Hmore. }
    destruct (Nat.ltb_spec (length xs + length rest) n).
    + destruct (existsb reloc_throws xs); simpl; [split; [apply Forall_raw_new|done]|].
      destruct (value_inits 0 (n - length xs)) as [ds|]; simpl.
      * split; [by apply Forall_raw_emptied|apply clean_vec].
      * split; [by apply Forall_raw_emptied|done].
    + destruct (value_inits 0 (n - length xs)) as [ds|]; simpl.
      * split; [apply Forall_raw_nil|]. apply clean_wvec, Hdrop.
      * split; [apply Forall_raw_nil|done].
  - destruct (Emplace_released xs rest (length xs) a (le_n _) Hadm) as [Hrel Hok].
    split; [done|]. by apply fst_discard_clean, Hok.
  - destruct (Emplace_released xs rest (length xs) a (le_n _) Hadm) as [Hrel Hok].
    unfold PushBack. rewrite snd_discard.
    split; [done|]. by apply fst_discard_clean, Hok.
  - destruct xs as [|y ys _] using rev_ind.
    + rewrite PopBack_empty by done. split; [apply Forall_raw_nil|by apply clean_wvec].
    + rewrite PopBack_wvec. split; [apply Forall_raw_nil|].
      apply clean_wvec. simpl. by rewrite <- Hclean.
  - destruct Hadm as [Hindex Harg].
    destruct (Emplace_released xs rest index a Hindex Harg) as [Hrel Hok].
    split; [done|]. by apply fst_discard_clean, Hok.
  - destruct Hadm as [Hindex Harg].
    destruct (Emplace_released xs rest index a Hindex Harg) as [Hrel Hok].
    split; [done|]. by apply fst_discard_clean, Hok.
  - destruct (lookup_lt_is_Some_2 xs index Hadm) as [x Hx].
    pose proof (Erase_wvec (take index xs) x (drop (S index) xs) rest) as He.
    rewrite (take_drop_middle xs index x Hx), length_take, Nat.min_l in He by lia.
    destruct (Erase (wvec xs rest) index) as [[this' it|this'|] rel]; simpl.
    + destruct He as (-> & _ & ->). split; [apply Forall_raw_nil|].
      apply clean_wvec. simpl. by rewrite <- Hclean.
    + destruct He as (_ & -> & _). split; [apply Forall_raw_nil|done].
    + done.
  - split; [apply Forall_raw_nil|]. by destruct other as [[b2 c2] s2].
  - rewrite Reserve_wvec.
    destruct (Nat.ltb_spec (length xs + length rest) n);
      [|split; [apply Forall_raw_nil|by apply clean_wvec]].
    destruct (existsb reloc_throws xs); simpl.
    + split; [apply Forall_raw_new|done].
    + split; [by apply Forall_raw_emptied|apply clean_vec].
Qed.

(** *** Reserved capacity *)

Lemma arg_ok_snoc a xs x rest rest' :
  arg_ok a (wvec xs rest) -> arg_ok a (wvec (xs ++ [x]) rest').
Proof.
  destruct a as [made|y|j|y]; try done. simpl. rewrite length_snoc. lia.
Qed.

(** Pushes that fit the capacity keep the storage. *)
Lemma pushes_within_capacity (args : list (arg T)) : forall xs rest,
  length args <= length rest ->
  Forall (fun a => arg_ok a (wvec xs rest)) args ->
  steps_released (wvec xs rest) (Push <$> args) = []
  /\ match run_steps (wvec xs rest) (Push <$> args) with
     | Ok this2 _ =>
         Capacity this2 = length xs + length rest
         /\ size_ this2 = length xs + length args
         /\ take (length xs) (contents this2) = xs
     | Throw this2 => Capacity this2 = length xs + length rest
     | UB => False
     end.
Proof.
  induction args as [|a args IH]; intros xs rest Hfit Hargs; simpl.
  - split; [done|]. rewrite contents_wvec, take_ge by done.
    unfold Capacity. simpl. split_and!; try done; lia.
  - inversion Hargs as [|? ? Ha Hargs']; subst.
    pose proof (construct_defined a xs rest Ha) as Hdef.
    destruct rest as [|s rest]; [simpl in Hfit; lia|].
    unfold PushBack. rewrite EmplaceBack_wvec.
    destruct (construct a _) as [[] x|[]|]; simpl; [| |done].
    + change (list_fmap (arg T) (step T) Push args) with (Push <$> args).
      destruct (IH (xs ++ [x]) rest) as [Hrel Hrun].
      * simpl in Hfit. lia.
      * eapply List.Forall_impl; [|exact Hargs']. intros a'. apply arg_ok_snoc.
      * rewrite Hrel. split; [done|].
        destruct (run_steps _ _) as [this2 []|this2|]; [| |done].
        -- destruct Hrun as (-> & -> & Htake). rewrite length_snoc.
           split_and!; try lia.
           rewrite length_snoc in Htake.
           apply (f_equal (take (length xs))) in Htake.
           rewrite take_take, Nat.min_l, take_app_length in Htake by lia. done.
        -- rewrite Hrun, length_snoc. lia.
    + unfold Capacity. simpl. done.
Qed.

(** X20.  After a [Reserve(n)] that returned (with an [n] whose byte count
    does not wrap around in [size_t]) the capacity is at least [n], and
    [PushBack] calls that bring the size to at most [n] never reallocate:
    they release no storage, keep the capacity, and keep the elements that
    were there. *)
Theorem Reserve_then_PushBack this n this1 rel (args : list (arg T)) :
  wf this -> fits T n = true ->
  Reserve this n = (Ok this1 tt, rel) ->
  size_ this + length args <= n ->
  Forall (fun a => arg_ok a this) args ->
  n <= Capacity this1
  /\ steps_released this1 (Push <$> args) = []
  /\ match run_steps this1 (Push <$> args) with
     | Ok this2 _ =>
         Capacity this2 = Capacity this1
         /\ size_ this2 = size_ this + length args
         /\ take (size_ this) (contents this2) = contents this
     | Throw this2 => Capacity this2 = Capacity this1
     | UB => False
     end.
Proof.
  intros Hwf _ Hres Hfit Hargs. destruct (wf_inv this Hwf) as (xs & rest & ->).
  change (size_ (wvec xs rest)) with (length xs) in *.
  rewrite contents_wvec.
  assert (Hshape : exists rest1,
            this1 = wvec xs rest1 /\ n <= length xs + length rest1).
  { rewrite Reserve_wvec in Hres.
    destruct (Nat.ltb_spec (length xs + length rest) n) as [Hlt|Hge].
    - destruct (existsb reloc_throws xs); [done|]. injection Hres as <- _.
      rewrite vec_wvec by lia. eexists. split; [done|].
      rewrite length_replicate. lia.
    - injection Hres as <- _. by exists rest. }
  destruct Hshape as (rest1 & -> & Hn).
  change (Capacity (wvec xs rest1)) with (length xs + length rest1).
  split; [done|]. apply pushes_within_capacity; [lia|].
  eapply List.Forall_impl; [|exact Hargs]. intros a. by destruct a.
Qed.


(** *** Failure of an insertion in place *)

(** Shifting a run of elements one slot toward the back succeeds exactly
    when no move assignment from one of them throws. *)
Lemma std_move_backward_outcome xs : forall pre y (post : list (option T)) first d_last,
  first = length pre -> d_last = S (length pre + length xs) ->
  match std_move_backward (pre ++ (Some <$> xs) ++ Some y :: post) first
          (length xs) d_last with
  | Ok d _ =>
      existsb move_assign_throws xs = false
      /\ exists z, d = pre ++ Some z :: (Some <$> xs) ++ post
  | Throw d =>
      existsb move_assign_throws xs = true
      /\ exists zs, length zs = S (length xs) /\ d = pre ++ (Some <$> zs) ++ post
  | UB => False
  end.
Proof.
  induction xs as [|x xs IH] using rev_ind; intros pre y post first d_last -> ->.
  - simpl. split; [done|]. by exists y.
  - rewrite length_snoc. simpl.
    rewrite fmap_app. simpl. rewrite <- (app_assoc (Some <$> xs)). simpl.
    rewrite (app_assoc pre).
    rewrite move_assign_within_up
      by (rewrite length_app, length_fmap; lia).
    rewrite existsb_app. simpl. rewrite orb_false_r.
    destruct (move_assign_throws x); simpl.
    + split; [apply orb_true_r|]. exists (xs ++ [x; y]).
      split; [rewrite length_app; simpl; lia|].
      rewrite fmap_app, <- !app_assoc. done.
    + rewrite <- (app_assoc pre).
      specialize (IH pre (moved_from x) (Some x :: post) (length pre)
                    (length pre + S (length xs))).
      destruct (std_move_backward _ _ _ _) as [d []|d|].
      * destruct IH as [Hex [z ->]]; [done|lia|].
        split; [by rewrite Hex|]. exists z. by rewrite <- !app_assoc.
      * destruct IH as [Hex [zs [Hzs ->]]]; [done|lia|].
        split; [by rewrite Hex|]. exists (zs ++ [x]).
        split; [rewrite length_snoc; lia|].
        rewrite fmap_app, <- !app_assoc. done.
      * apply IH; [done|lia].
Qed.

(** Insertion before the end when the capacity suffices and the new element
    has been constructed: what decides the outcome. *)
Lemma Emplace_middle_in_place_outcome pre mid l (s : option T) rest a x :
  construct a (slots (wvec (pre ++ mid ++ [l]) (s :: rest))) = Ok tt x ->
  if reloc_throws l then
    Emplace (wvec (pre ++ mid ++ [l]) (s :: rest)) (length pre) a
    = (Throw (wvec (pre ++ mid ++ [l]) (s :: rest)), [])
  else if existsb move_assign_throws mid || move_assign_throws x then
    exists zs,
      Emplace (wvec (pre ++ mid ++ [l]) (s :: rest)) (length pre) a
      = (Throw (wvec zs (Some l :: rest)), [])
      /\ length zs = length (pre ++ mid ++ [l])
  else
    Emplace (wvec (pre ++ mid ++ [l]) (s :: rest)) (length pre) a
    = (Ok (wvec (pre ++ x :: mid ++ [l]) rest) (length pre), []).
Proof.
  set (xs := pre ++ mid ++ [l]) in *. set (this := wvec xs (s :: rest)).
  intros Hx.
  assert (Hlen : length xs = S (length pre + length mid)).
  { unfold xs. rewrite !length_app. simpl. lia. }
  remember (Emplace this (length pre) a) as res eqn:Hres.
  unfold Emplace in Hres.
  change (size_ this) with (length xs) in Hres.
  change (Capacity this) with (length xs + S (length rest)) in Hres.
  rewrite (leb_correct (length pre) (length xs)) in Hres by lia.
  rewrite (leb_correct (length xs + 1) _) in Hres by lia.
  rewrite (proj2 (Nat.eqb_neq (length pre) (length xs))) in Hres by lia.
  simpl negb in Hres. cbv iota in Hres. rewrite Hx in Hres.
  change (slots this) with ((Some <$> xs) ++ s :: rest) in Hres.
  rewrite take_app_length', drop_app_length' in Hres by (by rewrite length_fmap).
  unfold xs in Hres at 1.
  rewrite (app_assoc pre mid [l]), (fmap_app Some (pre ++ mid) [l]) in Hres.
  change (Some <$> [l]) with [Some l] in Hres.
  pose proof (CopyOrMoveNElem_one (Some <$> (pre ++ mid)) l [] [] s rest
                (length xs - 1) 0) as Hreloc.
  simpl in Hreloc.
  rewrite Hreloc in Hres by (rewrite ?length_fmap, ?length_app; simpl; lia).
  clear Hreloc.
  destruct (reloc_throws l) eqn:Hl.
  { rewrite Hres. simpl. do 2 f_equal.
    unfold this, with_slots, with_buffer, wvec, xs. simpl.
    by rewrite !fmap_app, <- !app_assoc. }
  pose proof (length_reloc_residue [l]) as Hr.
  destruct (reloc_residue [l]) as [|r [|? ?]]; try done. clear Hr.
  simpl in Hres. rewrite fmap_app, <- !app_assoc in Hres. simpl in Hres.
  pose proof (std_move_backward_outcome mid (Some <$> pre) r
                (Some l :: rest) (length pre) (length xs)) as Hshift.
  replace (length xs - 1 - length pre) with (length mid) in Hres by lia.
  destruct (std_move_backward _ _ _ _) as [d []|d|].
  - destruct Hshift as [-> [z ->]]; [rewrite ?length_fmap; lia..|].
    rewrite move_assign_at_middle in Hres by (by rewrite length_fmap).
    simpl orb. destruct (move_assign_throws x) eqn:Hxt.
    + exists (pre ++ z :: mid). rewrite Hres. split.
      * do 2 f_equal. unfold this, with_slots, with_buffer, wvec. simpl.
        rewrite fmap_app, <- app_assoc, length_app. simpl. fields.
      * rewrite length_app. simpl. lia.
    + rewrite Hres. unfold this, with_buffer, wvec. simpl. list_norm. fields.
  - destruct Hshift as [-> (zs & Hzs & ->)]; [rewrite ?length_fmap; lia..|].
    simpl orb. exists (pre ++ zs). rewrite Hres. split.
    + do 2 f_equal. unfold this, with_slots, with_buffer, wvec. simpl.
      rewrite fmap_app, <- app_assoc, length_app. fields.
    + rewrite length_app. lia.
  - exfalso. apply Hshift; rewrite ?length_fmap; lia.
Qed.

(** X22.  When the capacity suffices, an [Emplace] that throws releases
    nothing and leaves the size and the capacity; the vector is exactly as
    before when the position is [end()].  When the constructor of the new
    element throws, the call throws and the vector is exactly as before; so
    it is, before the end, when relocating the last element throws.  When
    that relocation succeeds and a move assignment throws afterwards (that
    of an element shifted toward the back, or that of the new element into
    its position), the call throws and the copy of the last element
    constructed in the slot behind the size stays there: an object lives
    beyond the size.  (The temporary that holds the new element is taken to
    be allocated.) *)
Theorem Emplace_in_place_failure this index a :
  wf this -> size_ this + 1 <= Capacity this -> index <= size_ this ->
  match Emplace this index a with
  | (Throw this', rel) =>
      rel = []
      /\ size_ this' = size_ this
      /\ Capacity this' = Capacity this
      /\ (index = size_ this -> this' = this)
      /\ wf this'
  | _ => True
  end
  /\ (construct a (slots this) = Throw tt ->
      Emplace this index a = (Throw this, []))
  /\ (forall x l,
        index < size_ this ->
        construct a (slots this) = Ok tt x ->
        at_index this (size_ this - 1) = Some l ->
        (reloc_throws l = true -> Emplace this index a = (Throw this, []))
        /\ (reloc_throws l = false ->
            existsb move_assign_throws
              (take (size_ this - 1 - index) (drop index (contents this))) = true
            \/ move_assign_throws x = true ->
            exists this',
              Emplace this index a = (Throw this', [])
              /\ slots this' !! size_ this = Some (Some l)
              /\ ~ clean this')).
Proof.
  intros Hwf Hfit Hindex. destruct (wf_inv this Hwf) as (xs & rest & ->).
  change (size_ (wvec xs rest)) with (length xs) in *.
  change (Capacity (wvec xs rest)) with (length xs + length rest) in *.
  destruct rest as [|s rest]; [simpl in Hfit; lia|].
  rewrite contents_wvec, at_index_wvec.
  destruct (decide (index = length xs)) as [->|Hne].
  { rewrite Emplace_end_in_place. split_and!.
    - by destruct (construct a _) as [[] x|[]|].
    - by intros ->.
    - intros x l Hlt. lia. }
  destruct (split_before_last xs index) as (mid & l' & Hdrop); [lia|].
  assert (Hxs : xs = take index xs ++ mid ++ [l'])
    by (by rewrite <- Hdrop, take_drop).
  assert (Hmid : length mid = length xs - 1 - index).
  { apply (f_equal length) in Hdrop.
    rewrite length_drop, length_snoc in Hdrop. lia. }
  assert (Hlast : xs !! (length xs - 1) = Some l').
  { rewrite Hxs at 2. rewrite !app_assoc.
    apply list_lookup_middle. rewrite Hxs at 1.
    rewrite !app_assoc, length_snoc. lia. }
  split_and!.
  - pose proof (Emplace_middle_in_place (take index xs) mid l' s rest a) as Hm.
    rewrite <- Hxs, length_take, Nat.min_l in Hm by lia.
    destruct (Emplace _ index a) as [[this' it|this'|] rel]; try done.
    destruct Hm as (-> & (zs & rest' & -> & Hzs & Hrest') & _).
    change (size_ (wvec ?l ?r)) with (length l).
    split_and!; try done.
    + unfold Capacity. simpl. lia.
    + apply wf_wvec.
  - intros Hc. unfold Emplace.
    change (size_ (wvec xs (s :: rest))) with (length xs).
    change (Capacity (wvec xs (s :: rest))) with (length xs + S (length rest)).
    rewrite (leb_correct index (length xs)) by lia.
    rewrite (leb_correct (length xs + 1) _) by lia.
    rewrite (proj2 (Nat.eqb_neq index (length xs))) by lia.
    simpl negb. cbv iota. by rewrite Hc.
  - intros x l _ Hx Hl. rewrite Hlast in Hl. injection Hl as ->.
    pose proof (Emplace_middle_in_place_outcome (take index xs) mid l s rest a x)
      as Hm.
    rewrite <- Hxs, length_take, Nat.min_l in Hm by lia.
    specialize (Hm Hx).
    rewrite Hdrop, <- Hmid, take_app_length.
    destruct (reloc_throws l); [by split|].
    split; [done|]. intros _ Hcause.
    assert (Hor : existsb move_assign_throws mid || move_assign_throws x = true).
    { destruct Hcause as [->| ->]; [done|apply orb_true_r]. }
    rewrite Hor in Hm. destruct Hm as (zs & Hrun & Hzs).
    eexists. split; [exact Hrun|]. split.
    + unfold slots. simpl. rewrite <- Hzs.
      apply list_lookup_middle. by rewrite length_fmap.
    + rewrite clean_wvec. simpl. by intros [=].
Qed.

End FurtherProperties.

(** ** Instances of the further properties *)

Lemma Reserve_spec_witness :
  wf nats_123 /\ fits nat 10 = true
  /\ Reserve nats_123 10 = (Ok (vec [1; 2; 3] 10) tt, [RawMemory_new 4])
  /\ (size_ (vec (T := nat) [1; 2; 3] 10) = size_ nats_123
      /\ contents (vec [1; 2; 3] 10) = contents nats_123
      /\ Capacity (vec (T := nat) [1; 2; 3] 10) = Nat.max (Capacity nats_123) 10
      /\ [RawMemory_new 4]
         = (if Capacity nats_123 <? 10 then [emptied nats_123] else [])
      /\ (10 <= Capacity nats_123 -> vec [1; 2; 3] 10 = nats_123)
      /\ wf (vec (T := nat) [1; 2; 3] 10))
  /\ (10 <= Capacity nats_123 -> Reserve nats_123 10 = (Ok nats_123 tt, []))
  /\ (Capacity nats_123 < 10 ->
      existsb reloc_throws (contents nats_123) = true ->
      exists this' rel, Reserve nats_123 10 = (Throw this', rel)).
Proof.
  assert (Hwf : wf nats_123) by wf_compute.
  assert (Hfits : fits nat 10 = true) by reflexivity.
  refine (conj Hwf (conj Hfits (conj eq_refl _))).
  exact (Reserve_spec nats_123 10 Hwf Hfits).
Defined.

Lemma Resize_shrinks_witness :
  wf nats_1234 /\ 2 <= size_ nats_1234
  /\ exists this',
       Resize nats_1234 2 = (Ok this' tt, [])
       /\ size_ this' = 2
       /\ contents this' = take 2 (contents nats_1234)
       /\ Capacity this' = Capacity nats_1234
       /\ (forall k, 2 <= k < size_ nats_1234 -> slots this' !! k = Some None)
       /\ wf this'.
Proof.
  assert (Hwf : wf nats_1234) by wf_compute.
  assert (Hle : 2 <= size_ nats_1234) by (vm_compute; lia).
  refine (conj Hwf (conj Hle _)).
  exact (Resize_shrinks nats_1234 2 Hwf Hle).
Defined.

Lemma Resize_grows_witness :
  (wf nats_123 /\ size_ nats_123 < 6 /\ fits nat 6 = true
   /\ Resize nats_123 6 = (Ok (vec [1; 2; 3; 0; 0; 0] 6) tt, [RawMemory_new 4])
   /\ exists ds,
        value_inits 0 (6 - size_ nats_123) = Some ds
        /\ contents (vec [1; 2; 3; 0; 0; 0] 6) = contents nats_123 ++ ds
        /\ size_ (vec (T := nat) [1; 2; 3; 0; 0; 0] 6) = 6
        /\ Capacity (vec (T := nat) [1; 2; 3; 0; 0; 0] 6)
           = Nat.max (Capacity nats_123) 6
        /\ [RawMemory_new 4]
           = (if Capacity nats_123 <? 6 then [emptied nats_123] else [])
        /\ wf (vec (T := nat) [1; 2; 3; 0; 0; 0] 6))
  /\ (wf one_rationed /\ size_ one_rationed < 4 /\ fits Rationed 4 = true
      /\ Resize one_rationed 4 = (Throw (vec [rationed 5] 4), [RawMemory_new 2])
      /\ (size_ (vec [rationed 5] 4) = size_ one_rationed
          /\ Capacity one_rationed <= Capacity (vec [rationed 5] 4)
             <= Nat.max (Capacity one_rationed) 4
          /\ Forall2 (fun x' x => x' = x \/ x' = moved_from x)
               (contents (vec [rationed 5] 4)) (contents one_rationed)
          /\ (@is_copy_constructible Rationed _ = true
              \/ @is_nothrow_move_constructible Rationed _ = true ->
              contents (vec [rationed 5] 4) = contents one_rationed)
          /\ (clean one_rationed ->
              Forall raw [RawMemory_new (T := Rationed) 2]
              /\ clean (vec [rationed 5] 4))
          /\ wf (vec [rationed 5] 4))
      /\ (existsb reloc_throws (contents one_rationed) = false ->
          value_inits (T := Rationed) 0 (4 - size_ one_rationed) = None ->
          exists this' rel,
            Resize one_rationed 4 = (Throw this', rel)
            /\ contents this' = contents one_rationed)).
Proof.
  assert (Hwf : wf nats_123) by wf_compute.
  assert (Hlt : size_ nats_123 < 6) by (vm_compute; lia).
  assert (Hfits : fits nat 6 = true) by reflexivity.
  assert (Hwfr : wf one_rationed) by wf_compute.
  assert (Hltr : size_ one_rationed < 4) by (vm_compute; lia).
  assert (Hfitsr : fits Rationed 4 = true) by reflexivity.
  refine (conj (conj Hwf (conj Hlt (conj Hfits (conj eq_refl _))))
               (conj Hwfr (conj Hltr (conj Hfitsr (conj eq_refl _))))).
  - exact (proj1 (Resize_grows nats_123 6 Hwf Hlt Hfits)).
  - exact (Resize_grows one_rationed 4 Hwfr Hltr Hfitsr).
Defined.

Lemma Vector_sized_holds_defaults_witness :
  (fits nat 3 = true
   /\ Vector_sized 3 = (Ok tt (vec [0; 0; 0] 3), [])
   /\ size_ (vec (T := nat) [0; 0; 0] 3) = 3
   /\ Capacity (vec (T := nat) [0; 0; 0] 3) = 3
   /\ value_inits 0 3 = Some (contents (vec [0; 0; 0] 3))
   /\ @nil (RawMemory nat) = []
   /\ wf (vec (T := nat) [0; 0; 0] 3)
   /\ clean (vec (T := nat) [0; 0; 0] 3))
  /\ (fits Rationed 3 = true
      /\ Vector_sized (T := Rationed) 3 = (Throw tt, [RawMemory_new 3])
      /\ (0 < 3 /\ Forall raw [RawMemory_new (T := Rationed) 3])
      /\ (value_inits (T := Rationed) 0 3 = None ->
          exists rel,
            Vector_sized (T := Rationed) 3 = (Throw tt, rel) /\ Forall raw rel)).
Proof.
  assert (Hfits : fits nat 3 = true) by reflexivity.
  assert (Hfitsr : fits Rationed 3 = true) by reflexivity.
  refine (conj (conj Hfits (conj eq_refl _)) (conj Hfitsr (conj eq_refl _))).
  - exact (proj1 (Vector_sized_holds_defaults (T := nat) 3 Hfits)).
  - exact (Vector_sized_holds_defaults (T := Rationed) 3 Hfitsr).
Defined.

Lemma Resize_grow_then_shrink_witness :
  wf nats_123 /\ size_ nats_123 <= 6
  /\ Resize nats_123 6 = (Ok (vec [1; 2; 3; 0; 0; 0] 6) tt, [RawMemory_new 4])
  /\ exists this2,
       Resize (vec [1; 2; 3; 0; 0; 0] 6) (size_ nats_123) = (Ok this2 tt, [])
       /\ contents this2 = contents nats_123
       /\ size_ this2 = size_ nats_123
       /\ Capacity this2 = Nat.max (Capacity nats_123) 6.
Proof.
  assert (Hwf : wf nats_123) by wf_compute.
  assert (Hle : size_ nats_123 <= 6) by (vm_compute; lia).
  assert (Hrun : Resize nats_123 6
                 = (Ok (vec [1; 2; 3; 0; 0; 0] 6) tt, [RawMemory_new 4]))
    by reflexivity.
  refine (conj Hwf (conj Hle (conj Hrun _))).
  exact (Resize_grow_then_shrink nats_123 6 _ _ Hwf Hle Hrun).
Defined.

Lemma Reserve_then_PushBack_witness :
  wf nats_123 /\ fits nat 6 = true
  /\ Reserve nats_123 6 = (Ok (vec [1; 2; 3] 6) tt, [RawMemory_new 4])
  /\ size_ nats_123 + length three_more <= 6
  /\ Forall (fun a => arg_ok a nats_123) three_more
  /\ 6 <= Capacity (vec (T := nat) [1; 2; 3] 6)
  /\ steps_released (vec [1; 2; 3] 6) (Push <$> three_more) = []
  /\ run_steps (vec [1; 2; 3] 6) (Push <$> three_more)
     = Ok (vec [1; 2; 3; 4; 5; 1] 6) tt
  /\ (Capacity (vec (T := nat) [1; 2; 3; 4; 5; 1] 6)
      = Capacity (vec (T := nat) [1; 2; 3] 6)
      /\ size_ (vec (T := nat) [1; 2; 3; 4; 5; 1] 6)
         = size_ nats_123 + length three_more
      /\ take (size_ nats_123) (contents (vec [1; 2; 3; 4; 5; 1] 6))
         = contents nats_123).
Proof.
  assert (Hwf : wf nats_123) by wf_compute.
  assert (Hfits : fits nat 6 = true) by reflexivity.
  assert (Hres : Reserve nats_123 6 = (Ok (vec [1; 2; 3] 6) tt, [RawMemory_new 4]))
    by reflexivity.
  assert (Hfit : size_ nats_123 + length three_more <= 6) by (vm_compute; lia).
  assert (Hargs : Forall (fun a => arg_ok a nats_123) three_more)
    by (repeat constructor; vm_compute; lia).
  refine (conj Hwf (conj Hfits (conj Hres (conj Hfit (conj Hargs _))))).
  destruct (Reserve_then_PushBack nats_123 6 _ _ three_more Hwf Hfits Hres Hfit Hargs)
    as (Hcap & Hrel & Hrun).
  refine (conj Hcap (conj Hrel (conj eq_refl Hrun))).
Defined.

Lemma Vector_copy_spec_witness :
  wf nats_123
  /\ Vector_copy nats_123 = (Ok tt (vec [1; 2; 3] 3), [])
  /\ (contents (vec [1; 2; 3] 3) = contents nats_123
      /\ size_ (vec (T := nat) [1; 2; 3] 3) = size_ nats_123
      /\ Capacity (vec (T := nat) [1; 2; 3] 3) = size_ nats_123
      /\ @nil (RawMemory nat) = []
      /\ wf (vec (T := nat) [1; 2; 3] 3)
      /\ clean (vec (T := nat) [1; 2; 3] 3))
  /\ (existsb copy_throws (contents nats_123) = true ->
      exists rel, Vector_copy nats_123 = (Throw tt, rel)).
Proof.
  assert (Hwf : wf nats_123) by wf_compute.
  refine (conj Hwf (conj eq_refl _)).
  exact (Vector_copy_spec nats_123 Hwf).
Defined.

Lemma Vector_destroy_spec_witness :
  wf nats_123
  /\ exists m,
       Vector_destroy nats_123 = Some [m]
       /\ capacity_ m = Capacity nats_123
       /\ buffer_ m = raw_range (slots nats_123) 0 (size_ nats_123)
       /\ (clean nats_123 -> raw m).
Proof.
  assert (Hwf : wf nats_123) by wf_compute.
  refine (conj Hwf _).
  exact (Vector_destroy_spec nats_123 Hwf).
Defined.

Lemma Vector_at_spec_witness :
  wf nats_123
  /\ Vector_at nats_123 1 = contents nats_123 !! 1
  /\ (is_Some (Vector_at nats_123 1) <-> 1 < Size nats_123)
  /\ RawMemory_plus (data_ nats_123) (size_ nats_123) = Some (Vector_end nats_123)
  /\ Vector_end nats_123 - Vector_begin nats_123 = Size nats_123.
Proof.
  assert (Hwf : wf nats_123) by wf_compute.
  refine (conj Hwf _).
  exact (Vector_at_spec nats_123 1 Hwf).
Defined.

Lemma EmplaceBack_appends_witness :
  wf nats_1234 /\ arg_ok (ByCopyOwn 0) nats_1234
  /\ EmplaceBack nats_1234 (ByCopyOwn 0)
     = (Ok (vec [1; 2; 3; 4; 1] 8) 4, [RawMemory_new 4])
  /\ (exists x,
        construct (ByCopyOwn 0) (slots nats_1234) = Ok tt x
        /\ contents (vec [1; 2; 3; 4; 1] 8) = contents nats_1234 ++ [x]
        /\ size_ (vec (T := nat) [1; 2; 3; 4; 1] 8) = size_ nats_1234 + 1
        /\ 4 = size_ nats_1234
        /\ at_index (vec [1; 2; 3; 4; 1] 8) 4 = Some x
        /\ PushBack nats_1234 (ByCopyOwn 0)
           = (Ok (vec [1; 2; 3; 4; 1] 8) tt, [RawMemory_new 4])
        /\ wf (vec (T := nat) [1; 2; 3; 4; 1] 8))
  /\ (construct (ByCopyOwn 0) (slots nats_1234) = Throw tt ->
      exists rel, EmplaceBack nats_1234 (ByCopyOwn 0) = (Throw nats_1234, rel)).
Proof.
  assert (Hwf : wf nats_1234) by wf_compute.
  assert (Harg : arg_ok (ByCopyOwn 0) nats_1234) by (vm_compute; lia).
  refine (conj Hwf (conj Harg (conj eq_refl _))).
  exact (EmplaceBack_appends nats_1234 (ByCopyOwn 0) Hwf Harg).
Defined.

Lemma PushBack_strong_guarantee_witness :
  wf fragiles
  /\ (size_ fragiles + 1 <= Capacity fragiles
      \/ @is_copy_constructible Fragile _ = true
      \/ @is_nothrow_move_constructible Fragile _ = true)
  /\ PushBack fragiles (ByCopy (fragile 7)) = (Throw fragiles, [RawMemory_new 4])
  /\ (fragiles = fragiles /\ Forall raw [RawMemory_new (T := Fragile) 4]).
Proof.
  assert (Hwf : wf fragiles) by wf_compute.
  assert (Hcase : size_ fragiles + 1 <= Capacity fragiles
                  \/ @is_copy_constructible Fragile _ = true
                  \/ @is_nothrow_move_constructible Fragile _ = true)
    by (right; left; reflexivity).
  refine (conj Hwf (conj Hcase (conj eq_refl _))).
  exact (PushBack_strong_guarantee fragiles (ByCopy (fragile 7)) Hwf Hcase).
Defined.

Lemma PushBack_then_PopBack_witness :
  wf nats_1234
  /\ PushBack nats_1234 (ByCopy 5) = (Ok (vec [1; 2; 3; 4; 5] 8) tt, [RawMemory_new 4])
  /\ exists this2,
       PopBack (vec [1; 2; 3; 4; 5] 8) = (Ok this2 tt, [])
       /\ contents this2 = contents nats_1234
       /\ size_ this2 = size_ nats_1234
       /\ Capacity this2 = Capacity (vec (T := nat) [1; 2; 3; 4; 5] 8)
       /\ slots this2 !! size_ nats_1234 = Some None.
Proof.
  assert (Hwf : wf nats_1234) by wf_compute.
  assert (Hrun : PushBack nats_1234 (ByCopy 5)
                 = (Ok (vec [1; 2; 3; 4; 5] 8) tt, [RawMemory_new 4]))
    by reflexivity.
  refine (conj Hwf (conj Hrun _)).
  exact (PushBack_then_PopBack nats_1234 (ByCopy 5) _ _ Hwf Hrun).
Defined.

Lemma Emplace_then_Erase_witness :
  wf nats_123 /\ 1 <= size_ nats_123
  /\ Emplace nats_123 1 (ByCopy 7) = (Ok (vec [1; 7; 2; 3] 4) 1, [])
  /\ Erase (vec [1; 7; 2; 3] 4) 1 = (Ok nats_123 1, [])
  /\ (contents nats_123 = contents nats_123
      /\ size_ nats_123 = size_ nats_123
      /\ 1 = 1
      /\ Capacity nats_123 = Capacity (vec (T := nat) [1; 7; 2; 3] 4)
      /\ @nil (RawMemory nat) = []).
Proof.
  assert (Hwf : wf nats_123) by wf_compute.
  assert (Hle : 1 <= size_ nats_123) by (vm_compute; lia).
  assert (Hrun : Emplace nats_123 1 (ByCopy 7) = (Ok (vec [1; 7; 2; 3] 4) 1, []))
    by reflexivity.
  refine (conj Hwf (conj Hle (conj Hrun (conj eq_refl _)))).
  exact (Emplace_then_Erase nats_123 1 (ByCopy 7) _ _ _ Hwf Hle Hrun).
Defined.

Lemma Erase_last_is_PopBack_witness :
  wf nats_123 /\ 0 < size_ nats_123
  /\ exists this',
       Erase nats_123 (size_ nats_123 - 1) = (Ok this' (Vector_end this'), [])
       /\ PopBack nats_123 = (Ok this' tt, []).
Proof.
  assert (Hwf : wf nats_123) by wf_compute.
  assert (Hpos : 0 < size_ nats_123) by (vm_compute; lia).
  refine (conj Hwf (conj Hpos _)).
  exact (Erase_last_is_PopBack nats_123 Hwf Hpos).
Defined.

Lemma Insert_own_element_realloc_witness :
  wf nats_1234 /\ Capacity nats_1234 < size_ nats_1234 + 1
  /\ 1 <= size_ nats_1234 /\ 3 < size_ nats_1234
  /\ Insert nats_1234 1 (ByCopyOwn 3)
     = (Ok (vec [1; 4; 2; 3; 4] 8) 1, [RawMemory_new 4])
  /\ (exists x,
        at_index nats_1234 3 = Some x
        /\ contents (vec [1; 4; 2; 3; 4] 8)
           = take 1 (contents nats_1234) ++ x :: drop 1 (contents nats_1234)
        /\ at_index (vec [1; 4; 2; 3; 4] 8) 1 = Some x
        /\ size_ (vec (T := nat) [1; 4; 2; 3; 4] 8) = size_ nats_1234 + 1
        /\ 1 = 1
        /\ Capacity (vec (T := nat) [1; 4; 2; 3; 4] 8)
           = Nat.max 1 (2 * Capacity nats_1234)
        /\ [RawMemory_new (T := nat) 4] = [RawMemory_new (Capacity nats_1234)]
        /\ wf (vec (T := nat) [1; 4; 2; 3; 4] 8))
  /\ (forall x, at_index nats_1234 3 = Some x -> copy_throws x = true ->
      exists rel, Insert nats_1234 1 (ByCopyOwn 3) = (Throw nats_1234, rel)).
Proof.
  assert (Hwf : wf nats_1234) by wf_compute.
  assert (Hfull : Capacity nats_1234 < size_ nats_1234 + 1) by (vm_compute; lia).
  assert (Hle : 1 <= size_ nats_1234) by (vm_compute; lia).
  assert (Hj : 3 < size_ nats_1234) by (vm_compute; lia).
  refine (conj Hwf (conj Hfull (conj Hle (conj Hj (conj eq_refl _))))).
  exact (Insert_own_element_realloc nats_1234 1 3 Hwf Hfull Hle Hj).
Defined.

Lemma capacity_never_shrinks_witness :
  wf nats_1234 /\ admissible (Call_Resize 1) nats_1234
  /\ call_fits (Call_Resize (T := nat) 1) = true
  /\ run (Call_Resize 1) nats_1234 = Ok (vec [1] 4) tt
  /\ Capacity nats_1234 <= Capacity (vec (T := nat) [1] 4).
Proof.
  assert (Hwf : wf nats_1234) by wf_compute.
  assert (Hadm : admissible (Call_Resize 1) nats_1234) by exact I.
  assert (Hfits : call_fits (Call_Resize (T := nat) 1) = true) by reflexivity.
  refine (conj Hwf (conj Hadm (conj Hfits (conj eq_refl _)))).
  exact (capacity_never_shrinks (Call_Resize 1) nats_1234 Hwf Hadm Hfits).
Defined.

Lemma failure_keeps_size_witness :
  wf fragiles /\ admissible (Call_PushBack (ByCopy (fragile 7))) fragiles
  /\ run (Call_PushBack (ByCopy (fragile 7))) fragiles = Throw fragiles
  /\ (size_ fragiles = size_ fragiles
      /\ length (contents fragiles) = length (contents fragiles)).
Proof.
  assert (Hwf : wf fragiles) by wf_compute.
  assert (Hadm : admissible (Call_PushBack (ByCopy (fragile 7))) fragiles)
    by exact I.
  refine (conj Hwf (conj Hadm (conj eq_refl _))).
  exact (failure_keeps_size (Call_PushBack (ByCopy (fragile 7))) fragiles Hwf Hadm).
Defined.

Lemma copy_assign_failure_witness :
  wf one_fragile /\ wf fragiles
  /\ copy_assign one_fragile (Other fragiles) = (Throw one_fragile, [RawMemory_new 2])
  /\ (size_ one_fragile = size_ one_fragile
      /\ Capacity one_fragile = Capacity one_fragile
      /\ (Capacity one_fragile < size_ fragiles ->
          one_fragile = one_fragile
          /\ [RawMemory_new (T := Fragile) 2] = [RawMemory_new (size_ fragiles)])
      /\ (size_ fragiles <= Capacity one_fragile -> [RawMemory_new (T := Fragile) 2] = [])
      /\ wf one_fragile).
Proof.
  assert (Hwf : wf one_fragile) by wf_compute.
  assert (Hwf' : wf fragiles) by wf_compute.
  refine (conj Hwf (conj Hwf' (conj eq_refl _))).
  exact (copy_assign_failure one_fragile fragiles Hwf Hwf').
Defined.

Lemma released_storage_is_raw_witness :
  wf nats_123 /\ clean nats_123 /\ admissible (Call_Reserve 10) nats_123
  /\ partner_clean (Call_Reserve (T := nat) 10)
  /\ released (Call_Reserve 10) nats_123 = [RawMemory_new 4]
  /\ run (Call_Reserve 10) nats_123 = Ok (vec [1; 2; 3] 10) tt
  /\ Forall raw (released (Call_Reserve 10) nats_123)
  /\ clean (vec (T := nat) [1; 2; 3] 10).
Proof.
  assert (Hwf : wf nats_123) by wf_compute.
  assert (Hclean : clean nats_123) by reflexivity.
  assert (Hadm : admissible (Call_Reserve 10) nats_123) by exact I.
  assert (Hpartner : partner_clean (Call_Reserve (T := nat) 10)) by exact I.
  refine (conj Hwf (conj Hclean (conj Hadm (conj Hpartner
            (conj eq_refl (conj eq_refl _)))))).
  exact (released_storage_is_raw (Call_Reserve 10) nats_123 Hwf Hclean Hadm Hpartner).
Defined.


Lemma Emplace_in_place_failure_witness :
  wf pinneds /\ size_ pinneds + 1 <= Capacity pinneds /\ 0 <= size_ pinneds
  /\ Emplace pinneds 0 (ByCopy (pinned 7))
     = (Throw (wvec [pinned 1; pinned 13; pinned 2] [Some (pinned 2)]), [])
  /\ (@nil (RawMemory Pinned) = []
      /\ size_ (wvec [pinned 1; pinned 13; pinned 2] [Some (pinned 2)]) = size_ pinneds
      /\ Capacity (wvec [pinned 1; pinned 13; pinned 2] [Some (pinned 2)])
         = Capacity pinneds
      /\ (0 = size_ pinneds ->
          wvec [pinned 1; pinned 13; pinned 2] [Some (pinned 2)] = pinneds)
      /\ wf (wvec [pinned 1; pinned 13; pinned 2] [Some (pinned 2)]))
  /\ (construct (ByCopy (pinned 7)) (slots pinneds) = Throw tt ->
      Emplace pinneds 0 (ByCopy (pinned 7)) = (Throw pinneds, []))
  /\ (reloc_throws (pinned 2) = true ->
      Emplace pinneds 0 (ByCopy (pinned 7)) = (Throw pinneds, []))
  /\ (reloc_throws (pinned 2) = false ->
      existsb move_assign_throws
        (take (size_ pinneds - 1 - 0) (drop 0 (contents pinneds))) = true
      \/ move_assign_throws (pinned 7) = true ->
      exists this',
        Emplace pinneds 0 (ByCopy (pinned 7)) = (Throw this', [])
        /\ slots this' !! size_ pinneds = Some (Some (pinned 2))
        /\ ~ clean this').
Proof.
  assert (Hwf : wf pinneds) by wf_compute.
  assert (Hfit : size_ pinneds + 1 <= Capacity pinneds) by (vm_compute; lia).
  assert (Hle : 0 <= size_ pinneds) by (vm_compute; lia).
  assert (Hlt : 0 < size_ pinneds) by (vm_compute; lia).
  refine (conj Hwf (conj Hfit (conj Hle (conj eq_refl _)))).
  refine (match Emplace_in_place_failure pinneds 0 (ByCopy (pinned 7)) Hwf Hfit Hle
          with
          | conj Hthrow (conj Hctor Hshift) =>
              conj Hthrow
                (conj Hctor (Hshift (pinned 7) (pinned 2) Hlt eq_refl eq_refl))
          end).
Defined.
